(** * DFA_Minimizer: the validator and the table-filling minimizer

    A shallow embedding of [src/afd/representacao.py],
    [src/minimizador/helpers.py], [src/minimizador/validador.py] and
    [src/minimizador/algoritmo.py].

    Python sets and frozensets are [gset]s, dicts are [gmap]s, the
    nested transition dict is a [gmap] of [gmap]s.  A [for] over a set
    is a fold over [elements]; wherever the source depends on the order
    in which a set is iterated ([next(iter(fs_class))]) that choice is
    a parameter.  Loops that the source writes as [while] carry a fuel
    argument and return [None] when it runs out; a [KeyError] is [None]
    as well.  The totality theorems show that neither happens. *)

From Stdlib Require Import Ascii.
From stdpp Require Import gmap strings list fin_maps fin_sets sorting pretty.

Set Warnings "-clear-no-such-hyp".

(** ** [src/afd/representacao.py] *)

(** [class AFD]: the same class holds the original automaton (states
    are labels) and the minimized one (states are frozensets of
    labels), so the record is generic in the type of states. *)
Record AFD (St : Type) `{Countable St} := mkAFD {
  alfabeto : gset string;
  estados : gset St;
  inicial : St;
  finais : gset St;
  transicoes : gmap St (gmap string St)
}.
Arguments mkAFD {St _ _}.
Arguments alfabeto {St _ _}.
Arguments estados {St _ _}.
Arguments inicial {St _ _}.
Arguments finais {St _ _}.
Arguments transicoes {St _ _}.

(** [transicoes.get(p, {}).get(simbolo)]; [None] is Python's [None]. *)
Definition get_trans {St} `{Countable St}
    (t : gmap St (gmap string St)) (p : St) (simbolo : string) : option St :=
  default ∅ (t !! p) !! simbolo.

(** ** [src/minimizador/helpers.py] *)

(** The body of the inner [for simbolo in afd.alfabeto] of the
    breadth-first search, for one symbol. *)
Definition bfs_visit (afd : AFD string) (estado_atual : string)
    (st : gset string * list string) (simbolo : string)
    : gset string * list string :=
  let '(alcancaveis, fila) := st in
  match get_trans (transicoes afd) estado_atual simbolo with
  | Some proximo_estado =>
      if decide (proximo_estado ∉ alcancaveis) then
        if decide (proximo_estado ∈ estados afd) then
          ({[proximo_estado]} ∪ alcancaveis, fila ++ [proximo_estado])
        else st
      else st
  | None => st
  end.

(** [while fila: estado_atual = fila.popleft() ...]. *)
Fixpoint bfs_loop (fuel : nat) (afd : AFD string)
    (alcancaveis : gset string) (fila : list string) : option (gset string) :=
  match fila with
  | [] => Some alcancaveis
  | estado_atual :: fila' =>
      match fuel with
      | O => None
      | S fuel' =>
          let '(alcancaveis', fila'') :=
            if decide (estado_atual ∈ dom (transicoes afd)) then
              foldl (bfs_visit afd estado_atual) (alcancaveis, fila')
                    (elements (alfabeto afd))
            else (alcancaveis, fila') in
          bfs_loop fuel' afd alcancaveis' fila''
      end
  end.

Definition _encontrar_estados_alcancaveis (afd : AFD string)
    : option (gset string) :=
  if decide (estados afd = ∅ ∨ inicial afd ∉ estados afd) then Some ∅
  else bfs_loop (size (estados afd)) afd {[inicial afd]} [inicial afd].

(** ** [src/minimizador/validador.py] *)

(** The diagnostics.  The source builds them as formatted text whose
    first word is the severity ([ERRO:] or [AVISO:]); one constructor
    per message template, carrying the values that are interpolated. *)
Inductive mensagem : Type :=
  | ErroObjetoVazio
  | ErroInicialForaDeEstados (inicial : string) (estados : gset string)
  | ErroFinaisInvalidos (invalidos estados : gset string)
  | ErroOrigemInvalida (origem : string)
  | ErroSimboloInvalido (simbolo origem destino : string)
  | ErroDestinoInvalido (destino origem simbolo : string)
  | ErroTransicaoAusente (estado simbolo : string)
  | AvisoInalcancaveis (inicial : string) (inalcancaveis : gset string)
  | ErroSemAlcancaveis (inicial : string).

(** The message starts with [ERRO:]. *)
Definition is_erro (m : mensagem) : bool :=
  match m with
  | AvisoInalcancaveis _ _ => false
  | _ => true
  end.

(** The message starts with [AVISO:]. *)
Definition is_aviso (m : mensagem) : bool := negb (is_erro m).

(** The inner loop [for simbolo, destino in transicoes_simbolo.items()]
    of the consistency check, for one entry. *)
Definition consistencia_destino (afd : AFD string) (origem : string)
    (st : list mensagem * nat) (sd : string * string) : list mensagem * nat :=
  let '(simbolo, destino) := sd in
  let '(mensagens, erros) := st in
  let '(mensagens, erros) :=
    if decide (simbolo ∉ alfabeto afd)
    then (mensagens ++ [ErroSimboloInvalido simbolo origem destino], S erros)
    else (mensagens, erros) in
  if decide (destino ∉ estados afd)
  then (mensagens ++ [ErroDestinoInvalido destino origem simbolo], S erros)
  else (mensagens, erros).

(** The outer loop [for origem, transicoes_simbolo in afd.transicoes.items()]. *)
Definition consistencia_origem (afd : AFD string)
    (st : list mensagem * nat) (ot : string * gmap string string)
    : list mensagem * nat :=
  let '(origem, transicoes_simbolo) := ot in
  let '(mensagens, erros) := st in
  let st :=
    if decide (origem ∉ estados afd)
    then (mensagens ++ [ErroOrigemInvalida origem], S erros)
    else (mensagens, erros) in
  foldl (consistencia_destino afd origem) st (map_to_list transicoes_simbolo).

(** [_verificar_consistencia(afd, mensagens)]: the list it appends to
    is threaded through; the result is [erros_consistencia == 0]. *)
Definition _verificar_consistencia (afd : AFD string)
    (mensagens : list mensagem) : bool * list mensagem :=
  let erros_consistencia := 0 in
  let '(mensagens, erros_consistencia) :=
    if decide (inicial afd ∉ estados afd)
    then (mensagens ++ [ErroInicialForaDeEstados (inicial afd) (estados afd)],
          S erros_consistencia)
    else (mensagens, erros_consistencia) in
  let estados_finais_invalidos := finais afd ∖ estados afd in
  let '(mensagens, erros_consistencia) :=
    if decide (estados_finais_invalidos ≠ ∅)
    then (mensagens ++ [ErroFinaisInvalidos estados_finais_invalidos (estados afd)],
          S erros_consistencia)
    else (mensagens, erros_consistencia) in
  let '(mensagens, erros_consistencia) :=
    foldl (consistencia_origem afd) (mensagens, erros_consistencia)
          (map_to_list (transicoes afd)) in
  (bool_decide (erros_consistencia = 0), mensagens).

(** The body of [for simbolo in afd.alfabeto] in the completeness check. *)
Definition determinismo_simbolo (afd : AFD string) (estado : string)
    (st : list mensagem * bool) (simbolo : string) : list mensagem * bool :=
  let '(mensagens, determinismo_ok) := st in
  if decide (transicoes afd !! estado = None ∨
             default ∅ (transicoes afd !! estado) !! simbolo = None)
  then (mensagens ++ [ErroTransicaoAusente estado simbolo], false)
  else (mensagens, determinismo_ok).

(** [_verificar_determinismo(afd, mensagens)]. *)
Definition _verificar_determinismo (afd : AFD string)
    (mensagens : list mensagem) : bool * list mensagem :=
  let '(mensagens, determinismo_ok) :=
    foldl (fun st estado =>
             foldl (determinismo_simbolo afd estado) st (elements (alfabeto afd)))
          (mensagens, true) (elements (estados afd)) in
  (determinismo_ok, mensagens).

(** [_verificar_alcancabilidade(afd, mensagens)]: the same search as
    [_encontrar_estados_alcancaveis], followed by the warning. *)
Definition _verificar_alcancabilidade (afd : AFD string)
    (mensagens : list mensagem) : option (gset string * list mensagem) :=
  if decide (estados afd = ∅) then Some (∅, mensagens)
  else if decide (inicial afd ∉ estados afd) then Some (∅, mensagens)
  else
    alcancaveis ← bfs_loop (size (estados afd)) afd {[inicial afd]} [inicial afd];
    let estados_inalcancaveis := estados afd ∖ alcancaveis in
    let mensagens :=
      if decide (estados_inalcancaveis ≠ ∅)
      then mensagens ++ [AvisoInalcancaveis (inicial afd) estados_inalcancaveis]
      else mensagens in
    Some (alcancaveis, mensagens).

(** [validar_afd(afd)].  An [AFD] object is always truthy; an initial
    state is falsy when it is the empty label [EmptyString]. *)
Definition validar_afd (afd : AFD string)
    : option (bool * list mensagem * option (gset string)) :=
  let mensagens := [] in
  let is_valido := true in
  let estados_alcancaveis := None in
  if decide (estados afd = ∅ ∨ alfabeto afd = ∅ ∨ inicial afd = EmptyString) then
    Some (false, mensagens ++ [ErroObjetoVazio], None)
  else
    let '(ok, mensagens) := _verificar_consistencia afd mensagens in
    let is_valido := if ok then is_valido else false in
    let '(ok, mensagens) := _verificar_determinismo afd mensagens in
    let is_valido := if ok then is_valido else false in
    if decide (inicial afd ∈ estados afd) then
      '(alcancaveis, mensagens) ← _verificar_alcancabilidade afd mensagens;
      let '(mensagens, is_valido) :=
        if decide (alcancaveis = ∅ ∧ estados afd ≠ ∅)
        then (mensagens ++ [ErroSemAlcancaveis (inicial afd)], false)
        else (mensagens, is_valido) in
      Some (is_valido, mensagens, Some alcancaveis)
    else Some (is_valido, mensagens, estados_alcancaveis).

(** ** [src/minimizador/algoritmo.py] *)

(** A [for] whose body can fail. *)
Fixpoint foldl_opt {A B} (f : A → B → option A) (a : A) (l : list B)
    : option A :=
  match l with
  | [] => Some a
  | x :: l' => a' ← f a x; foldl_opt f a' l'
  end.

(** *** [class DSU]: the state of the object is its [parent] dict. *)

(** [DSU.__init__]: [{item: item for item in items}]. *)
Definition DSU_init (items : gset string) : gmap string string :=
  set_to_map (λ item, (item, item)) items.

(** [DSU.find] with path compression; [parent[item]] on a missing key
    raises [KeyError]. *)
Fixpoint DSU_find_go (fuel : nat) (parent : gmap string string)
    (item : string) : option (string * gmap string string) :=
  match fuel with
  | O => None
  | S fuel' =>
      p ← parent !! item;
      if decide (p = item) then Some (item, parent)
      else
        '(r, parent') ← DSU_find_go fuel' parent p;
        Some (r, <[item := r]> parent')
  end.

Definition DSU_find (parent : gmap string string) (item : string)
    : option (string * gmap string string) :=
  DSU_find_go (size parent) parent item.

(** [DSU.union]. *)
Definition DSU_union (parent : gmap string string) (item1 item2 : string)
    : option (gmap string string) :=
  '(root1, parent) ← DSU_find parent item1;
  '(root2, parent) ← DSU_find parent item2;
  Some (if decide (root1 ≠ root2) then <[root1 := root2]> parent else parent).

(** *** The events of the generator *)

(** [frozenset({p, q})]. *)
Definition par (p q : string) : gset string := {[p; q]}.

Inductive info_msg : Type :=
  | InfoEncontrandoAlcancaveis
  | InfoTrabalhandoCom (n : nat) (ordenados : list string)
  | InfoInalcancaveisIgnorados (ignorados : gset string)
  | InfoPassoAPasso
  | InfoNenhumaNovaMarcacao (passo : nat)
  | InfoSeparador
  | InfoConstruindo
  | InfoConstrucaoConcluida.

Inductive erro_msg : Type :=
  | ErroNenhumAlcancavel
  | ErroInicialNaoAlcancavel (inicial : string)
  | ErroNenhumaClasse.

(** The dicts that the generator yields, by their ['type'].  The
    ['data'] of a [step_table] is the text that
    [_formatar_tabela_marcacao] prints for the marked pairs, that of a
    [step_update] the text of [_formatar_novos_marcados] for the new
    ones; the events carry the sets themselves. *)
Inductive evento : Type :=
  | EvInfo (message : info_msg)
  | EvStepTable (pass : nat) (marked_pairs : gset (gset string))
  | EvStepUpdate (pass : nat) (newly_marked : gset (gset string))
  | EvResult (data : AFD (gset string))
  | EvError (message : erro_msg).

Definition is_result (e : evento) : bool :=
  match e with EvResult _ => true | _ => false end.
Definition is_error (e : evento) : bool :=
  match e with EvError _ => true | _ => false end.
Definition is_step (e : evento) : bool :=
  match e with EvStepTable _ _ | EvStepUpdate _ _ => true | _ => false end.
Definition is_terminal (e : evento) : bool := is_result e || is_error e.

(** *** The table filling *)

(** [itertools.combinations(l, 2)]. *)
Fixpoint combinations2 {A} (l : list A) : list (A * A) :=
  match l with
  | [] => []
  | x :: l' => ((λ y, (x, y)) <$> l') ++ combinations2 l'
  end.

(** [sorted(list(estados_alcancaveis))]. *)
Definition sorted_states (X : gset string) : list string :=
  merge_sort String.le (elements X).

(** 1. Inicialização: the two nested loops over the reachable final
    and non-final states. *)
Definition marcacao_inicial (finais_alcancaveis non_finais_alcancaveis : gset string)
    : gset (gset string) :=
  foldl (λ marked_pairs p,
           foldl (λ marked_pairs q,
                    if decide (p ≠ q) then {[par p q]} ∪ marked_pairs
                    else marked_pairs)
                 marked_pairs (elements non_finais_alcancaveis))
        ∅ (elements finais_alcancaveis).

(** The loop [for simbolo in alfabeto] for one unmarked pair: [true]
    when it reaches [newly_marked.add(pair); break]. *)
Fixpoint simbolo_distingue (transicoes : gmap string (gmap string string))
    (marked_pairs : gset (gset string)) (p q : string)
    (simbolos : list string) : bool :=
  match simbolos with
  | [] => false
  | simbolo :: resto =>
      match get_trans transicoes p simbolo, get_trans transicoes q simbolo with
      | Some next_p, Some next_q =>
          if decide (next_p ≠ next_q) then
            if decide (par next_p next_q ∈ marked_pairs) then true
            else simbolo_distingue transicoes marked_pairs p q resto
          else simbolo_distingue transicoes marked_pairs p q resto
      | _, _ => simbolo_distingue transicoes marked_pairs p q resto
      end
  end.

(** One pass of [for p, q in state_pairs]: the set [newly_marked]. *)
Definition passo_marcacao (afd : AFD string) (state_pairs : list (string * string))
    (marked_pairs : gset (gset string)) : gset (gset string) :=
  foldl (λ newly_marked '(p, q),
           let pair := par p q in
           if decide (pair ∈ marked_pairs) then newly_marked
           else if simbolo_distingue (transicoes afd) marked_pairs p q
                     (elements (alfabeto afd))
                then {[pair]} ∪ newly_marked
                else newly_marked)
        ∅ state_pairs.

(** 2. Iteração: [while True].  Returns the marked pairs at the fixed
    point, the number of the pass that marked nothing, and the events
    of the loop. *)
Fixpoint iteracao (fuel : nat) (afd : AFD string)
    (state_pairs : list (string * string)) (marked_pairs : gset (gset string))
    (passo : nat) : option (gset (gset string) * nat * list evento) :=
  match fuel with
  | O => None
  | S fuel' =>
      let newly_marked := passo_marcacao afd state_pairs marked_pairs in
      if decide (newly_marked = ∅) then
        Some (marked_pairs, passo, [EvInfo (InfoNenhumaNovaMarcacao passo)])
      else
        let marked_pairs := marked_pairs ∪ newly_marked in
        '(m, n, evs) ← iteracao fuel' afd state_pairs marked_pairs (S passo);
        Some (m, n, EvStepUpdate passo newly_marked
                    :: EvStepTable passo marked_pairs :: evs)
  end.

(** *** The construction of the minimized automaton *)

(** [for p, q in state_pairs: if frozenset({p, q}) not in marked_pairs:
    dsu.union(p, q)]. *)
Definition unir_nao_marcados (marked_pairs : gset (gset string))
    (parent : gmap string string) (state_pairs : list (string * string))
    : option (gmap string string) :=
  foldl_opt (λ parent '(p, q),
               if decide (par p q ∉ marked_pairs) then DSU_union parent p q
               else Some parent)
            parent state_pairs.

(** [for estado in estados_alcancaveis:
    equivalence_classes[dsu.find(estado)].add(estado)]. *)
Definition agrupar (parent : gmap string string) (estados_alcancaveis : gset string)
    : option (gmap string string * gmap string (gset string)) :=
  foldl_opt (λ '(parent, equivalence_classes) estado,
               '(r, parent) ← DSU_find parent estado;
               Some (parent,
                     <[r := {[estado]} ∪ default ∅ (equivalence_classes !! r)]>
                       equivalence_classes))
            (parent, ∅) (elements estados_alcancaveis).

(** [{orig: fs for fs in min_estados_fs for orig in fs}]. *)
Definition mapa_classes (min_estados_fs : gset (gset string))
    : gmap string (gset string) :=
  foldl (λ m fs, foldl (λ m orig, <[orig := fs]> m) m (elements fs))
        ∅ (elements min_estados_fs).

Section Minimizador.

(** [next(iter(fs_class))]: the element that the iteration of a
    frozenset gives first. *)
Variable pick : gset string → string.

(** The body of [for simbolo in alfabeto] in the loop that fills
    [min_transicoes], for the class [fs_class] and its representative. *)
Definition preencher_transicao (afd : AFD string)
    (estados_alcancaveis : gset string)
    (state_to_class_fs : gmap string (gset string))
    (fs_class : gset string) (rep : string)
    (min_transicoes : gmap (gset string) (gmap string (gset string)))
    (simbolo : string)
    : option (gmap (gset string) (gmap string (gset string))) :=
  match get_trans (transicoes afd) rep simbolo with
  | Some orig_dest =>
      if decide (orig_dest ∈ estados_alcancaveis) then
        destino ← state_to_class_fs !! orig_dest;
        Some (<[fs_class := <[simbolo := destino]>
                              (default ∅ (min_transicoes !! fs_class))]>
                min_transicoes)
      else Some min_transicoes
  | None => Some min_transicoes
  end.

(** The loop that fills [min_transicoes]. *)
Definition construir_transicoes (afd : AFD string)
    (estados_alcancaveis : gset string) (min_estados_fs : gset (gset string))
    (state_to_class_fs : gmap string (gset string))
    : option (gmap (gset string) (gmap string (gset string))) :=
  foldl_opt (λ min_transicoes fs_class,
               let rep := pick fs_class in
               foldl_opt (preencher_transicao afd estados_alcancaveis
                            state_to_class_fs fs_class rep)
                         min_transicoes (elements (alfabeto afd)))
            ∅ (elements min_estados_fs).

(** Part 2 of [minimizar_afd]: the events from the construction on. *)
Definition construir (afd : AFD string) (estados_alcancaveis : gset string)
    (state_pairs : list (string * string)) (marked_pairs : gset (gset string))
    (finais_alcancaveis : gset string) : option (list evento) :=
  let dsu := DSU_init estados_alcancaveis in
  dsu ← unir_nao_marcados marked_pairs dsu state_pairs;
  '(dsu, equivalence_classes) ← agrupar dsu estados_alcancaveis;
  let min_estados_fs : gset (gset string) := map_img equivalence_classes in
  if decide (min_estados_fs = ∅) then Some [EvError ErroNenhumaClasse]
  else
    let state_to_class_fs := mapa_classes min_estados_fs in
    min_inicial_fs ← state_to_class_fs !! inicial afd;
    let min_finais_fs :=
      filter (λ fs, Exists (λ s, s ∈ finais_alcancaveis) (elements fs))
             min_estados_fs in
    min_transicoes ← construir_transicoes afd estados_alcancaveis
                        min_estados_fs state_to_class_fs;
    let minimized_afd :=
      mkAFD (alfabeto afd) min_estados_fs min_inicial_fs min_finais_fs
            min_transicoes in
    Some [EvInfo InfoConstrucaoConcluida; EvResult minimized_afd].

(** [minimizar_afd(afd_original)]: the list of the events that the
    generator yields, in order. *)
Definition minimizar_afd (afd_original : AFD string) : option (list evento) :=
  let estados_originais := estados afd_original in
  let finais_originais := finais afd_original in
  estados_alcancaveis ← _encontrar_estados_alcancaveis afd_original;
  if decide (estados_alcancaveis = ∅) then
    Some [EvInfo InfoEncontrandoAlcancaveis; EvError ErroNenhumAlcancavel]
  else if decide (inicial afd_original ∉ estados_alcancaveis) then
    Some [EvInfo InfoEncontrandoAlcancaveis;
          EvError (ErroInicialNaoAlcancavel (inicial afd_original))]
  else
    let estados_lista_ordenada := sorted_states estados_alcancaveis in
    let ev_ignorados :=
      if decide (size estados_alcancaveis < size estados_originais)
      then [EvInfo (InfoInalcancaveisIgnorados
                      (estados_originais ∖ estados_alcancaveis))]
      else [] in
    let state_pairs := combinations2 estados_lista_ordenada in
    let finais_alcancaveis := finais_originais ∩ estados_alcancaveis in
    let non_finais_alcancaveis := estados_alcancaveis ∖ finais_alcancaveis in
    let marked_pairs := marcacao_inicial finais_alcancaveis non_finais_alcancaveis in
    '(marked_pairs', _, ev_iteracao) ←
      iteracao (S (length state_pairs)) afd_original state_pairs marked_pairs 1;
    ev_construcao ← construir afd_original estados_alcancaveis state_pairs
                      marked_pairs' finais_alcancaveis;
    Some ([EvInfo InfoEncontrandoAlcancaveis;
           EvInfo (InfoTrabalhandoCom (size estados_alcancaveis)
                                      estados_lista_ordenada)]
          ++ ev_ignorados
          ++ [EvInfo InfoPassoAPasso; EvStepTable 0 marked_pairs]
          ++ ev_iteracao
          ++ [EvInfo InfoSeparador; EvInfo InfoConstruindo]
          ++ ev_construcao).

End Minimizador.

(** * Example automata *)

(** An iteration order for the frozensets: the first of [elements]. *)
Definition pick_first (X : gset string) : string := hd EmptyString (elements X).

(** The automaton of the [__main__] block of [algoritmo.py]. *)
Definition afd_exemplo : AFD string :=
  mkAFD {["a"%string; "b"%string]}
        (list_to_set ["A"; "B"; "C"; "D"; "E"; "F"]%string)
        "A"%string {["C"%string; "D"%string]}
        (list_to_map
           [("A", list_to_map [("a", "B"); ("b", "F")]);
            ("B", list_to_map [("a", "E"); ("b", "C")]);
            ("C", list_to_map [("a", "E"); ("b", "C")]);
            ("D", list_to_map [("a", "E"); ("b", "D")]);
            ("E", list_to_map [("a", "E"); ("b", "F")]);
            ("F", list_to_map [("a", "F"); ("b", "F")])]%string).

(** [afd_aviso_inalcancavel] of the [__main__] block of [validador.py]:
    [q2] is not reachable. *)
Definition afd_aviso_inalcancavel : AFD string :=
  mkAFD {["0"%string]} (list_to_set ["q0"; "q1"; "q2"]%string) "q0"%string
        {["q1"%string]}
        (list_to_map
           [("q0", list_to_map [("0", "q1")]);
            ("q1", list_to_map [("0", "q0")]);
            ("q2", list_to_map [("0", "q2")])]%string).

(** An automaton without states. *)
Definition afd_sem_estados : AFD string :=
  mkAFD {["a"%string]} ∅ "q0"%string ∅ ∅.

(** Two states and an empty alphabet: there is no transition to
    declare, [q1] is not reachable. *)
Definition afd_sem_alfabeto : AFD string :=
  mkAFD ∅ (list_to_set ["q0"; "q1"]%string) "q0"%string ∅ ∅.

(** Two states with a loop each, the initial one labelled with the
    empty string: [q1] is not reachable. *)
Definition afd_inicial_vazio : AFD string :=
  mkAFD {["a"%string]} (list_to_set [EmptyString; "q1"%string]) EmptyString ∅
        (list_to_map [(EmptyString, list_to_map [("a"%string, EmptyString)]);
                      ("q1"%string, list_to_map [("a", "q1")]%string)]).

(** The reachable states of [afd_exemplo]. *)
Definition alcancaveis_exemplo : gset string :=
  list_to_set ["A"; "B"; "C"; "E"; "F"]%string.

(** One state with a loop: a valid automaton with a single reachable
    state. *)
Definition afd_um_estado : AFD string :=
  mkAFD {["a"%string]} {["q0"%string]} "q0"%string ∅
        (list_to_map [("q0", list_to_map [("a", "q0")])]%string).

(** An incomplete automaton with five reachable states: each symbol
    [s1] .. [s6] has transitions from the two states of one pair only,
    and takes that pair to the pair of the symbol before it ([s1] to a
    pair with the accepting state); [t2], [t3] and [t4] make every
    state reachable. *)
Definition afd_cadeia : AFD string :=
  mkAFD (list_to_set ["s1"; "s2"; "s3"; "s4"; "s5"; "s6"; "t2"; "t3"; "t4"]%string)
        (list_to_set ["1"; "2"; "3"; "4"; "F"]%string)
        "1"%string {["F"%string]}
        (list_to_map
           [("1", list_to_map [("s1", "F"); ("s2", "1"); ("s3", "1");
                               ("t2", "2"); ("t3", "3"); ("t4", "4")]);
            ("2", list_to_map [("s1", "1"); ("s4", "1"); ("s5", "2")]);
            ("3", list_to_map [("s2", "2"); ("s4", "4"); ("s6", "2")]);
            ("4", list_to_map [("s3", "3"); ("s5", "3"); ("s6", "4")])]%string).

(** * Specification *)

(** The predicates in which the properties below are stated. *)

(** The language of an automaton, for either type of states: the run
    on a word follows the transitions from a state, a missing
    transition rejects, and a word is accepted when its run from the
    initial state ends in an accepting state. *)
Fixpoint run {St} `{Countable St} (a : AFD St) (q : St) (w : list string)
    : option St :=
  match w with
  | [] => Some q
  | s :: w' =>
      match get_trans (transicoes a) q s with
      | Some q' => run a q' w'
      | None => None
      end
  end.

Definition accepts_from {St} `{Countable St} (a : AFD St) (q : St)
    (w : list string) : bool :=
  match run a q w with
  | Some q' => bool_decide (q' ∈ finais a)
  | None => false
  end.

Definition accepts {St} `{Countable St} (a : AFD St) (w : list string) : bool :=
  accepts_from a (inicial a) w.

(** [x] has been expanded: its successors in [estados] are in [X]. *)
Definition expandido (afd : AFD string) (X : gset string) (x : string) : Prop :=
  ∀ s y, s ∈ alfabeto afd → get_trans (transicoes afd) x s = Some y →
         y ∈ estados afd → y ∈ X.

(** [x] is reached from the initial state by a word over the alphabet. *)
Definition alcancavel (afd : AFD string) (x : string) : Prop :=
  ∃ w, Forall (λ s, s ∈ alfabeto afd) w ∧ run afd (inicial afd) w = Some x.

(** The reachable set as a specification: it contains the initial
    state, consists of declared states that are reached by a word over
    the alphabet, and is closed under the transitions into declared
    states. *)
Definition alcancaveis_spec (afd : AFD string) (R : gset string) : Prop :=
  inicial afd ∈ R ∧ R ⊆ estados afd ∧
  (∀ x, x ∈ R → expandido afd R x) ∧ (∀ x, x ∈ R → alcancavel afd x).

(** The invariants of the data model that the consistency check
    tests: the initial state and the accepting states are states, and
    every transition goes from a state, on a symbol of the alphabet, to
    a state. *)
Definition consistente {St} `{Countable St} (afd : AFD St) : Prop :=
  inicial afd ∈ estados afd ∧
  finais afd ⊆ estados afd ∧
  ∀ origem m, transicoes afd !! origem = Some m →
    origem ∈ estados afd ∧
    ∀ simbolo destino, m !! simbolo = Some destino →
      simbolo ∈ alfabeto afd ∧ destino ∈ estados afd.

(** Every declared state has a transition on every symbol. *)
Definition completo (afd : AFD string) : Prop :=
  ∀ estado simbolo, estado ∈ estados afd → simbolo ∈ alfabeto afd →
    is_Some (get_trans (transicoes afd) estado simbolo).

Definition so_erros (l : list mensagem) : Prop :=
  Forall (λ m, is_erro m = true) l.

(** The guard of [validar_afd]: no states, no alphabet or no initial
    state. *)
Definition vazio_ou_incompleto (afd : AFD string) : Prop :=
  estados afd = ∅ ∨ alfabeto afd = ∅ ∨ inicial afd = EmptyString.

Global Instance vazio_ou_incompleto_dec afd : Decision (vazio_ou_incompleto afd).
Proof. unfold vazio_ou_incompleto. apply _. Defined.

(** The warning of the reachability check for the reachable set [R]. *)
Definition aviso_de (afd : AFD string) (R : gset string) : list mensagem :=
  if decide (estados afd ∖ R ≠ ∅)
  then [AvisoInalcancaveis (inicial afd) (estados afd ∖ R)] else [].

(** The values that [minimizar_afd] computes from the reachable set
    [R]: the candidate pairs and the marked pairs before the first
    pass. *)
Definition pares_de (R : gset string) : list (string * string) :=
  combinations2 (sorted_states R).

Definition marcados_iniciais (afd : AFD string) (R : gset string)
    : gset (gset string) :=
  marcacao_inicial (finais afd ∩ R) (R ∖ (finais afd ∩ R)).

(** [marked_pairs] after [k] passes of the loop that marked something:
    each pass adds the pairs it found. *)
Fixpoint marcados_apos (afd : AFD string) (R : gset string) (k : nat)
    : gset (gset string) :=
  match k with
  | O => marcados_iniciais afd R
  | S k' =>
      marcados_apos afd R k' ∪
      passo_marcacao afd (pares_de R) (marcados_apos afd R k')
  end.

(** What makes the symbol [s] mark the pair of [p] and [q]: both have a
    transition on [s], to two different states whose pair is marked. *)
Definition distingue (afd : AFD string) (M : gset (gset string))
    (p q s : string) : Prop :=
  ∃ p' q', get_trans (transicoes afd) p s = Some p' ∧
           get_trans (transicoes afd) q s = Some q' ∧
           p' ≠ q' ∧ par p' q' ∈ M.

(** The marked set holds only pairs of two different states of [R]. *)
Definition so_pares (R : gset string) (M : gset (gset string)) : Prop :=
  ∀ X, X ∈ M → ∃ p q, p ∈ R ∧ q ∈ R ∧ p ≠ q ∧ X = par p q.

(** One marking pass as a function on the marked set. *)
Definition apos_passo (afd : AFD string) (pairs : list (string * string))
    (M : gset (gset string)) : gset (gset string) :=
  M ∪ passo_marcacao afd pairs M.

(** The candidate pairs that are not marked. *)
Definition nao_marcados (pairs : list (string * string))
    (M : gset (gset string)) : list (string * string) :=
  filter (λ pq, par pq.1 pq.2 ∉ M) pairs.

(** The disjoint sets that a [parent] dict stands for: [r] is the root
    that [find] reaches from [x], in [n] steps. *)
Inductive raiz_n (parent : gmap string string) : nat → string → string → Prop :=
  | raiz_n_O x : parent !! x = Some x → raiz_n parent 0 x x
  | raiz_n_S n x p r :
      parent !! x = Some p → p ≠ x → raiz_n parent n p r →
      raiz_n parent (S n) x r.

Definition raiz_de (parent : gmap string string) (x r : string) : Prop :=
  ∃ n, raiz_n parent n x r.

(** Every item has a root: the dict is a forest. *)
Definition dsu_ok (parent : gmap string string) : Prop :=
  ∀ x, x ∈ dom parent → ∃ r, raiz_de parent x r.

(** Two items are in the same set. *)
Definition mesma_classe (parent : gmap string string) (x y : string) : Prop :=
  ∃ r, raiz_de parent x r ∧ raiz_de parent y r.

(** The destination that the construction gives the class [C] on the
    symbol [s]: the class of the successor of the representative, when
    that successor exists and is reachable. *)
Definition destino_min (pick : gset string → string) (afd : AFD string)
    (R : gset string) (state_to_class_fs : gmap string (gset string))
    (C : gset string) (s : string) : option (gset string) :=
  d ← get_trans (transicoes afd) (pick C) s;
  if decide (d ∈ R) then state_to_class_fs !! d else None.

(** The invariant of the grouping loop, after the items of [P]. *)
Definition agrupados (parent0 : gmap string string) (P : gset string)
    (classes : gmap string (gset string)) : Prop :=
  (∀ r X, classes !! r = Some X → ∀ y, y ∈ X ↔ y ∈ P ∧ raiz_de parent0 y r) ∧
  (∀ x r, x ∈ P → raiz_de parent0 x r → is_Some (classes !! r)) ∧
  (∀ r X, classes !! r = Some X → ∃ x, x ∈ X).

(** [C] is the partition of [R] into the sets of [parent]: its
    members are not empty, each is the set of the items joined with
    any one of its items, and they cover [R]. *)
Definition particao (parent : gmap string string) (R : gset string)
    (C : gset (gset string)) : Prop :=
  (∀ X, X ∈ C → ∃ x, x ∈ X) ∧
  (∀ X x, X ∈ C → x ∈ X → ∀ y, y ∈ X ↔ mesma_classe parent x y) ∧
  (∀ x, x ∈ R → ∃ X, X ∈ C ∧ x ∈ X).

(** What relates the automaton [a] of the result event to the input:
    [parent] is the forest that the unions of the pairs outside [M]
    leave, the states of [a] are its partition of [R], and the other
    components are read off the partition. *)
Definition minimizado (pick : gset string → string) (afd : AFD string)
    (R : gset string) (M : gset (gset string))
    (parent : gmap string string) (a : AFD (gset string)) : Prop :=
  unir_nao_marcados M (DSU_init R) (pares_de R) = Some parent ∧
  dsu_ok parent ∧ dom parent = R ∧
  alfabeto a = alfabeto afd ∧
  particao parent R (estados a) ∧
  mapa_classes (estados a) !! inicial afd = Some (inicial a) ∧
  finais a = filter (λ fs, Exists (λ s, s ∈ finais afd ∩ R) (elements fs))
                    (estados a) ∧
  (∀ C s, get_trans (transicoes a) C s
          = if decide (C ∈ estados a ∧ s ∈ alfabeto afd)
            then destino_min pick afd R (mapa_classes (estados a)) C s
            else None) ∧
  (∀ C, is_Some (transicoes a !! C) → C ∈ estados a).

(** The events of a run that ends with a result: [steps] are the
    [step_update] and [step_table] events of the [k] marking passes. *)
Definition eventos_sucesso (afd : AFD string) (R : gset string) (k : nat)
    (steps : list evento) (a : AFD (gset string)) : list evento :=
  [EvInfo InfoEncontrandoAlcancaveis;
   EvInfo (InfoTrabalhandoCom (size R) (sorted_states R))]
  ++ (if decide (size R < size (estados afd))
      then [EvInfo (InfoInalcancaveisIgnorados (estados afd ∖ R))] else [])
  ++ [EvInfo InfoPassoAPasso; EvStepTable 0 (marcados_iniciais afd R)]
  ++ (steps ++ [EvInfo (InfoNenhumaNovaMarcacao (1 + k))])
  ++ [EvInfo InfoSeparador; EvInfo InfoConstruindo]
  ++ [EvInfo InfoConstrucaoConcluida; EvResult a].

(** Two states that the table does not tell apart: the same state, or
    a pair that is not marked. *)
Definition indistintos (M : gset (gset string)) (p q : string) : Prop :=
  p = q ∨ par p q ∉ M.

Global Instance indistintos_dec M p q : Decision (indistintos M p q).
Proof. unfold indistintos. apply _. Defined.

(** A set of states whose pairs are all marked. *)
Definition separado (M : gset (gset string)) (T : gset string) : Prop :=
  ∀ x y, x ∈ T → y ∈ T → x ≠ y → par x y ∈ M.

(** The number of passes that the loop of a run made: the number that
    the event of the pass that marked nothing carries. *)
Fixpoint numero_de_passos (evs : list evento) : option nat :=
  match evs with
  | [] => None
  | EvInfo (InfoNenhumaNovaMarcacao passo) :: _ => Some passo
  | _ :: evs' => numero_de_passos evs'
  end.

(** ** Further definitions *)

(** The states that the search visits: the initial state when it is
    declared, and every declared state that a transition on a symbol of
    the alphabet reaches from a visited state. *)
Inductive alcanca (afd : AFD string) : string → Prop :=
  | alcanca_inicial : inicial afd ∈ estados afd → alcanca afd (inicial afd)
  | alcanca_passo x simbolo y :
      alcanca afd x → simbolo ∈ alfabeto afd →
      get_trans (transicoes afd) x simbolo = Some y → y ∈ estados afd →
      alcanca afd y.

(** What each error of the consistency check reports. *)
Definition violacao (afd : AFD string) (m : mensagem) : Prop :=
  match m with
  | ErroInicialForaDeEstados i E =>
      i = inicial afd ∧ E = estados afd ∧ inicial afd ∉ estados afd
  | ErroFinaisInvalidos X E =>
      X = finais afd ∖ estados afd ∧ E = estados afd ∧ X ≠ ∅
  | ErroOrigemInvalida origem =>
      is_Some (transicoes afd !! origem) ∧ origem ∉ estados afd
  | ErroSimboloInvalido simbolo origem destino =>
      get_trans (transicoes afd) origem simbolo = Some destino ∧
      simbolo ∉ alfabeto afd
  | ErroDestinoInvalido destino origem simbolo =>
      get_trans (transicoes afd) origem simbolo = Some destino ∧
      destino ∉ estados afd
  | _ => False
  end.

(** What the error of the completeness check reports. *)
Definition ausencia (afd : AFD string) (m : mensagem) : Prop :=
  match m with
  | ErroTransicaoAusente estado simbolo =>
      estado ∈ estados afd ∧ simbolo ∈ alfabeto afd ∧
      get_trans (transicoes afd) estado simbolo = None
  | _ => False
  end.

(** The [step_update] and [step_table] events of the first [k] passes
    of a run on the reachable set [R]. *)
Definition eventos_passos (afd : AFD string) (R : gset string) (k : nat)
    : list evento :=
  j ← seq 0 k;
  [EvStepUpdate (S j) (passo_marcacao afd (pares_de R) (marcados_apos afd R j));
   EvStepTable (S j) (marcados_apos afd R (S j))].

(** A dict of three items in a chain, [a] under [b] under the root
    [c]. *)
Definition dsu_cadeia : gmap string string :=
  list_to_map [("a", "b"); ("b", "c"); ("c", "c")]%string.

(** The [step_update] and [step_table] events of the first [k] passes,
    in terms of the marked sets alone: a pass reports the pairs that
    it adds. *)
Definition eventos_tabelas (afd : AFD string) (R : gset string) (k : nat)
    : list evento :=
  j ← seq 0 k;
  [EvStepUpdate (S j) (marcados_apos afd R (S j) ∖ marcados_apos afd R j);
   EvStepTable (S j) (marcados_apos afd R (S j))].

(** ** [src/minimizador/parser.py] *)

(** [s.split(sep)] for a separator of one character. *)
Fixpoint split (sep : ascii) (s : string) : list string :=
  match s with
  | EmptyString => [EmptyString]
  | String c s' =>
      if decide (c = sep) then EmptyString :: split sep s'
      else match split sep s' with
           | p :: ps => String c p :: ps
           | [] => [String c EmptyString]
           end
  end.

(** [s.split(sep, 1)]: at most one cut, at the first separator. *)
Fixpoint split1 (sep : ascii) (s : string) : list string :=
  match s with
  | EmptyString => [EmptyString]
  | String c s' =>
      if decide (c = sep) then [EmptyString; s']
      else match split1 sep s' with
           | p :: ps => String c p :: ps
           | [] => [String c EmptyString]
           end
  end.

(** What [open] and [readlines] give: [FileNotFoundError], another
    exception with its text, or the lines of the file. *)
Inductive leitura : Type :=
  | ArquivoNaoEncontrado
  | FalhaDeLeitura (e : string)
  | Linhas (linhas_raw : list string).

(** The lines that the parser prints, one constructor per message
    template, with the values that are interpolated. *)
Inductive impressao : Type :=
  | ImpErroArquivoNaoEncontrado (caminho_arquivo : string)
  | ImpErroLeitura (caminho_arquivo e : string)
  | ImpAvisoAlfabetoRedefinido (num_linha : nat)
  | ImpAvisoFormatoInvalido (num_linha : nat) (secao : string)
  | ImpAvisoInicialRedefinido (num_linha : nat)
  | ImpAvisoFinaisRedefinida (num_linha : nat)
  | ImpAvisoPartesVazias (num_linha : nat) (linha_limpa : string)
  | ImpAvisoMalFormada (num_linha : nat) (linha_limpa : string)
  | ImpAvisoForaDeSecao (num_linha : nat) (linha_limpa : string)
  | ImpErroSemAlfabeto
  | ImpErroSemInicial
  | ImpAvisoSemFinais
  | ImpAvisoSemTransicoes
  | ImpAvisoSimboloForaDoAlfabeto (simbolo origem destino : string)
                                  (alfabeto : gset string)
  | ImpAvisoTransicaoRedefinida (origem simbolo destino anterior : string)
  | ImpErroSemEstados
  | ImpErroInicialNaoPertence (inicial : string) (estados : gset string)
  | ImpErroFinaisNaoPertencem (finais_invalidos estados : gset string).

(** The printed line starts with [ERRO:]. *)
Definition is_erro_impressao (m : impressao) : bool :=
  match m with
  | ImpErroArquivoNaoEncontrado _ | ImpErroLeitura _ _ | ImpErroSemAlfabeto
  | ImpErroSemInicial | ImpErroSemEstados | ImpErroInicialNaoPertence _ _
  | ImpErroFinaisNaoPertencem _ _ => true
  | _ => false
  end.

(** The local variables of [parse_afd_arquivo] during the loop over the
    lines, and the lines printed so far. *)
Record leitor : Type := mkLeitor {
  l_alfabeto : option (gset string);
  l_estados : gset string;
  l_inicial : option string;
  l_finais : option (gset string);
  l_transicoes_temp : list (string * string * string);
  l_secao_atual : option string;
  l_num_linha : nat;
  l_saida : list impressao
}.

Definition leitor_inicial : leitor :=
  mkLeitor None ∅ None None [] None 0 [].

Section Parser.

(** [str.strip] and [str.lower] of Python. *)
Variable strip : string → string.
Variable lower : string → string.

(** [set(val.strip() for val in texto.split(',') if val.strip())]. *)
Definition valores (texto : string) : gset string :=
  list_to_set (filter (λ val, val ≠ EmptyString) (strip <$> split "," texto)).

(** The body of [for linha_raw in linhas_raw]. *)
Definition processar_linha (st : leitor) (linha_raw : string) : leitor :=
  let '(mkLeitor alfabeto estados inicial finais transicoes_temp secao_atual
                 num_linha saida) := st in
  let num_linha := S num_linha in
  let linha_limpa :=
    strip (default EmptyString (head (split1 "#" linha_raw))) in
  if decide (linha_limpa = EmptyString) then
    mkLeitor alfabeto estados inicial finais transicoes_temp secao_atual
             num_linha saida
  else
    let linha_lower := lower linha_limpa in
    if String.prefix "alfabeto:" linha_lower then
      let saida :=
        if alfabeto is Some _
        then saida ++ [ImpAvisoAlfabetoRedefinido num_linha] else saida in
      match split1 ":" linha_limpa with
      | [_; resto] =>
          mkLeitor (Some (valores resto)) estados inicial finais
                   transicoes_temp None num_linha saida
      | _ =>
          mkLeitor alfabeto estados inicial finais transicoes_temp None
                   num_linha
                   (saida ++ [ImpAvisoFormatoInvalido num_linha "alfabeto"])
      end
    else if String.prefix "estados:" linha_lower then
      match split1 ":" linha_limpa with
      | [_; resto] =>
          mkLeitor alfabeto (estados ∪ valores resto) inicial finais
                   transicoes_temp None num_linha saida
      | _ =>
          mkLeitor alfabeto estados inicial finais transicoes_temp None
                   num_linha
                   (saida ++ [ImpAvisoFormatoInvalido num_linha "estados"])
      end
    else if String.prefix "inicial:" linha_lower then
      let saida :=
        if inicial is Some _
        then saida ++ [ImpAvisoInicialRedefinido num_linha] else saida in
      match split1 ":" linha_limpa with
      | [_; resto] =>
          mkLeitor alfabeto estados (Some (strip resto)) finais
                   transicoes_temp None num_linha saida
      | _ =>
          mkLeitor alfabeto estados inicial finais transicoes_temp None
                   num_linha
                   (saida ++ [ImpAvisoFormatoInvalido num_linha "inicial"])
      end
    else if String.prefix "finais:" linha_lower then
      let saida :=
        if finais is Some _
        then saida ++ [ImpAvisoFinaisRedefinida num_linha] else saida in
      match split1 ":" linha_limpa with
      | [_; resto] =>
          mkLeitor alfabeto estados inicial (Some (valores resto))
                   transicoes_temp None num_linha saida
      | _ =>
          mkLeitor alfabeto estados inicial finais transicoes_temp None
                   num_linha
                   (saida ++ [ImpAvisoFormatoInvalido num_linha "finais"])
      end
    else if decide (linha_lower = "transicoes") then
      mkLeitor alfabeto estados inicial finais transicoes_temp
               (Some "transicoes") num_linha saida
    else if decide (secao_atual = Some "transicoes") then
      match strip <$> split "," linha_limpa with
      | [origem; destino; simbolo] =>
          if decide (origem ≠ EmptyString ∧ destino ≠ EmptyString ∧
                     simbolo ≠ EmptyString) then
            mkLeitor alfabeto ({[destino]} ∪ ({[origem]} ∪ estados)) inicial
                     finais (transicoes_temp ++ [(origem, destino, simbolo)])
                     secao_atual num_linha saida
          else
            mkLeitor alfabeto estados inicial finais transicoes_temp
                     secao_atual num_linha
                     (saida ++ [ImpAvisoPartesVazias num_linha linha_limpa])
      | _ =>
          mkLeitor alfabeto estados inicial finais transicoes_temp
                   secao_atual num_linha
                   (saida ++ [ImpAvisoMalFormada num_linha linha_limpa])
      end
    else
      mkLeitor alfabeto estados inicial finais transicoes_temp secao_atual
               num_linha
               (saida ++ [ImpAvisoForaDeSecao num_linha linha_limpa]).

(** The loop over the lines of the file. *)
Definition ler_linhas (linhas_raw : list string) : leitor :=
  foldl processar_linha leitor_inicial linhas_raw.

(** The body of [for origem, destino, simbolo in transicoes_temp]: the
    two warnings, then [transicoes_final[origem][simbolo] = destino] on
    the [defaultdict]. *)
Definition montar_transicao (alfabeto : gset string)
    (st : gmap string (gmap string string) * list impressao)
    (t : string * string * string)
    : gmap string (gmap string string) * list impressao :=
  let '(transicoes_final, saida) := st in
  let '(origem, destino, simbolo) := t in
  let saida :=
    if decide (simbolo ∉ alfabeto)
    then saida ++ [ImpAvisoSimboloForaDoAlfabeto simbolo origem destino alfabeto]
    else saida in
  let saida :=
    match get_trans transicoes_final origem simbolo with
    | Some anterior =>
        if decide (anterior ≠ destino)
        then saida ++ [ImpAvisoTransicaoRedefinida origem simbolo destino anterior]
        else saida
    | None => saida
    end in
  (<[origem := <[simbolo := destino]> (default ∅ (transicoes_final !! origem))]>
     transicoes_final,
   saida).

Definition montar_transicoes (alfabeto : gset string)
    (transicoes_temp : list (string * string * string))
    (saida : list impressao)
    : gmap string (gmap string string) * list impressao :=
  foldl (montar_transicao alfabeto) (∅, saida) transicoes_temp.

(** [parse_afd_arquivo(caminho_arquivo)]: what it returns and the lines
    it prints, given what reading the file gives.  The constructor of
    [AFD] copies the sets and stores the rest, so that the last [except]
    of the source is never entered. *)
Definition parse_afd_arquivo (caminho_arquivo : string) (arquivo : leitura)
    : option (AFD string) * list impressao :=
  match arquivo with
  | ArquivoNaoEncontrado =>
      (None, [ImpErroArquivoNaoEncontrado caminho_arquivo])
  | FalhaDeLeitura e => (None, [ImpErroLeitura caminho_arquivo e])
  | Linhas linhas_raw =>
      let st := ler_linhas linhas_raw in
      let saida := l_saida st in
      match l_alfabeto st with
      | None => (None, saida ++ [ImpErroSemAlfabeto])
      | Some alfabeto =>
          match l_inicial st with
          | None => (None, saida ++ [ImpErroSemInicial])
          | Some inicial =>
              let '(finais, saida) :=
                match l_finais st with
                | None => (∅, saida ++ [ImpAvisoSemFinais])
                | Some finais => (finais, saida)
                end in
              let saida :=
                if decide (l_transicoes_temp st = [] ∧
                           l_secao_atual st ≠ Some "transicoes")
                then saida ++ [ImpAvisoSemTransicoes] else saida in
              let '(transicoes_final, saida) :=
                montar_transicoes alfabeto (l_transicoes_temp st) saida in
              let estados := l_estados st in
              if decide (estados = ∅) then
                (None, saida ++ [ImpErroSemEstados])
              else if decide (inicial ∉ estados) then
                (None, saida ++ [ImpErroInicialNaoPertence inicial estados])
              else
                let finais_invalidos := finais ∖ estados in
                if decide (finais_invalidos ≠ ∅) then
                  (None,
                   saida ++ [ImpErroFinaisNaoPertencem finais_invalidos estados])
                else
                  (Some (mkAFD alfabeto estados inicial finais transicoes_final),
                   saida)
          end
      end
  end.

End Parser.

(** [str.strip] and [str.lower] on text of the ASCII range, for the
    examples. *)
Fixpoint lstrip_ascii (s : string) : string :=
  match s with
  | String c s' => if Ascii.is_space c then lstrip_ascii s' else s
  | EmptyString => EmptyString
  end.

Definition strip_ascii (s : string) : string :=
  String.rev (lstrip_ascii (String.rev (lstrip_ascii s))).

Definition lower_char (c : ascii) : ascii :=
  let n := nat_of_ascii c in
  if decide (65 ≤ n ∧ n ≤ 90) then ascii_of_nat (n + 32) else c.

Fixpoint lower_ascii (s : string) : string :=
  match s with
  | String c s' => String (lower_char c) (lower_ascii s')
  | EmptyString => EmptyString
  end.

(** A file in the format of the parser, with a comment, a blank line
    and a transition that is given twice. *)
Definition arquivo_exemplo : leitura :=
  Linhas ["# exemplo";
          "alfabeto: a, b";
          "estados: q0, q1";
          "inicial: q0";
          "Finais: q1   # um final";
          "";
          "transicoes";
          "q0, q1, a";
          "q0, q0, b";
          "q1, q1, a";
          "q1, q0, b";
          "q0, q0, a"]%string.

(** The label holds no comma. *)
Definition sem_virgula (s : string) : Prop :=
  ","%char ∉ String.list_ascii_of_string s.

(** The transitions that the lines of a file declare, in the order of
    the lines. *)
Definition transicoes_lidas (strip lower : string → string)
    (linhas_raw : list string) : list (string * string * string) :=
  l_transicoes_temp (ler_linhas strip lower linhas_raw).

(** What the loop over the lines keeps: no label is empty, the states
    of the transitions read so far are states, and no error was
    printed. *)
Definition leitor_ok (st : leitor) : Prop :=
  (EmptyString ∉ l_estados st) ∧
  (∀ A, l_alfabeto st = Some A → EmptyString ∉ A) ∧
  (∀ F, l_finais st = Some F → EmptyString ∉ F) ∧
  (∀ o d s, (o, d, s) ∈ l_transicoes_temp st →
            o ∈ l_estados st ∧ d ∈ l_estados st ∧ s ≠ EmptyString) ∧
  Forall (λ m, is_erro_impressao m = false) (l_saida st).

(** What the loop over the lines keeps for the commas: no state and no
    symbol read so far holds one. *)
Definition leitor_sem_virgula (st : leitor) : Prop :=
  (∀ q, q ∈ l_estados st → sem_virgula q) ∧
  (∀ A s, l_alfabeto st = Some A → s ∈ A → sem_virgula s).

(** The last transition of a list for an origin and a symbol. *)
Definition ultima_transicao (temp : list (string * string * string))
    (o s : string) : option string :=
  (λ t, t.1.2) <$> last (filter (λ t, t.1.1 = o ∧ t.2 = s) temp).

(** ** [src/visualizador/diagrama.py] *)

(** A state as [format_state] meets it: the label of a state of the
    automaton that was read, or a [frozenset] of labels, a state of the
    minimized automaton. *)
Inductive estado_diagrama : Type :=
  | Rotulo (state : string)
  | Classe (state : gset string).

(** [format_state(state)], the name of the node of a state in the
    diagram. *)
Definition format_state (state : estado_diagrama) : string :=
  match state with
  | Classe state => String.concat "," (sorted_states state)
  | Rotulo state => state
  end.

(** ** [src/minimizador/helpers.py]: the two formatters *)

(** The order of Python on tuples of strings, which [sorted] uses on
    the list of tuples: the first components that differ decide, and a
    prefix comes first. *)
Fixpoint tuple_le (a b : list string) : Prop :=
  match a, b with
  | [], _ => True
  | _ :: _, [] => False
  | x :: a', y :: b' => if decide (x = y) then tuple_le a' b' else String.le x y
  end.

#[global] Instance tuple_le_dec : RelDecision tuple_le.
Proof.
  intros a. induction a as [|x a IH]; intros [|y b]; simpl.
  - left. exact I.
  - left. exact I.
  - right. exact (λ H, H).
  - destruct (decide (x = y)); [apply IH|apply _].
Defined.

(** [sorted([tuple(sorted(list(p))) for p in pairs])]. *)
Definition tuplas_ordenadas (pairs : gset (gset string)) : list (list string) :=
  merge_sort tuple_le (sorted_states <$> elements pairs).

(** The newline of [chr(10)]. *)
Definition nova_linha : string := String "010" EmptyString.

(** [_formatar_tabela_marcacao(estados, marked_pairs, passo_num)];
    [None] is the [IndexError] of [p[0]] and [p[1]]. *)
Definition _formatar_tabela_marcacao (estados : list string)
    (marked_pairs : gset (gset string)) (passo_num : nat) : option string :=
  let output :=
    [if decide (passo_num = 0)
     then "Passo 0: Marcação inicial (Final vs Não-Final)"
     else "Estado da Tabela após Passo " +:+ pretty passo_num +:+ ":"] in
  let marked_list := tuplas_ordenadas marked_pairs in
  let output := output ++ [" Pares Marcados (Distinguíveis):"] in
  output ←
    (if decide (marked_list = []) then Some (output ++ ["  Nenhum"])
     else
       pairs ← mapM (λ p, p0 ← p !! 0; p1 ← p !! 1;
                          Some ("{" +:+ p0 +:+ "," +:+ p1 +:+ "}"))
                    marked_list;
       Some (output ++ ["  " +:+ String.concat ", " pairs]));
  Some (String.concat nova_linha output).

(** [_formatar_novos_marcados(passo_num, newly_marked)]. *)
Definition _formatar_novos_marcados (passo_num : nat)
    (newly_marked : gset (gset string)) : option string :=
  let output :=
    [nova_linha +:+ "Passo " +:+ pretty passo_num
       +:+ ": Novos pares marcados como distinguíveis"] in
  output ←
    (if decide (newly_marked = ∅) then Some (output ++ ["  Nenhum"])
     else
       linhas ← mapM (λ p_tuple, p0 ← p_tuple !! 0; p1 ← p_tuple !! 1;
                                 Some ("  - {" +:+ p0 +:+ "," +:+ p1 +:+ "}"))
                     (tuplas_ordenadas newly_marked);
       Some (output ++ linhas));
  Some (String.concat nova_linha output).

(** The candidate pairs of [R] that are in [M], as tuples, in the order
    of the candidate pairs. *)
Definition pares_marcados (R : gset string) (M : gset (gset string))
    : list (list string) :=
  (λ pq, [pq.1; pq.2]) <$> filter (λ pq, par pq.1 pq.2 ∈ M) (pares_de R).

(** * Verification *)

(** ** Generic facts *)

(** Closed decidable facts about concrete automata, by evaluation. *)
Ltac refuta :=
  lazymatch goal with
  | |- ¬ ?P => apply (bool_decide_eq_false_1 P); vm_compute; reflexivity
  | |- ?x ∉ ?X => apply (bool_decide_eq_false_1 (x ∈ X)); vm_compute; reflexivity
  | |- ?x ≠ ?y => apply (bool_decide_eq_false_1 (x = y)); vm_compute; reflexivity
  end.
Ltac calcula :=
  lazymatch goal with
  | |- ?P => apply (bool_decide_eq_true_1 P); vm_compute; reflexivity
  end.

(** ** The breadth-first search *)

Section Alcancaveis.

Variable afd : AFD string.

Lemma run_app {St} `{Countable St} (a : AFD St) q w1 w2 :
  run a q (w1 ++ w2) = (q' ← run a q w1; run a q' w2).
Proof.
  revert q. induction w1 as [|s w1 IH]; intros q; simpl; [done|].
  destruct (get_trans (transicoes a) q s); simpl; [apply IH|done].
Qed.

Lemma alcancavel_step x s y :
  alcancavel afd x → s ∈ alfabeto afd →
  get_trans (transicoes afd) x s = Some y → alcancavel afd y.
Proof.
  intros (w & Hw & Hrun) Hs Hy. exists (w ++ [s]). split.
  - apply Forall_app. split; [done|]. by constructor.
  - rewrite run_app, Hrun. simpl. by rewrite Hy.
Qed.

Lemma bfs_visit_fold x simbolos alc fila :
  ∃ novos,
    foldl (bfs_visit afd x) (alc, fila) simbolos
      = (list_to_set novos ∪ alc, fila ++ novos) ∧
    NoDup novos ∧
    (∀ y, y ∈ novos → (y ∉ alc) ∧ y ∈ estados afd ∧
          ∃ s, s ∈ simbolos ∧ get_trans (transicoes afd) x s = Some y) ∧
    (∀ s y, s ∈ simbolos → get_trans (transicoes afd) x s = Some y →
            y ∈ estados afd → y ∈ list_to_set novos ∪ alc).
Proof.
  revert alc fila. induction simbolos as [|s simbolos IH]; intros alc fila.
  { exists []. simpl. split_and!.
    - f_equal; [set_solver|by rewrite app_nil_r].
    - constructor.
    - intros y Hy. by apply elem_of_nil in Hy.
    - intros s y Hs. by apply elem_of_nil in Hs. }
  cbn [foldl]. unfold bfs_visit at 2.
  destruct (get_trans (transicoes afd) x s) as [y|] eqn:Hy;
    [destruct (decide (y ∉ alc)) as [Hnotin|Hin];
     [destruct (decide (y ∈ estados afd)) as [Hest|Hnest]|]|].
  - destruct (IH ({[y]} ∪ alc) (fila ++ [y]))
      as (novos & Heq & Hnd & Hnovos & Hcl).
    exists (y :: novos). split_and!.
    + rewrite Heq. f_equal; [set_solver|]. by rewrite <- app_assoc.
    + constructor; [|done]. intros Hyn. apply Hnovos in Hyn. set_solver.
    + intros z Hz. apply elem_of_cons in Hz as [->|Hz].
      * split_and!; [done|done|]. exists s. split; [by left|done].
      * destruct (Hnovos z Hz) as (? & ? & s' & ? & ?).
        split_and!; [set_solver|done|]. exists s'. split; [by right|done].
    + intros s' z Hs' Hz Hzest. apply elem_of_cons in Hs' as [->|Hs'].
      * assert (z = y) as -> by congruence. set_solver.
      * specialize (Hcl s' z Hs' Hz Hzest). set_solver.
  - destruct (IH alc fila) as (novos & Heq & Hnd & Hnovos & Hcl).
    exists novos. split_and!; [done|done| |].
    + intros z Hz. destruct (Hnovos z Hz) as (? & ? & s' & ? & ?).
      split_and!; [done|done|]. exists s'. split; [by right|done].
    + intros s' z Hs' Hz Hzest. apply elem_of_cons in Hs' as [->|Hs'].
      * assert (z = y) as -> by congruence. done.
      * eauto.
  - assert (y ∈ alc) by (by destruct (decide (y ∈ alc))).
    destruct (IH alc fila) as (novos & Heq & Hnd & Hnovos & Hcl).
    exists novos. split_and!; [done|done| |].
    + intros z Hz. destruct (Hnovos z Hz) as (? & ? & s' & ? & ?).
      split_and!; [done|done|]. exists s'. split; [by right|done].
    + intros s' z Hs' Hz Hzest. apply elem_of_cons in Hs' as [->|Hs'].
      * assert (z = y) as -> by congruence. set_solver.
      * eauto.
  - destruct (IH alc fila) as (novos & Heq & Hnd & Hnovos & Hcl).
    exists novos. split_and!; [done|done| |].
    + intros z Hz. destruct (Hnovos z Hz) as (? & ? & s' & ? & ?).
      split_and!; [done|done|]. exists s'. split; [by right|done].
    + intros s' z Hs' Hz Hzest. apply elem_of_cons in Hs' as [->|Hs'].
      * congruence.
      * eauto.
Qed.

Lemma get_trans_dom x s y :
  get_trans (transicoes afd) x s = Some y → x ∈ dom (transicoes afd).
Proof.
  unfold get_trans. intros Hy. apply elem_of_dom.
  destruct (transicoes afd !! x); [eauto|]. simpl in Hy.
  by rewrite lookup_empty in Hy.
Qed.

Lemma expandido_mono X Y x : X ⊆ Y → expandido afd X x → expandido afd Y x.
Proof. intros HXY Hx s y Hs Hy Hest. apply HXY. eauto. Qed.

(** The loop of the search, from any state that it can be in: with
    fuel for the states that are still to be found it ends, and the set
    it returns is closed under the transitions. *)
Lemma bfs_loop_spec fuel alc fila :
  NoDup fila →
  (∀ x, x ∈ fila → x ∈ alc) →
  alc ⊆ estados afd →
  size (estados afd) + length fila ≤ fuel + size alc →
  (∀ x, x ∈ alc → x ∉ fila → expandido afd alc x) →
  (∀ x, x ∈ alc → alcancavel afd x) →
  ∃ R, bfs_loop fuel afd alc fila = Some R ∧ alc ⊆ R ∧ R ⊆ estados afd ∧
       (∀ x, x ∈ R → expandido afd R x) ∧ (∀ x, x ∈ R → alcancavel afd x).
Proof.
  revert alc fila. induction fuel as [|fuel IH]; intros alc fila Hnd Hfila Hsub
    Hsize Hexp Hreach.
  - destruct fila as [|x fila].
    + exists alc. simpl. split_and!; [done|done|done| |done].
      intros x Hx. apply Hexp; [done|]. apply not_elem_of_nil.
    + apply subseteq_size in Hsub. simpl in Hsize. lia.
  - destruct fila as [|x fila].
    { exists alc. simpl. split_and!; [done|done|done| |done].
      intros x Hx. apply Hexp; [done|]. apply not_elem_of_nil. }
    apply NoDup_cons in Hnd as [Hxfila Hnd].
    assert (x ∈ alc) as Hxalc by (apply Hfila; left).
    cbn [bfs_loop].
    destruct (decide (x ∈ dom (transicoes afd))) as [Hdom|Hdom].
    + destruct (bfs_visit_fold x (elements (alfabeto afd)) alc fila)
        as (novos & -> & Hndn & Hnovos & Hcl).
      destruct (IH (list_to_set novos ∪ alc) (fila ++ novos))
        as (R & HR & HsubR & HRest & HRexp & HRreach).
      * apply NoDup_app. split_and!; [done| |done].
        intros y Hy Hyn. apply Hnovos in Hyn as [Hyn _]. apply Hyn, Hfila.
        by right.
      * intros y [Hy|Hy]%elem_of_app.
        -- apply elem_of_union_r, Hfila. by right.
        -- apply elem_of_union_l. by apply elem_of_list_to_set.
      * intros y [Hy|Hy]%elem_of_union; [|by apply Hsub].
        apply elem_of_list_to_set in Hy. by apply Hnovos in Hy as (_ & ? & _).
      * rewrite size_union.
        2:{ intros y Hy Hyalc. apply elem_of_list_to_set in Hy.
            by apply Hnovos in Hy as [? _]. }
        rewrite size_list_to_set by done. rewrite length_app.
        simpl in Hsize. lia.
      * intros y Hy Hyfila.
        assert (y ∉ novos) as Hyn.
        { intros ?. apply Hyfila, elem_of_app. by right. }
        assert (y ∉ fila) as Hyf.
        { intros ?. apply Hyfila, elem_of_app. by left. }
        apply elem_of_union in Hy as [Hy|Hy];
          [by apply elem_of_list_to_set in Hy|].
        destruct (decide (y = x)) as [->|Hne].
        -- intros s z Hs Hz Hzest. apply (Hcl s z); [|done|done].
           by apply elem_of_elements.
        -- apply (expandido_mono alc); [set_solver|].
           apply Hexp; [done|]. by intros [?|?]%elem_of_cons.
      * intros y [Hy|Hy]%elem_of_union; [|by apply Hreach].
        apply elem_of_list_to_set in Hy.
        apply Hnovos in Hy as (_ & _ & s & Hs & Hy).
        apply (alcancavel_step x s); [by apply Hreach| |done].
        by apply elem_of_elements in Hs.
      * exists R. split_and!; [done|set_solver|done|done|done].
    + destruct (IH alc fila) as (R & HR & HsubR & HRest & HRexp & HRreach).
      * done.
      * intros y Hy. apply Hfila. by right.
      * done.
      * simpl in Hsize. lia.
      * intros y Hy Hyfila. destruct (decide (y = x)) as [->|Hne].
        -- intros s z Hs Hz. by apply get_trans_dom in Hz.
        -- apply Hexp; [done|]. by intros [?|?]%elem_of_cons.
      * done.
      * exists R. by split_and!.
Qed.

Lemma bfs_inicial_spec :
  inicial afd ∈ estados afd →
  ∃ R, bfs_loop (size (estados afd)) afd {[inicial afd]} [inicial afd] = Some R
       ∧ alcancaveis_spec afd R.
Proof.
  intros Hini.
  destruct (bfs_loop_spec (size (estados afd)) {[inicial afd]} [inicial afd])
    as (R & HR & Hsub & HRest & HRexp & HRreach).
  - apply NoDup_singleton.
  - intros x Hx. apply list_elem_of_singleton in Hx. set_solver.
  - set_solver.
  - rewrite size_singleton. simpl. lia.
  - intros x Hx Hnx. apply elem_of_singleton in Hx as ->.
    exfalso. apply Hnx. by left.
  - intros x Hx. apply elem_of_singleton in Hx as ->. exists []. by split.
  - exists R. split; [done|]. split_and!; [set_solver|done|done|done].
Qed.

(** [_encontrar_estados_alcancaveis] always returns. *)
Lemma _encontrar_estados_alcancaveis_total :
  ∃ R, _encontrar_estados_alcancaveis afd = Some R ∧
       (R = ∅ ∧ (estados afd = ∅ ∨ inicial afd ∉ estados afd) ∨
        inicial afd ∈ estados afd ∧ alcancaveis_spec afd R).
Proof.
  unfold _encontrar_estados_alcancaveis.
  destruct (decide (estados afd = ∅ ∨ inicial afd ∉ estados afd)) as [He|He].
  - exists ∅. split; [done|]. by left.
  - assert (inicial afd ∈ estados afd) as Hini.
    { destruct (decide (inicial afd ∈ estados afd)); [done|].
      exfalso. apply He. by right. }
    destruct (bfs_inicial_spec Hini) as (R & HR & Hspec).
    exists R. split; [done|]. by right.
Qed.

End Alcancaveis.

(** ** The validator *)

Section Validador.

Variable afd : AFD string.

Lemma consistencia_destino_spec origem l mensagens erros :
  ∃ novas,
    foldl (consistencia_destino afd origem) (mensagens, erros) l
      = (mensagens ++ novas, erros + length novas) ∧
    so_erros novas ∧
    (novas = [] ↔
     ∀ simbolo destino, (simbolo, destino) ∈ l →
       simbolo ∈ alfabeto afd ∧ destino ∈ estados afd).
Proof.
  revert mensagens erros.
  induction l as [|[simbolo destino] l IH]; intros mensagens erros.
  { exists []. simpl. rewrite app_nil_r, Nat.add_0_r. split_and!; [done|constructor|].
    split; [|done]. intros _ s d Hsd. by apply elem_of_nil in Hsd. }
  cbn [foldl]. unfold consistencia_destino at 2.
  destruct (decide (simbolo ∉ alfabeto afd)) as [Hs|Hs];
    destruct (decide (destino ∉ estados afd)) as [Hd|Hd].
  - destruct (IH ((mensagens ++ [ErroSimboloInvalido simbolo origem destino])
                    ++ [ErroDestinoInvalido destino origem simbolo])
                 (S (S erros))) as (novas & -> & Herr & Hiff).
    exists (ErroSimboloInvalido simbolo origem destino
            :: ErroDestinoInvalido destino origem simbolo :: novas).
    split_and!.
    + f_equal; [by rewrite <- !app_assoc|simpl; lia].
    + by repeat constructor.
    + split; [done|]. intros Hall. destruct (Hall simbolo destino); [left|done].
  - destruct (IH (mensagens ++ [ErroSimboloInvalido simbolo origem destino])
                 (S erros)) as (novas & -> & Herr & Hiff).
    exists (ErroSimboloInvalido simbolo origem destino :: novas). split_and!.
    + f_equal; [by rewrite <- !app_assoc|simpl; lia].
    + by repeat constructor.
    + split; [done|]. intros Hall. destruct (Hall simbolo destino); [left|done].
  - destruct (IH (mensagens ++ [ErroDestinoInvalido destino origem simbolo])
                 (S erros)) as (novas & -> & Herr & Hiff).
    exists (ErroDestinoInvalido destino origem simbolo :: novas). split_and!.
    + f_equal; [by rewrite <- !app_assoc|simpl; lia].
    + by repeat constructor.
    + split; [done|]. intros Hall. destruct (Hall simbolo destino); [left|done].
  - destruct (IH mensagens erros) as (novas & -> & Herr & Hiff).
    exists novas. split_and!; [done|done|].
    assert (simbolo ∈ alfabeto afd) by (by destruct (decide (simbolo ∈ alfabeto afd))).
    assert (destino ∈ estados afd) by (by destruct (decide (destino ∈ estados afd))).
    rewrite Hiff. split.
    + intros Hall s d [Heq|Hsd]%elem_of_cons; [by simplify_eq|by apply Hall].
    + intros Hall s d Hsd. apply Hall. by right.
Qed.

Lemma consistencia_origem_spec l mensagens erros :
  ∃ novas,
    foldl (consistencia_origem afd) (mensagens, erros) l
      = (mensagens ++ novas, erros + length novas) ∧
    so_erros novas ∧
    (novas = [] ↔
     ∀ origem m, (origem, m) ∈ l →
       origem ∈ estados afd ∧
       ∀ simbolo destino, m !! simbolo = Some destino →
         simbolo ∈ alfabeto afd ∧ destino ∈ estados afd).
Proof.
  revert mensagens erros.
  induction l as [|[origem m] l IH]; intros mensagens erros.
  { exists []. simpl. rewrite app_nil_r, Nat.add_0_r. split_and!; [done|constructor|].
    split; [|done]. intros _ o m Hom. by apply elem_of_nil in Hom. }
  cbn [foldl]. unfold consistencia_origem at 2.
  destruct (decide (origem ∉ estados afd)) as [Ho|Ho].
  - destruct (consistencia_destino_spec origem (map_to_list m)
                (mensagens ++ [ErroOrigemInvalida origem]) (S erros))
      as (novas1 & -> & Herr1 & _).
    destruct (IH ((mensagens ++ [ErroOrigemInvalida origem]) ++ novas1)
                 (S erros + length novas1)) as (novas2 & -> & Herr2 & _).
    exists (ErroOrigemInvalida origem :: novas1 ++ novas2). split_and!.
    + f_equal; [by rewrite <- !app_assoc|simpl; rewrite length_app; lia].
    + constructor; [done|]. by apply Forall_app.
    + split; [done|]. intros Hall. destruct (Hall origem m); [left|done].
  - assert (origem ∈ estados afd) by (by destruct (decide (origem ∈ estados afd))).
    destruct (consistencia_destino_spec origem (map_to_list m) mensagens erros)
      as (novas1 & -> & Herr1 & Hiff1).
    destruct (IH (mensagens ++ novas1) (erros + length novas1))
      as (novas2 & -> & Herr2 & Hiff2).
    exists (novas1 ++ novas2). split_and!.
    + f_equal; [by rewrite <- !app_assoc|rewrite length_app; lia].
    + by apply Forall_app.
    + split.
      * intros [Hn1 Hn2]%app_eq_nil o m' [Heq|Hom]%elem_of_cons.
        -- simplify_eq. split; [done|]. intros s d Hsd.
           apply Hiff1; [done|]. by apply elem_of_map_to_list.
        -- apply Hiff2; done.
      * intros Hall.
        assert (novas1 = []) as ->.
        { apply Hiff1. intros s d Hsd%elem_of_map_to_list.
          destruct (Hall origem m) as [_ Hm]; [left|]. by apply Hm. }
        apply Hiff2. intros o m' Hom. apply Hall. by right.
Qed.

(** The consistency check appends only errors, and none exactly when
    the automaton is consistent; that is also when it answers [True]. *)
Lemma _verificar_consistencia_spec mensagens :
  ∃ novas,
    _verificar_consistencia afd mensagens
      = (bool_decide (novas = []), mensagens ++ novas) ∧
    so_erros novas ∧ (novas = [] ↔ consistente afd).
Proof.
  unfold _verificar_consistencia.
  set (m1 := if decide (inicial afd ∉ estados afd)
             then [ErroInicialForaDeEstados (inicial afd) (estados afd)] else []).
  set (m2 := if decide (finais afd ∖ estados afd ≠ ∅)
             then [ErroFinaisInvalidos (finais afd ∖ estados afd) (estados afd)]
             else []).
  destruct (consistencia_origem_spec (map_to_list (transicoes afd))
              (mensagens ++ m1 ++ m2) (length (m1 ++ m2)))
    as (m3 & Hfold & Herr3 & Hiff3).
  exists (m1 ++ m2 ++ m3). split_and!.
  - subst m1 m2.
    destruct (decide (inicial afd ∉ estados afd));
      destruct (decide (finais afd ∖ estados afd ≠ ∅)); simpl in *;
      rewrite <- ?app_assoc in *; simpl in *; rewrite ?app_nil_r in *.
      all: try rewrite Hfold. all: f_equal. all: try done.
      all: rewrite <- ?app_assoc. all: try done.
      by destruct m3.
  - subst m1 m2. apply Forall_app. split; [|apply Forall_app; split; [|done]].
    + destruct (decide (inicial afd ∉ estados afd));
        [by apply Forall_singleton|apply Forall_nil_2].
    + destruct (decide (finais afd ∖ estados afd ≠ ∅));
        [by apply Forall_singleton|apply Forall_nil_2].
  - split.
    + intros (Hm1 & (Hm2 & Hm3)%app_eq_nil)%app_eq_nil. subst m1 m2.
      destruct (decide (inicial afd ∉ estados afd)); [done|].
      destruct (decide (finais afd ∖ estados afd ≠ ∅)) as [|Hf]; [done|].
      split_and!.
      * by destruct (decide (inicial afd ∈ estados afd)).
      * intros x Hx. destruct (decide (x ∈ estados afd)); [done|].
        exfalso. apply Hf. set_solver.
      * intros o m Hom. apply Hiff3; [done|]. by apply elem_of_map_to_list.
    + intros (Hini & Hfin & Htr). subst m1 m2.
      rewrite decide_False by (intros Hn; by apply Hn).
      rewrite decide_False by (intros Hn; apply Hn; set_solver).
      simpl. apply Hiff3. intros o m Hom%elem_of_map_to_list. by apply Htr.
Qed.

Lemma transicao_ausente_iff estado simbolo :
  transicoes afd !! estado = None ∨
    default ∅ (transicoes afd !! estado) !! simbolo = None
  ↔ get_trans (transicoes afd) estado simbolo = None.
Proof.
  unfold get_trans. split; [|by right].
  intros [->|?]; [|done]. simpl. apply lookup_empty.
Qed.

Lemma determinismo_simbolo_spec estado l mensagens ok :
  ∃ novas,
    foldl (determinismo_simbolo afd estado) (mensagens, ok) l
      = (mensagens ++ novas, ok && bool_decide (novas = [])) ∧
    so_erros novas ∧
    (novas = [] ↔
     ∀ simbolo, simbolo ∈ l →
       is_Some (get_trans (transicoes afd) estado simbolo)).
Proof.
  revert mensagens ok. induction l as [|simbolo l IH]; intros mensagens ok.
  { exists []. simpl. rewrite app_nil_r, andb_true_r.
    split_and!; [done|constructor|]. split; [|done].
    intros _ s Hs. by apply elem_of_nil in Hs. }
  cbn [foldl]. unfold determinismo_simbolo at 2.
  destruct (decide (transicoes afd !! estado = None ∨
                    default ∅ (transicoes afd !! estado) !! simbolo = None))
    as [Hau|Hau]; rewrite transicao_ausente_iff in Hau.
  - destruct (IH (mensagens ++ [ErroTransicaoAusente estado simbolo]) false)
      as (novas & -> & Herr & _).
    exists (ErroTransicaoAusente estado simbolo :: novas). split_and!.
    + f_equal; [by rewrite <- app_assoc|]. simpl. by rewrite andb_false_r.
    + by constructor.
    + split; [done|]. intros Hall. destruct (Hall simbolo) as [y Hy]; [left|].
      congruence.
  - destruct (IH mensagens ok) as (novas & -> & Herr & Hiff).
    exists novas. split_and!; [done|done|]. rewrite Hiff. split.
    + intros Hall s [->|Hs]%elem_of_cons; [|by apply Hall].
      by apply not_eq_None_Some.
    + intros Hall s Hs. apply Hall. by right.
Qed.

Lemma determinismo_estados_spec l mensagens ok :
  ∃ novas,
    foldl (λ st estado,
             foldl (determinismo_simbolo afd estado) st (elements (alfabeto afd)))
          (mensagens, ok) l
      = (mensagens ++ novas, ok && bool_decide (novas = [])) ∧
    so_erros novas ∧
    (novas = [] ↔
     ∀ estado simbolo, estado ∈ l → simbolo ∈ alfabeto afd →
       is_Some (get_trans (transicoes afd) estado simbolo)).
Proof.
  revert mensagens ok. induction l as [|estado l IH]; intros mensagens ok.
  { exists []. simpl. rewrite app_nil_r, andb_true_r.
    split_and!; [done|constructor|]. split; [|done].
    intros _ e s He. by apply elem_of_nil in He. }
  cbn [foldl].
  destruct (determinismo_simbolo_spec estado (elements (alfabeto afd)) mensagens ok)
    as (novas1 & -> & Herr1 & Hiff1).
  destruct (IH (mensagens ++ novas1) (ok && bool_decide (novas1 = [])))
    as (novas2 & -> & Herr2 & Hiff2).
  exists (novas1 ++ novas2). split_and!.
  - f_equal; [by rewrite <- app_assoc|].
    rewrite <- andb_assoc. f_equal.
    destruct novas1, novas2; done.
  - by apply Forall_app.
  - split.
    + intros [-> ->]%app_eq_nil e s [->|He]%elem_of_cons Hs.
      * apply Hiff1; [done|]. by apply elem_of_elements.
      * by apply Hiff2.
    + intros Hall. assert (novas1 = []) as ->.
      { apply Hiff1. intros s Hs%elem_of_elements. apply Hall; [left|done]. }
      apply Hiff2. intros e s He. apply Hall. by right.
Qed.

(** The completeness check appends only errors, and none exactly when
    the automaton is complete; that is also when it answers [True]. *)
Lemma _verificar_determinismo_spec mensagens :
  ∃ novas,
    _verificar_determinismo afd mensagens
      = (bool_decide (novas = []), mensagens ++ novas) ∧
    so_erros novas ∧ (novas = [] ↔ completo afd).
Proof.
  unfold _verificar_determinismo.
  destruct (determinismo_estados_spec (elements (estados afd)) mensagens true)
    as (novas & -> & Herr & Hiff).
  exists novas. split_and!; [done|done|]. rewrite Hiff. unfold completo. split.
  - intros Hall e s He Hs. apply Hall; [by apply elem_of_elements|done].
  - intros Hall e s He%elem_of_elements Hs. by apply Hall.
Qed.

(** The reachability check always returns; it appends at most the
    warning, and appends it exactly when a declared state is not in
    the set it returns. *)
Lemma _verificar_alcancabilidade_spec mensagens :
  inicial afd ∈ estados afd →
  ∃ R, alcancaveis_spec afd R ∧
       _verificar_alcancabilidade afd mensagens
         = Some (R, mensagens ++
                    if decide (estados afd ∖ R ≠ ∅)
                    then [AvisoInalcancaveis (inicial afd) (estados afd ∖ R)]
                    else []).
Proof.
  intros Hini. unfold _verificar_alcancabilidade.
  rewrite decide_False by set_solver.
  rewrite decide_False by (intros Hn; by apply Hn).
  destruct (bfs_inicial_spec afd Hini) as (R & -> & Hspec).
  exists R. split; [done|]. simpl.
  destruct (decide (estados afd ∖ R ≠ ∅)); [done|]. by rewrite app_nil_r.
Qed.

(** What [validar_afd] returns when the guard lets the automaton pass:
    the errors of the two checks, then the warning. *)
Lemma validar_afd_passa :
  ¬ vazio_ou_incompleto afd →
  ∃ c d,
    so_erros c ∧ so_erros d ∧ (c = [] ↔ consistente afd) ∧ (d = [] ↔ completo afd) ∧
    (inicial afd ∈ estados afd ∧
       (∃ R, alcancaveis_spec afd R ∧
             validar_afd afd
               = Some (bool_decide (c = []) && bool_decide (d = []),
                       c ++ d ++ aviso_de afd R, Some R))
     ∨ (inicial afd ∉ estados afd) ∧
       validar_afd afd
         = Some (bool_decide (c = []) && bool_decide (d = []), c ++ d, None)).
Proof.
  intros Hg. unfold validar_afd.
  rewrite decide_False by done.
  destruct (_verificar_consistencia_spec []) as (c & -> & Hc & Hciff).
  destruct (_verificar_determinismo_spec ([] ++ c)) as (d & -> & Hd & Hdiff).
  exists c, d. do 4 (split; [done|]).
  destruct (decide (inicial afd ∈ estados afd)) as [Hini|Hini]; [left|right].
  - split; [done|].
    destruct (_verificar_alcancabilidade_spec (([] ++ c) ++ d) Hini)
      as (R & HR & ->).
    exists R. split; [done|]. simpl.
    rewrite decide_False.
    2:{ intros [HRe _]. destruct HR as [HiniR _]. set_solver. }
    rewrite <- app_assoc. unfold aviso_de.
    by destruct (bool_decide (c = [])), (bool_decide (d = [])).
  - split; [done|]. simpl.
    by destruct (bool_decide (c = [])), (bool_decide (d = [])).
Qed.

(** The check functions decide the two predicates. *)
Lemma consistente_check :
  (_verificar_consistencia afd []).1 = true ↔ consistente afd.
Proof.
  destruct (_verificar_consistencia_spec []) as (c & -> & _ & Hiff). simpl.
  by rewrite bool_decide_eq_true.
Qed.

Lemma completo_check :
  (_verificar_determinismo afd []).1 = true ↔ completo afd.
Proof.
  destruct (_verificar_determinismo_spec []) as (d & -> & _ & Hiff). simpl.
  by rewrite bool_decide_eq_true.
Qed.

(** A valid automaton passed the guard and both checks. *)
Lemma validar_afd_valido mensagens r :
  validar_afd afd = Some (true, mensagens, r) →
  ¬ vazio_ou_incompleto afd ∧ consistente afd ∧ completo afd.
Proof.
  intros Hv. destruct (decide (vazio_ou_incompleto afd)) as [Hg|Hg].
  { unfold validar_afd in Hv. by rewrite decide_True in Hv by done. }
  split; [done|].
  destruct (validar_afd_passa Hg) as (c & d & _ & _ & Hc & Hd & Hcases).
  assert (bool_decide (c = []) && bool_decide (d = []) = true) as Hb.
  { destruct Hcases as [(_ & R & _ & Heq)|(_ & Heq)]; congruence. }
  apply andb_true_iff in Hb as [Hbc%bool_decide_eq_true Hbd%bool_decide_eq_true].
  split; [by apply Hc|by apply Hd].
Qed.

(** For a consistent automaton the set that the search returns holds
    exactly the states that a word over the alphabet reaches. *)
Lemma alcancaveis_spec_iff R x :
  consistente afd → alcancaveis_spec afd R → x ∈ R ↔ alcancavel afd x.
Proof.
  intros (_ & _ & Htr) (Hini & Hsub & Hexp & Hreach). split; [apply Hreach|].
  intros (w & Hw & Hrun). revert x Hrun.
  induction w as [|s w IH] using rev_ind; intros x Hrun.
  { simpl in Hrun. by simplify_eq. }
  apply Forall_app in Hw as [Hw Hs]. rewrite Forall_singleton in Hs.
  rewrite run_app in Hrun.
  destruct (run afd (inicial afd) w) as [y|] eqn:Hy; [|done]. simpl in Hrun.
  destruct (get_trans (transicoes afd) y s) as [z|] eqn:Hz; [|done].
  simplify_eq. apply (Hexp y (IH Hw y eq_refl) s x); [done|done|].
  unfold get_trans in Hz.
  destruct (transicoes afd !! y) as [m|] eqn:Hm; simpl in Hz;
    [|by rewrite lookup_empty in Hz].
  by apply (Htr y m Hm) in Hz as [_ ?].
Qed.

End Validador.

(** The guard answers alone. *)
Lemma validar_afd_vazio (afd : AFD string) :
  vazio_ou_incompleto afd →
  validar_afd afd = Some (false, [ErroObjetoVazio], None).
Proof. intros Hg. unfold validar_afd. by rewrite decide_True by done. Qed.

(** C5: an automaton without states, without alphabet or without
    initial state is answered by the guard alone: [validar_afd] returns
    invalid, a list with the single error of the guard, and no
    reachable set; the answer does not depend on the transitions or
    the accepting states, so that no reachability was computed. *)
Theorem validar_afd_guarda (afd : AFD string) :
  vazio_ou_incompleto afd →
  validar_afd afd = Some (false, [ErroObjetoVazio], None) ∧
  is_erro ErroObjetoVazio = true ∧
  ∀ f t, validar_afd (mkAFD (alfabeto afd) (estados afd) (inicial afd) f t)
         = validar_afd afd.
Proof.
  intros Hg. split_and!; [by apply validar_afd_vazio|done|].
  intros f t. rewrite (validar_afd_vazio afd Hg). by apply validar_afd_vazio.
Qed.

Lemma validar_afd_guarda_witness :
  vazio_ou_incompleto afd_sem_estados ∧
  validar_afd afd_sem_estados = Some (false, [ErroObjetoVazio], None).
Proof.
  assert (vazio_ou_incompleto afd_sem_estados) as Hg by (by left).
  split; [exact Hg|]. exact (proj1 (validar_afd_guarda afd_sem_estados Hg)).
Defined.

Lemma so_erros_sem_erro l :
  so_erros l → Forall (λ m, is_erro m = false) l → l = [].
Proof.
  intros He Hn. destruct l as [|m l]; [done|].
  apply Forall_cons in He as [He _]. apply Forall_cons in Hn as [Hn _].
  congruence.
Qed.

(** C6 (as amended): [validar_afd] always answers, and it answers
    valid exactly when no diagnostic is an error, which is exactly when
    the automaton passes the guard and is consistent and complete.  An
    automaton that passes the guard, is consistent and complete and has
    a declared state that the initial state does not reach is valid,
    with a warning among the diagnostics. *)
Theorem validar_afd_valido_sse_sem_erros (afd : AFD string) :
  ∃ v mensagens r,
    validar_afd afd = Some (v, mensagens, r) ∧
    (v = true ↔ Forall (λ m, is_erro m = false) mensagens) ∧
    (v = true ↔ ¬ vazio_ou_incompleto afd ∧ consistente afd ∧ completo afd) ∧
    (¬ vazio_ou_incompleto afd → consistente afd → completo afd →
     (∃ q, q ∈ estados afd ∧ ¬ alcancavel afd q) →
     v = true ∧ Exists (λ m, is_aviso m = true) mensagens).
Proof.
  destruct (decide (vazio_ou_incompleto afd)) as [Hg|Hg].
  { exists false, [ErroObjetoVazio], None.
    split; [by apply validar_afd_vazio|]. split_and!.
    - split; [done|]. by intros [? _]%Forall_cons.
    - split; [done|]. by intros [? _].
    - done. }
  destruct (validar_afd_passa afd Hg) as (c & d & Hc & Hd & Hciff & Hdiff & Hcases).
  assert (bool_decide (c = []) && bool_decide (d = []) = true
          ↔ consistente afd ∧ completo afd) as Hv.
  { rewrite andb_true_iff, !bool_decide_eq_true. by rewrite Hciff, Hdiff. }
  destruct Hcases as [(Hini & R & HR & Heq)|(Hini & Heq)].
  - exists (bool_decide (c = []) && bool_decide (d = [])),
      (c ++ d ++ aviso_de afd R), (Some R).
    split; [done|]. split_and!.
    + rewrite andb_true_iff, !bool_decide_eq_true. split.
      * intros [-> ->]. simpl. unfold aviso_de.
        destruct (decide _); by repeat constructor.
      * intros [Hc' [Hd' _]%Forall_app]%Forall_app.
        split; by apply so_erros_sem_erro.
    + rewrite Hv. tauto.
    + intros _ Hco Hcp (q & Hq & Hnq). split; [by apply Hv|].
      apply Exists_app. right. apply Exists_app. right.
      unfold aviso_de. rewrite decide_True; [by left|].
      destruct HR as (_ & _ & _ & Hreach).
      intros Hempty. apply Hnq, Hreach.
      destruct (decide (q ∈ R)); [done|]. set_solver.
  - exists (bool_decide (c = []) && bool_decide (d = [])), (c ++ d), None.
    split; [done|]. split_and!.
    + rewrite andb_true_iff, !bool_decide_eq_true. split.
      * by intros [-> ->].
      * intros [Hc' Hd']%Forall_app. split; by apply so_erros_sem_erro.
    + rewrite Hv. tauto.
    + intros _ (Hini' & _) _ _. done.
Qed.

Lemma nao_alcancavel_check (afd : AFD string) q R :
  consistente afd → _encontrar_estados_alcancaveis afd = Some R →
  q ∉ R → ¬ alcancavel afd q.
Proof.
  intros Hco HR Hq Halc.
  destruct (_encontrar_estados_alcancaveis_total afd)
    as (R' & HR' & [(_ & [He|He])|(_ & Hspec)]).
  - destruct Hco as (Hini & _). set_solver.
  - by destruct Hco as (Hini & _).
  - apply Hq. assert (R = R') as -> by congruence.
    by apply (alcancaveis_spec_iff afd).
Qed.

(** C6, as stated, fails on [afd_sem_alfabeto] and on
    [afd_inicial_vazio]: both automata are consistent and complete and
    have a state that is not reachable, but the guard answers invalid,
    with an error and no warning, the first for its empty alphabet and
    the second for its empty initial label. *)
Lemma validar_afd_sem_alfabeto_invalido :
  (consistente afd_sem_alfabeto ∧ completo afd_sem_alfabeto ∧
   (∃ q, q ∈ estados afd_sem_alfabeto ∧ ¬ alcancavel afd_sem_alfabeto q) ∧
   validar_afd afd_sem_alfabeto = Some (false, [ErroObjetoVazio], None)) ∧
  (consistente afd_inicial_vazio ∧ completo afd_inicial_vazio ∧
   (∃ q, q ∈ estados afd_inicial_vazio ∧ ¬ alcancavel afd_inicial_vazio q) ∧
   validar_afd afd_inicial_vazio = Some (false, [ErroObjetoVazio], None)).
Proof.
  split; split_and!.
  - apply consistente_check. vm_compute. reflexivity.
  - apply completo_check. vm_compute. reflexivity.
  - exists "q1"%string. split; [calcula|].
    intros (w & Hw & Hrun). destruct w as [|s w].
    + simpl in Hrun. by simplify_eq.
    + apply Forall_cons in Hw as [Hs _]. simpl in Hs. set_solver.
  - vm_compute. reflexivity.
  - apply consistente_check. vm_compute. reflexivity.
  - apply completo_check. vm_compute. reflexivity.
  - exists "q1"%string. split; [calcula|].
    eapply nao_alcancavel_check;
      [apply consistente_check; vm_compute; reflexivity
      |vm_compute; reflexivity|refuta].
  - vm_compute. reflexivity.
Qed.

Lemma validar_afd_valido_sse_sem_erros_witness :
  ∃ mensagens r,
    validar_afd afd_aviso_inalcancavel = Some (true, mensagens, r) ∧
    Exists (λ m, is_aviso m = true) mensagens.
Proof.
  destruct (validar_afd_valido_sse_sem_erros afd_aviso_inalcancavel)
    as (v & mensagens & r & Heq & _ & _ & Hav).
  assert (consistente afd_aviso_inalcancavel) as Hco
    by (apply consistente_check; vm_compute; reflexivity).
  destruct Hav as [-> Hav].
  - refuta.
  - exact Hco.
  - apply completo_check. vm_compute. reflexivity.
  - exists "q2"%string. split; [calcula|].
    eapply (nao_alcancavel_check _ _ _ Hco); [vm_compute; reflexivity|]. refuta.
  - exists mensagens, r. split; [exact Heq|exact Hav].
Defined.

(** ** The table filling *)

Lemma par_comm p q : par p q = par q p.
Proof. unfold par. set_solver. Qed.

Lemma par_eq p q p' q' :
  par p q = par p' q' → (p = p' ∧ q = q') ∨ (p = q' ∧ q = p').
Proof.
  unfold par. intros Heq.
  assert (p ∈ ({[p'; q']} : gset string)) as Hp by (rewrite <- Heq; set_solver).
  assert (q ∈ ({[p'; q']} : gset string)) as Hq by (rewrite <- Heq; set_solver).
  assert (p' ∈ ({[p; q]} : gset string)) as Hp' by (rewrite Heq; set_solver).
  assert (q' ∈ ({[p; q]} : gset string)) as Hq' by (rewrite Heq; set_solver).
  set_solver.
Qed.

Lemma marcacao_inicial_spec F N X :
  X ∈ marcacao_inicial F N ↔ ∃ p q, p ∈ F ∧ q ∈ N ∧ p ≠ q ∧ X = par p q.
Proof.
  unfold marcacao_inicial.
  assert (∀ p l (M : gset (gset string)),
    X ∈ foldl (λ M q, if decide (p ≠ q) then {[par p q]} ∪ M else M) M l
    ↔ X ∈ M ∨ ∃ q, q ∈ l ∧ p ≠ q ∧ X = par p q) as Hin.
  { intros p l. induction l as [|q l IH]; intros M; simpl.
    - split; [by left|]. intros [?|(q & Hq & _)]; [done|].
      by apply elem_of_nil in Hq.
    - rewrite IH. destruct (decide (p ≠ q)) as [Hne|Heq].
      + rewrite elem_of_union, elem_of_singleton. split.
        * intros [[->|?]|(q' & ? & ? & ?)]; [right|by left|right].
          -- exists q. split; [left|done].
          -- exists q'. split; [by right|done].
        * intros [?|(q' & [->|?]%elem_of_cons & ? & ?)]; [left; by right| |].
          -- left; by left.
          -- right. by exists q'.
      + split.
        * intros [?|(q' & ? & ? & ?)]; [by left|right].
          exists q'. split; [by right|done].
        * intros [?|(q' & [->|?]%elem_of_cons & ? & ?)]; [by left|done|].
          right. by exists q'. }
  assert (∀ l (M : gset (gset string)),
    X ∈ foldl (λ M p,
                 foldl (λ M q, if decide (p ≠ q) then {[par p q]} ∪ M else M)
                       M (elements N)) M l
    ↔ X ∈ M ∨ ∃ p q, p ∈ l ∧ q ∈ N ∧ p ≠ q ∧ X = par p q) as Hout.
  { induction l as [|p l IH]; intros M; simpl.
    - split; [by left|]. intros [?|(p & q & Hp & _)]; [done|].
      by apply elem_of_nil in Hp.
    - rewrite IH, Hin. split.
      + intros [[?|(q & Hq%elem_of_elements & ? & ?)]|(p' & q & ? & ? & ? & ?)].
        * by left.
        * right. exists p, q. split; [left|done].
        * right. exists p', q. split; [by right|done].
      + intros [?|(p' & q & [->|?]%elem_of_cons & ? & ? & ?)].
        * left; by left.
        * left; right. exists q. by rewrite elem_of_elements.
        * right. by exists p', q. }
  rewrite Hout. split.
  - intros [?|(p & q & Hp%elem_of_elements & ?)]; [set_solver|]. by exists p, q.
  - intros (p & q & Hp & ?). right. exists p, q. by rewrite elem_of_elements.
Qed.

Lemma simbolo_distingue_spec afd M p q l :
  simbolo_distingue (transicoes afd) M p q l = true
  ↔ ∃ s, s ∈ l ∧ distingue afd M p q s.
Proof.
  induction l as [|s l IH]; simpl.
  { split; [done|]. intros (s & Hs & _). by apply elem_of_nil in Hs. }
  assert ((∃ s', s' ∈ s :: l ∧ distingue afd M p q s')
          ↔ distingue afd M p q s ∨ ∃ s', s' ∈ l ∧ distingue afd M p q s') as ->.
  { split.
    - intros (s' & [->|?]%elem_of_cons & ?); [by left|right; by exists s'].
    - intros [?|(s' & ? & ?)]; [exists s; split; [left|done]|].
      exists s'. split; [by right|done]. }
  unfold distingue at 1.
  destruct (get_trans (transicoes afd) p s) as [p'|] eqn:Hp;
    [destruct (get_trans (transicoes afd) q s) as [q'|] eqn:Hq|].
  - destruct (decide (p' ≠ q')) as [Hne|Heq];
      [destruct (decide (par p' q' ∈ M)) as [Hin|Hnin]|].
    + split; [|done]. intros _. left. by exists p', q'.
    + rewrite IH. split; [by right|].
      intros [(? & ? & ? & ? & ? & ?)|?]; [by simplify_eq|done].
    + rewrite IH. split; [by right|].
      intros [(? & ? & ? & ? & ? & ?)|?]; [by simplify_eq|done].
  - rewrite IH. split; [by right|].
    intros [(? & ? & ? & ? & ? & ?)|?]; [by simplify_eq|done].
  - rewrite IH. split; [by right|].
    intros [(? & ? & ? & ? & ? & ?)|?]; [by simplify_eq|done].
Qed.

Lemma passo_marcacao_spec afd pairs M X :
  X ∈ passo_marcacao afd pairs M
  ↔ ∃ p q, (p, q) ∈ pairs ∧ X = par p q ∧ (X ∉ M) ∧
           ∃ s, s ∈ alfabeto afd ∧ distingue afd M p q s.
Proof.
  unfold passo_marcacao.
  assert (∀ (N : gset (gset string)),
    X ∈ foldl (λ newly_marked '(p, q),
                 let pair := par p q in
                 if decide (pair ∈ M) then newly_marked
                 else if simbolo_distingue (transicoes afd) M p q
                           (elements (alfabeto afd))
                      then {[pair]} ∪ newly_marked else newly_marked) N pairs
    ↔ X ∈ N ∨ ∃ p q, (p, q) ∈ pairs ∧ X = par p q ∧ (X ∉ M) ∧
                     ∃ s, s ∈ alfabeto afd ∧ distingue afd M p q s) as Hfold.
  { induction pairs as [|[p q] pairs IH]; intros N; simpl.
    - split; [by left|]. intros [?|(p & q & Hpq & _)]; [done|].
      by apply elem_of_nil in Hpq.
    - rewrite IH.
      assert ((∃ p0 q0, (p0, q0) ∈ (p, q) :: pairs ∧ X = par p0 q0 ∧ (X ∉ M) ∧
                 ∃ s, s ∈ alfabeto afd ∧ distingue afd M p0 q0 s)
              ↔ (X = par p q ∧ (X ∉ M) ∧
                 ∃ s, s ∈ alfabeto afd ∧ distingue afd M p q s)
                ∨ ∃ p0 q0, (p0, q0) ∈ pairs ∧ X = par p0 q0 ∧ (X ∉ M) ∧
                    ∃ s, s ∈ alfabeto afd ∧ distingue afd M p0 q0 s) as ->.
      { split.
        - intros (p0 & q0 & [Heq|?]%elem_of_cons & ?);
            [simplify_eq; by left|right; by exists p0, q0].
        - intros [?|(p0 & q0 & ? & ?)]; [exists p, q; split; [left|done]|].
          exists p0, q0. split; [by right|done]. }
      destruct (decide (par p q ∈ M)) as [Hin|Hnin].
      { split; [tauto|]. intros [?|[(-> & ? & _)|?]]; tauto. }
      destruct (simbolo_distingue (transicoes afd) M p q
                  (elements (alfabeto afd))) eqn:Hsd.
      + apply simbolo_distingue_spec in Hsd as (s & Hs%elem_of_elements & Hd).
        rewrite elem_of_union, elem_of_singleton. split; [|tauto].
        intros [[->|?]|?]; [|tauto..]. right; left. split_and!; [done..|].
        by exists s.
      + split; [tauto|]. intros [?|[(-> & _ & s & Hs & Hd)|?]]; [tauto| |tauto].
        assert (simbolo_distingue (transicoes afd) M p q
                  (elements (alfabeto afd)) = true); [|congruence].
        apply simbolo_distingue_spec. exists s. by rewrite elem_of_elements. }
  rewrite Hfold. set_solver.
Qed.

Lemma combinations2_elem {A} (l : list A) p q :
  (p, q) ∈ combinations2 l → p ∈ l ∧ q ∈ l.
Proof.
  induction l as [|x l IH]; simpl; [by intros ?%elem_of_nil|].
  intros [Hxy|Hrec]%elem_of_app.
  - apply list_elem_of_fmap in Hxy as (y & Heq & Hy). simplify_eq.
    split; [left|by right].
  - destruct (IH Hrec). split; by right.
Qed.

Lemma combinations2_NoDup {A} (l : list A) p q :
  NoDup l → (p, q) ∈ combinations2 l → p ≠ q.
Proof.
  induction l as [|x l IH]; simpl; [by intros _ ?%elem_of_nil|].
  intros [Hx Hnd]%NoDup_cons [Hxy|Hrec]%elem_of_app.
  - apply list_elem_of_fmap in Hxy as (y & Heq & Hy). simplify_eq.
    by intros ->.
  - by apply IH.
Qed.

Lemma combinations2_total {A} (l : list A) p q :
  p ∈ l → q ∈ l → p ≠ q → (p, q) ∈ combinations2 l ∨ (q, p) ∈ combinations2 l.
Proof.
  induction l as [|x l IH]; simpl; [by intros ?%elem_of_nil|].
  intros [->|Hp]%elem_of_cons [->|Hq]%elem_of_cons Hne; [done| | |].
  - left. apply elem_of_app. left. by apply list_elem_of_fmap_2.
  - right. apply elem_of_app. left. by apply list_elem_of_fmap_2.
  - destruct (IH Hp Hq Hne); [left|right]; apply elem_of_app; by right.
Qed.

Lemma sorted_states_elem R x : x ∈ sorted_states R ↔ x ∈ R.
Proof.
  unfold sorted_states. rewrite merge_sort_Permutation. apply elem_of_elements.
Qed.

Lemma sorted_states_NoDup R : NoDup (sorted_states R).
Proof.
  unfold sorted_states. rewrite merge_sort_Permutation. apply NoDup_elements.
Qed.

(** The candidate pairs are the pairs of two different reachable
    states, each in one of its two orders. *)
Lemma pares_de_elem R p q : (p, q) ∈ pares_de R → p ∈ R ∧ q ∈ R ∧ p ≠ q.
Proof.
  intros Hpq. split_and!.
  - apply sorted_states_elem. by apply combinations2_elem in Hpq as [? _].
  - apply sorted_states_elem. by apply combinations2_elem in Hpq as [_ ?].
  - eapply combinations2_NoDup; [apply sorted_states_NoDup|done].
Qed.

Lemma pares_de_total R p q :
  p ∈ R → q ∈ R → p ≠ q → (p, q) ∈ pares_de R ∨ (q, p) ∈ pares_de R.
Proof.
  intros Hp Hq Hne. apply combinations2_total; [| |done];
    by apply sorted_states_elem.
Qed.

Lemma so_pares_iniciais afd R : so_pares R (marcados_iniciais afd R).
Proof.
  intros X (p & q & Hp & Hq & Hne & ->)%marcacao_inicial_spec.
  exists p, q. set_solver.
Qed.

Lemma so_pares_passo afd R M :
  so_pares R M → so_pares R (M ∪ passo_marcacao afd (pares_de R) M).
Proof.
  intros HM X [HX|HX]%elem_of_union; [by apply HM|].
  apply passo_marcacao_spec in HX as (p & q & Hpq & -> & _).
  apply pares_de_elem in Hpq as (? & ? & ?). by exists p, q.
Qed.

Lemma so_pares_apos afd R k : so_pares R (marcados_apos afd R k).
Proof.
  induction k as [|k IH]; [apply so_pares_iniciais|by apply so_pares_passo].
Qed.

Lemma so_pares_sem_singular R M x : so_pares R M → par x x ∉ M.
Proof.
  intros HM Hx. apply HM in Hx as (p & q & _ & _ & Hne & Heq).
  symmetry in Heq. apply par_eq in Heq as [[-> ->]|[-> ->]]; done.
Qed.

(** C7: in every pass of the loop of [minimizar_afd] (the pass that
    follows [k] marking passes), a candidate pair that is not yet
    marked is marked by the pass exactly when some symbol of the
    alphabet has a transition from both of its states and the pair of
    the two successors is already marked; a symbol on which one of the
    two has no transition is skipped and marks nothing. *)
Theorem passo_marca_sse_sucessores_marcados (afd : AFD string)
    (R : gset string) (k : nat) (p q : string) :
  let M := marcados_apos afd R k in
  (p, q) ∈ pares_de R → par p q ∉ M →
  (par p q ∈ passo_marcacao afd (pares_de R) M
   ↔ ∃ s p' q', s ∈ alfabeto afd ∧
                get_trans (transicoes afd) p s = Some p' ∧
                get_trans (transicoes afd) q s = Some q' ∧
                par p' q' ∈ M) ∧
  (∀ s, s ∈ alfabeto afd →
        get_trans (transicoes afd) p s = None ∨
        get_trans (transicoes afd) q s = None →
        ¬ distingue afd M p q s).
Proof.
  intros M Hpq Hnm. split.
  - rewrite passo_marcacao_spec. split.
    + intros (p0 & q0 & Hpq0 & Heq & _ & s & Hs & Hd).
      assert (distingue afd M p q s) as (p' & q' & ? & ? & ? & ?).
      { apply par_eq in Heq as [[-> ->]|[-> ->]]; [done|].
        destruct Hd as (p' & q' & ? & ? & ? & ?). exists q', p'.
        split_and!; [done|done|done|by rewrite par_comm]. }
      by exists s, p', q'.
    + intros (s & p' & q' & Hs & Hp' & Hq' & Hin).
      exists p, q. split_and!; [done|done|done|]. exists s. split; [done|].
      exists p', q'. split_and!; [done|done| |done].
      intros ->. revert Hin. apply (so_pares_sem_singular R), so_pares_apos.
  - intros s Hs Hnone (p' & q' & Hp' & Hq' & _). destruct Hnone; congruence.
Qed.

Lemma passo_marca_sse_sucessores_marcados_witness :
  ("A"%string, "B"%string) ∈ pares_de alcancaveis_exemplo ∧
  (par "A" "B" ∉ marcados_apos afd_exemplo alcancaveis_exemplo 0) ∧
  par "A" "B" ∈ passo_marcacao afd_exemplo (pares_de alcancaveis_exemplo)
                   (marcados_apos afd_exemplo alcancaveis_exemplo 0).
Proof.
  assert (("A"%string, "B"%string) ∈ pares_de alcancaveis_exemplo) as Hpq
    by calcula.
  assert (par "A" "B" ∉ marcados_apos afd_exemplo alcancaveis_exemplo 0) as Hnm
    by refuta.
  split_and!; [exact Hpq|exact Hnm|].
  apply (passo_marca_sse_sucessores_marcados afd_exemplo alcancaveis_exemplo 0
           "A" "B" Hpq Hnm).
  exists "b"%string, "F"%string, "C"%string.
  split_and!; [calcula|vm_compute; reflexivity|vm_compute; reflexivity|calcula].
Defined.

(** ** The loop of the passes *)

Lemma filter_length_lt_strict {A} (P Q : A → Prop)
    `{!∀ x, Decision (P x)} `{!∀ x, Decision (Q x)} (l : list A) x :
  (∀ y, y ∈ l → Q y → P y) → x ∈ l → P x → ¬ Q x →
  length (filter Q l) < length (filter P l).
Proof.
  intros HQP Hx HP HnQ.
  assert (∀ l', (∀ y, y ∈ l' → Q y → P y) →
                length (filter Q l') ≤ length (filter P l')) as Hle.
  { induction l' as [|y l' IH]; intros Hl'; [done|].
    rewrite !filter_cons.
    assert (length (filter Q l') ≤ length (filter P l')) as Hrec.
    { apply IH. intros z Hz. apply Hl'. by right. }
    destruct (decide (Q y)) as [HQy|HQy].
    - rewrite decide_True by (apply Hl'; [left|done]). simpl. lia.
    - destruct (decide (P y)); simpl; lia. }
  induction l as [|y l IH]; [by apply elem_of_nil in Hx|].
  rewrite !filter_cons. apply elem_of_cons in Hx as [->|Hx].
  - rewrite (decide_True (P:=P y)) by done.
    rewrite (decide_False (P:=Q y)) by done. simpl.
    assert (length (filter Q l) ≤ length (filter P l)); [|lia].
    apply Hle. intros z Hz. apply HQP. by right.
  - specialize (IH (λ z Hz, HQP z (list_elem_of_further _ _ _ Hz)) Hx).
    destruct (decide (Q y)) as [HQy|HQy].
    + rewrite decide_True by (apply HQP; [left|done]). simpl. lia.
    + destruct (decide (P y)); simpl; lia.
Qed.

Lemma marcados_apos_iter afd R k :
  marcados_apos afd R k
  = Nat.iter k (apos_passo afd (pares_de R)) (marcados_iniciais afd R).
Proof. induction k as [|k IH]; simpl; [done|]. by rewrite IH. Qed.

Lemma iter_apos_passo_r afd pairs M k :
  Nat.iter (S k) (apos_passo afd pairs) M
  = Nat.iter k (apos_passo afd pairs) (apos_passo afd pairs M).
Proof. apply Nat.iter_succ_r. Qed.

(** The loop of the passes ends: with fuel for the unmarked candidate
    pairs it returns the marked set after [k] marking passes, where
    [k] is the first number of passes after which a pass marks
    nothing; the pass that finds nothing is number [passo + k]. *)
Lemma iteracao_spec afd pairs fuel M passo :
  length (nao_marcados pairs M) < fuel →
  ∃ k steps,
    iteracao fuel afd pairs M passo
      = Some (Nat.iter k (apos_passo afd pairs) M, passo + k,
              steps ++ [EvInfo (InfoNenhumaNovaMarcacao (passo + k))]) ∧
    passo_marcacao afd pairs (Nat.iter k (apos_passo afd pairs) M) = ∅ ∧
    (∀ j, j < k →
          passo_marcacao afd pairs (Nat.iter j (apos_passo afd pairs) M) ≠ ∅) ∧
    Forall (λ e, is_step e = true) steps ∧ length steps = 2 * k.
Proof.
  revert M passo. induction fuel as [|fuel IH]; intros M passo Hfuel; [lia|].
  cbn [iteracao].
  destruct (decide (passo_marcacao afd pairs M = ∅)) as [He|Hne].
  { exists 0, []. simpl.
    rewrite Nat.add_0_r. split_and!; [done|done|lia|constructor|done]. }
  destruct (IH (M ∪ passo_marcacao afd pairs M) (S passo))
    as (k & steps & -> & Hfix & Hprod & Hsteps & Hlen).
  { apply set_choose_L in Hne as (X & HX).
    apply passo_marcacao_spec in HX as HX'.
    destruct HX' as (p & q & Hpq & -> & Hnm & _).
    enough (length (nao_marcados pairs (M ∪ passo_marcacao afd pairs M))
            < length (nao_marcados pairs M)) by lia.
    apply (filter_length_lt_strict _ _ _ (p, q)); [|done|done|].
    - intros [p' q'] _ Hn. simpl in *. set_solver.
    - simpl. set_solver. }
  exists (S k),
    (EvStepUpdate passo (passo_marcacao afd pairs M)
     :: EvStepTable passo (M ∪ passo_marcacao afd pairs M) :: steps).
  rewrite iter_apos_passo_r. split_and!.
  - simpl. replace (passo + S k) with (S (passo + k)) by lia. done.
  - done.
  - intros [|j] Hj; [done|]. rewrite iter_apos_passo_r. apply Hprod. lia.
  - by repeat constructor.
  - simpl. lia.
Qed.

Lemma nao_marcados_length pairs M : length (nao_marcados pairs M) ≤ length pairs.
Proof. apply length_filter. Qed.

(** ** The disjoint sets *)

Section DSU.

Implicit Types parent : gmap string string.

Lemma raiz_n_fun parent n m x r r' :
  raiz_n parent n x r → raiz_n parent m x r' → n = m ∧ r = r'.
Proof.
  intros H. revert m r'. induction H as [x Hx|n x p r Hx Hne Hp IH];
    intros m r' H'; inversion H' as [|? ? ? ? ? ? Hp']; simplify_eq; [done|].
  by destruct (IH _ _ Hp') as [-> ->].
Qed.

Lemma raiz_de_fun parent x r r' :
  raiz_de parent x r → raiz_de parent x r' → r = r'.
Proof. intros [n Hn] [m Hm]. by destruct (raiz_n_fun _ _ _ _ _ _ Hn Hm). Qed.

Lemma raiz_n_raiz parent n x r : raiz_n parent n x r → parent !! r = Some r.
Proof. induction 1; done. Qed.

Lemma raiz_de_raiz parent x r : raiz_de parent x r → parent !! r = Some r.
Proof. intros [n Hn]. by eapply raiz_n_raiz. Qed.

Lemma raiz_de_dom parent x r : raiz_de parent x r → x ∈ dom parent.
Proof. intros [n Hn]. apply elem_of_dom. inversion Hn; eauto. Qed.

Lemma raiz_de_aqui parent x : parent !! x = Some x → raiz_de parent x x.
Proof. intros Hx. exists 0. by constructor. Qed.

Lemma raiz_de_acima parent x p r :
  parent !! x = Some p → p ≠ x → raiz_de parent p r → raiz_de parent x r.
Proof. intros Hx Hne [n Hn]. exists (S n). by econstructor. Qed.

Lemma raiz_de_inv parent x r :
  raiz_de parent x r →
  (parent !! x = Some x ∧ r = x) ∨
  ∃ p, parent !! x = Some p ∧ p ≠ x ∧ raiz_de parent p r.
Proof.
  intros [n Hn]. inversion Hn; simplify_eq; [by left|right].
  eexists. split_and!; [done|done|by eexists].
Qed.

Lemma raiz_de_ind' parent (P : string → string → Prop) :
  (∀ x, parent !! x = Some x → P x x) →
  (∀ x p r, parent !! x = Some p → p ≠ x → raiz_de parent p r → P p r → P x r) →
  ∀ x r, raiz_de parent x r → P x r.
Proof.
  intros Hbase Hstep x r [n Hn]. induction Hn; [by apply Hbase|].
  eapply Hstep; [done|done|by eexists|done].
Qed.

(** A path to the root visits different items, so it is shorter than
    the dict. *)
Lemma raiz_n_size parent n x r : raiz_n parent n x r → n < size parent.
Proof.
  intros Hn.
  assert (∃ P : gset string, P ⊆ dom parent ∧ size P = S n ∧
            ∀ y, y ∈ P → ∃ m, m ≤ n ∧ raiz_n parent m y r) as (P & Hsub & Hsz & _).
  { induction Hn as [x Hx|n x p r Hx Hne Hp (P & Hsub & Hsz & HP)].
    - exists {[x]}. split_and!.
      + apply singleton_subseteq_l, elem_of_dom. eauto.
      + apply size_singleton.
      + intros y ->%elem_of_singleton. exists 0. split; [done|by constructor].
    - exists ({[x]} ∪ P). split_and!.
      + apply union_subseteq. split; [|done].
        apply singleton_subseteq_l, elem_of_dom. eauto.
      + rewrite size_union, size_singleton; [lia|].
        intros y ->%elem_of_singleton HyP.
        destruct (HP _ HyP) as (m & Hm & Hy).
        assert (raiz_n parent (S n) x r) as Hy' by (by econstructor).
        destruct (raiz_n_fun _ _ _ _ _ _ Hy Hy'). lia.
      + intros y [->%elem_of_singleton|HyP]%elem_of_union.
        * exists (S n). split; [done|by econstructor].
        * destruct (HP _ HyP) as (m & Hm & Hy). exists m. split; [lia|done]. }
  apply subseteq_size in Hsub. rewrite size_dom in Hsub. lia.
Qed.

(** Path compression: pointing an item at its root changes no root. *)
Lemma raiz_de_insert parent x r y r' :
  raiz_de parent x r →
  raiz_de (<[x := r]> parent) y r' ↔ raiz_de parent y r'.
Proof.
  intros Hx. pose proof (raiz_de_raiz _ _ _ Hx) as Hr. split.
  - revert y r'. apply raiz_de_ind'.
    + intros y Hy. destruct (decide (y = x)) as [->|Hne].
      * rewrite lookup_insert_eq in Hy. by simplify_eq.
      * rewrite lookup_insert_ne in Hy by done. by apply raiz_de_aqui.
    + intros y p r' Hy Hne _ IH. destruct (decide (y = x)) as [->|Hne'].
      * rewrite lookup_insert_eq in Hy. simplify_eq.
        assert (r' = p) as -> by (eapply raiz_de_fun; [done|by apply raiz_de_aqui]).
        done.
      * rewrite lookup_insert_ne in Hy by done. by eapply raiz_de_acima.
  - revert y r'. apply raiz_de_ind'.
    + intros y Hy. destruct (decide (y = x)) as [->|Hne].
      * assert (r = x) as -> by (eapply raiz_de_fun; [done|by apply raiz_de_aqui]).
        apply raiz_de_aqui. by rewrite lookup_insert_eq.
      * apply raiz_de_aqui. by rewrite lookup_insert_ne.
    + intros y p r' Hy Hne Hp IH. destruct (decide (y = x)) as [->|Hne'].
      * assert (r' = r) as ->.
        { eapply raiz_de_fun; [|done]. by eapply raiz_de_acima. }
        destruct (decide (r = x)) as [->|Hrx].
        -- apply raiz_de_aqui. by rewrite lookup_insert_eq.
        -- eapply raiz_de_acima; [by rewrite lookup_insert_eq|done|].
           apply raiz_de_aqui. by rewrite lookup_insert_ne.
      * eapply raiz_de_acima; [by rewrite lookup_insert_ne|done..].
Qed.

(** [find] returns the root and leaves every root as it was. *)
Lemma DSU_find_go_spec parent fuel n x r :
  raiz_n parent n x r → n < fuel →
  ∃ parent', DSU_find_go fuel parent x = Some (r, parent') ∧
             dom parent' = dom parent ∧
             ∀ y r', raiz_de parent' y r' ↔ raiz_de parent y r'.
Proof.
  intros Hn. revert fuel.
  induction Hn as [x Hx|n x p r Hx Hne Hp IH]; intros fuel Hfuel;
    (destruct fuel as [|fuel]; [lia|]); cbn [DSU_find_go]; rewrite Hx; simpl.
  - rewrite decide_True by done. by exists parent.
  - rewrite decide_False by done.
    destruct (IH fuel) as (parent' & -> & Hdom & Hroots); [lia|]. simpl.
    exists (<[x := r]> parent'). split; [done|].
    assert (raiz_de parent' x r) as Hxr.
    { apply Hroots. eapply raiz_de_acima; [done|done|by exists n]. }
    split.
    + rewrite dom_insert_L, Hdom.
      assert (x ∈ dom parent) by (apply elem_of_dom; eauto). set_solver.
    + intros y r'. by rewrite raiz_de_insert, Hroots.
Qed.

Lemma DSU_find_spec parent x r :
  raiz_de parent x r →
  ∃ parent', DSU_find parent x = Some (r, parent') ∧
             dom parent' = dom parent ∧
             ∀ y r', raiz_de parent' y r' ↔ raiz_de parent y r'.
Proof.
  intros [n Hn]. eapply DSU_find_go_spec; [done|]. by eapply raiz_n_size.
Qed.

(** Linking a root to another root moves its set to that root. *)
Lemma raiz_de_link parent r1 r2 y r' :
  parent !! r1 = Some r1 → parent !! r2 = Some r2 → r1 ≠ r2 →
  raiz_de (<[r1 := r2]> parent) y r'
  ↔ (raiz_de parent y r' ∧ r' ≠ r1) ∨ (raiz_de parent y r1 ∧ r' = r2).
Proof.
  intros Hr1 Hr2 Hne. split.
  - revert y r'. apply raiz_de_ind'.
    + intros y Hy. destruct (decide (y = r1)) as [->|Hy1].
      * rewrite lookup_insert_eq in Hy. by simplify_eq.
      * rewrite lookup_insert_ne in Hy by done. left.
        split; [by apply raiz_de_aqui|done].
    + intros y p r' Hy Hpy _ IH. destruct (decide (y = r1)) as [->|Hy1].
      * rewrite lookup_insert_eq in Hy. simplify_eq. right.
        split; [by apply raiz_de_aqui|].
        destruct IH as [[Hp _]|[Hp _]].
        -- eapply raiz_de_fun; [done|by apply raiz_de_aqui].
        -- exfalso. apply Hne. eapply raiz_de_fun; [done|by apply raiz_de_aqui].
      * rewrite lookup_insert_ne in Hy by done.
        destruct IH as [[Hp ?]|[Hp ?]]; [left|right];
          (split; [by eapply raiz_de_acima|done]).
  - intros [[Hy Hr']|[Hy ->]].
    + revert y r' Hy Hr'. apply (raiz_de_ind' parent (λ y r', r' ≠ r1 → _)).
      * intros y Hy Hy1. apply raiz_de_aqui. by rewrite lookup_insert_ne.
      * intros y p r' Hy Hpy _ IH Hr'.
        assert (y ≠ r1) by (intros ->; by simplify_eq).
        eapply raiz_de_acima; [by rewrite lookup_insert_ne|done|by apply IH].
    + remember r1 as r eqn:Hr in Hy. revert y r Hy Hr.
      apply (raiz_de_ind' parent (λ y r, r = r1 → _)).
      * intros y Hy ->.
        eapply raiz_de_acima; [by rewrite lookup_insert_eq|done|].
        apply raiz_de_aqui. by rewrite lookup_insert_ne.
      * intros y p r Hy Hpy _ IH ->.
        assert (y ≠ r1) by (intros ->; by simplify_eq).
        eapply raiz_de_acima; [by rewrite lookup_insert_ne|done|by apply IH].
Qed.

Lemma mesma_classe_sym parent x y :
  mesma_classe parent x y → mesma_classe parent y x.
Proof. intros (r & ? & ?). by exists r. Qed.

Lemma mesma_classe_trans parent x y z :
  mesma_classe parent x y → mesma_classe parent y z → mesma_classe parent x z.
Proof.
  intros (r & Hx & Hy) (r' & Hy' & Hz).
  assert (r = r') as -> by (by eapply raiz_de_fun). by exists r'.
Qed.

Lemma mesma_classe_refl parent x :
  dsu_ok parent → x ∈ dom parent → mesma_classe parent x x.
Proof. intros Hok Hx. destruct (Hok x Hx) as [r Hr]. by exists r. Qed.

Lemma mesma_classe_dom parent x y :
  mesma_classe parent x y → x ∈ dom parent ∧ y ∈ dom parent.
Proof. intros (r & ? & ?). split; by eapply raiz_de_dom. Qed.

(** [union] joins the sets of the two items and no others. *)
Lemma DSU_union_spec parent p q :
  dsu_ok parent → p ∈ dom parent → q ∈ dom parent →
  ∃ parent', DSU_union parent p q = Some parent' ∧
    dsu_ok parent' ∧ dom parent' = dom parent ∧
    ∀ x y, mesma_classe parent' x y
           ↔ mesma_classe parent x y
             ∨ (mesma_classe parent x p ∧ mesma_classe parent q y)
             ∨ (mesma_classe parent x q ∧ mesma_classe parent p y).
Proof.
  intros Hok Hp Hq. destruct (Hok p Hp) as [r1 Hr1]. destruct (Hok q Hq) as [r2 Hr2].
  unfold DSU_union.
  destruct (DSU_find_spec parent p r1 Hr1) as (parent1 & -> & Hdom1 & Hroots1).
  simpl.
  destruct (DSU_find_spec parent1 q r2) as (parent2 & -> & Hdom2 & Hroots2);
    [by apply Hroots1|]. simpl.
  assert (∀ y r', raiz_de parent2 y r' ↔ raiz_de parent y r') as Hroots.
  { intros y r'. by rewrite Hroots2, Hroots1. }
  assert (dom parent2 = dom parent) as Hdom by congruence.
  destruct (decide (r1 ≠ r2)) as [Hne|Heq].
  - assert (parent2 !! r1 = Some r1) as Hroot1.
    { eapply raiz_de_raiz. by apply Hroots. }
    assert (parent2 !! r2 = Some r2) as Hroot2.
    { eapply raiz_de_raiz. by apply Hroots. }
    eexists. split; [done|]. split_and!.
    + intros x Hx. rewrite dom_insert_L in Hx.
      assert (x ∈ dom parent) as Hx'.
      { assert (r1 ∈ dom parent2) by (apply elem_of_dom; eauto). set_solver. }
      destruct (Hok x Hx') as [r Hr]. destruct (decide (r = r1)) as [->|Hrr1].
      * exists r2. apply raiz_de_link; [done..|]. right. by rewrite Hroots.
      * exists r. apply raiz_de_link; [done..|]. left. by rewrite Hroots.
    + rewrite dom_insert_L.
      assert (r1 ∈ dom parent2) by (apply elem_of_dom; eauto). set_solver.
    + intros x y. unfold mesma_classe.
      setoid_rewrite (raiz_de_link parent2 r1 r2); [|done..].
      setoid_rewrite Hroots. split.
      * intros (r & [[Hx Hxr]|[Hx ->]] & [[Hy Hyr]|[Hy Hyr2]]).
        -- left. by exists r.
        -- subst r. right; right. split; [by exists r2|by exists r1].
        -- right; left. split; [by exists r1|by exists r2].
        -- left. by exists r1.
      * intros [(r & Hx & Hy)|[[(r & Hx & Hpr) (r' & Hqr & Hy)]
                               |[(r & Hx & Hqr) (r' & Hpr & Hy)]]].
        -- destruct (decide (r = r1)) as [->|Hrr1].
           ++ exists r2. split; by right.
           ++ exists r. split; by left.
        -- assert (r = r1) as -> by exact (raiz_de_fun _ _ _ _ Hpr Hr1).
           assert (r' = r2) as -> by exact (raiz_de_fun _ _ _ _ Hqr Hr2).
           exists r2. split; [by right|left; split; [done|congruence]].
        -- assert (r = r2) as -> by exact (raiz_de_fun _ _ _ _ Hqr Hr2).
           assert (r' = r1) as -> by exact (raiz_de_fun _ _ _ _ Hpr Hr1).
           exists r2. split; [left; split; [done|congruence]|by right].
  - assert (r1 = r2) as -> by (by destruct (decide (r1 = r2)); [|exfalso; auto]).
    exists parent2. split; [done|]. split_and!.
    + intros x Hx. rewrite Hdom in Hx. destruct (Hok x Hx) as [r Hr].
      exists r. by apply Hroots.
    + done.
    + intros x y. unfold mesma_classe. setoid_rewrite Hroots. split; [by left|].
      intros [?|[[(r & Hx & Hpr) (r' & Hqr & Hy)]
                |[(r & Hx & Hqr) (r' & Hpr & Hy)]]]; [done| |].
      * assert (r = r2) as -> by exact (raiz_de_fun _ _ _ _ Hpr Hr1).
        assert (r' = r2) as -> by exact (raiz_de_fun _ _ _ _ Hqr Hr2). by exists r2.
      * assert (r = r2) as -> by exact (raiz_de_fun _ _ _ _ Hqr Hr2).
        assert (r' = r2) as -> by exact (raiz_de_fun _ _ _ _ Hpr Hr1). by exists r2.
Qed.

(** [DSU(items)]: every item is its own set. *)
Lemma DSU_init_lookup items x y :
  DSU_init items !! x = Some y ↔ x ∈ items ∧ y = x.
Proof.
  unfold DSU_init. rewrite lookup_set_to_map by (by intros ?? _ _ [= ->]).
  split.
  - intros (z & Hz & Heq). by simplify_eq.
  - intros [Hx ->]. by exists x.
Qed.

Lemma DSU_init_dom items : dom (DSU_init items) = items.
Proof.
  apply set_eq. intros x. rewrite elem_of_dom. split.
  - intros [y Hy%DSU_init_lookup]. tauto.
  - intros Hx. exists x. by apply DSU_init_lookup.
Qed.

Lemma DSU_init_ok items : dsu_ok (DSU_init items).
Proof.
  intros x Hx. rewrite DSU_init_dom in Hx. exists x.
  apply raiz_de_aqui. by apply DSU_init_lookup.
Qed.

Lemma DSU_init_mesma_classe items x y :
  mesma_classe (DSU_init items) x y ↔ x ∈ items ∧ x = y.
Proof.
  split.
  - intros (r & Hx & Hy).
    assert (∀ z, raiz_de (DSU_init items) z r → z ∈ items ∧ z = r) as Hinit.
    { intros z Hz. apply raiz_de_inv in Hz as [[Hz ->]|(p & Hz & Hne & _)].
      - by apply DSU_init_lookup in Hz as [? _].
      - by apply DSU_init_lookup in Hz as [_ ->]. }
    destruct (Hinit x Hx) as [? ->]. by destruct (Hinit y Hy) as [_ ->].
  - intros [Hx <-]. apply mesma_classe_refl; [apply DSU_init_ok|].
    by rewrite DSU_init_dom.
Qed.

End DSU.

(** ** The partition *)

(** The unions of the unmarked pairs: the loop never fails; whatever
    was joined stays joined, every unmarked candidate pair is joined,
    and only states that every equivalence containing the unmarked
    pairs relates are joined. *)
Lemma unir_nao_marcados_spec M (R : gset string) pairs parent :
  dsu_ok parent → dom parent = R →
  (∀ p q, (p, q) ∈ pairs → p ∈ R ∧ q ∈ R) →
  ∃ parent',
    unir_nao_marcados M parent pairs = Some parent' ∧
    dsu_ok parent' ∧ dom parent' = R ∧
    (∀ x y, mesma_classe parent x y → mesma_classe parent' x y) ∧
    (∀ p q, (p, q) ∈ pairs → par p q ∉ M → mesma_classe parent' p q) ∧
    (∀ E : string → string → Prop,
       (∀ x y, E x y → E y x) → (∀ x y z, E x y → E y z → E x z) →
       (∀ x y, mesma_classe parent x y → E x y) →
       (∀ p q, (p, q) ∈ pairs → par p q ∉ M → E p q) →
       ∀ x y, mesma_classe parent' x y → E x y).
Proof.
  revert parent. induction pairs as [|[p q] pairs IH]; intros parent Hok Hdom Hin.
  { exists parent. simpl. split_and!; [done|done|done|done| |auto].
    intros p q Hpq. by apply elem_of_nil in Hpq. }
  unfold unir_nao_marcados in *. cbn [foldl_opt].
  destruct (Hin p q) as [Hp Hq]; [left|].
  assert (∀ p' q', (p', q') ∈ pairs → p' ∈ R ∧ q' ∈ R) as Hin'.
  { intros p' q' Hpq. apply Hin. by right. }
  destruct (decide (par p q ∉ M)) as [Hnm|Hm].
  - destruct (DSU_union_spec parent p q) as (parent1 & -> & Hok1 & Hdom1 & Hcl1);
      [done|by rewrite Hdom|by rewrite Hdom|]. simpl.
    destruct (IH parent1) as (parent' & -> & Hok' & Hdom' & Hmono & Hcomp & Hsound);
      [done|congruence|done|].
    exists parent'. split_and!; [done|done|done| | |].
    + intros x y Hxy. apply Hmono, Hcl1. by left.
    + intros p' q' [Heq|Hpq]%elem_of_cons Hnm'; [|by apply Hcomp].
      simplify_eq. apply Hmono, Hcl1. right; left.
      split; apply mesma_classe_refl; try done; by rewrite Hdom.
    + intros E Hsym Htrans Hbase Hpairs x y Hxy.
      apply (Hsound E); [done|done| |intros; apply Hpairs; [by right|done]|done].
      intros x' y' Hxy'. assert (E p q) as Hpq by (apply Hpairs; [left|done]).
      apply Hcl1 in Hxy' as [?|[[Hxp Hqy]|[Hxq Hpy]]]; [by apply Hbase| |].
      * apply (Htrans _ p); [by apply Hbase|]. apply (Htrans _ q); [done|].
        by apply Hbase.
      * apply (Htrans _ q); [by apply Hbase|]. apply (Htrans _ p); [by apply Hsym|].
        by apply Hbase.
  - simpl.
    destruct (IH parent) as (parent' & -> & Hok' & Hdom' & Hmono & Hcomp & Hsound);
      [done|done|done|].
    exists parent'. split_and!; [done|done|done|done| |].
    + intros p' q' [Heq|Hpq]%elem_of_cons Hnm'; [by simplify_eq|by apply Hcomp].
    + intros E Hsym Htrans Hbase Hpairs x y Hxy.
      apply (Hsound E); [done|done|done|intros; apply Hpairs; [by right|done]|done].
Qed.

Lemma agrupar_loop parent0 l :
  dsu_ok parent0 → (∀ x, x ∈ l → x ∈ dom parent0) →
  ∀ parent classes P,
    (∀ y r, raiz_de parent y r ↔ raiz_de parent0 y r) →
    agrupados parent0 P classes →
    ∃ parent' classes',
      foldl_opt (λ '(parent, equivalence_classes) estado,
                   '(r, parent) ← DSU_find parent estado;
                   Some (parent,
                         <[r := {[estado]} ∪ default ∅ (equivalence_classes !! r)]>
                           equivalence_classes))
                (parent, classes) l = Some (parent', classes') ∧
      agrupados parent0 (list_to_set l ∪ P) classes'.
Proof.
  intros Hok. induction l as [|x l IH]; intros Hl parent classes P Hroots Hinv.
  { exists parent, classes. simpl. split; [done|].
    assert (∅ ∪ P = P) as -> by set_solver. done. }
  cbn [foldl_opt].
  destruct (Hok x) as [r Hr]; [apply Hl; left|].
  destruct (DSU_find_spec parent x r) as (parent1 & -> & Hdom1 & Hroots1);
    [by apply Hroots|]. simpl.
  destruct (IH (λ y Hy, Hl y (list_elem_of_further _ _ _ Hy)) parent1
              (<[r := {[x]} ∪ default ∅ (classes !! r)]> classes) ({[x]} ∪ P))
    as (parent' & classes' & -> & Hinv').
  { intros y r'. by rewrite Hroots1, Hroots. }
  { destruct Hinv as (Hmem & Hsome & Hne). split_and!.
    - intros r' X HX y. destruct (decide (r' = r)) as [->|Hrr].
      + rewrite lookup_insert_eq in HX. simplify_eq.
        rewrite elem_of_union, elem_of_singleton.
        destruct (classes !! r) as [X|] eqn:HX; simpl.
        * rewrite (Hmem r X HX). split.
          -- intros [->|[? ?]]; [split; [set_solver|done]|split; [set_solver|done]].
          -- intros [[->%elem_of_singleton|?]%elem_of_union ?]; [by left|by right].
        * split.
          -- intros [->|?]; [split; [set_solver|done]|set_solver].
          -- intros [[->%elem_of_singleton|Hy]%elem_of_union Hyr]; [by left|].
             destruct (Hsome y r Hy Hyr) as [? ?]. congruence.
      + rewrite lookup_insert_ne in HX by done. rewrite (Hmem r' X HX). split.
        * intros [? ?]. split; [set_solver|done].
        * intros [[->%elem_of_singleton|?]%elem_of_union Hyr]; [|done].
          exfalso. apply Hrr. by eapply raiz_de_fun.
    - intros y r' [->%elem_of_singleton|Hy]%elem_of_union Hyr.
      + assert (r' = r) as -> by (by eapply raiz_de_fun).
        rewrite lookup_insert_eq. eauto.
      + destruct (decide (r' = r)) as [->|Hrr];
          [rewrite lookup_insert_eq; eauto|].
        rewrite lookup_insert_ne by done. by eapply Hsome.
    - intros r' X HX. destruct (decide (r' = r)) as [->|Hrr].
      + rewrite lookup_insert_eq in HX. simplify_eq. exists x. set_solver.
      + rewrite lookup_insert_ne in HX by done. by eapply Hne. }
  exists parent', classes'. split; [done|].
  assert ({[x]} ∪ list_to_set l ∪ P = list_to_set l ∪ ({[x]} ∪ P)) as ->
    by set_solver.
  done.
Qed.

(** The grouping never fails, and its classes are the sets of the
    partition. *)
Lemma agrupar_spec parent (R : gset string) :
  dsu_ok parent → dom parent = R →
  ∃ parent' classes,
    agrupar parent R = Some (parent', classes) ∧
    particao parent R (map_img classes).
Proof.
  intros Hok Hdom. unfold agrupar.
  destruct (agrupar_loop parent (elements R) Hok) with (parent := parent)
    (classes := (∅ : gmap string (gset string))) (P := (∅ : gset string))
    as (parent' & classes & -> & Hmem & Hsome & Hne).
  { intros x Hx%elem_of_elements. by rewrite Hdom. }
  { done. }
  { split_and!; [|set_solver|]; intros r X HX; by rewrite lookup_empty in HX. }
  exists parent', classes. split; [done|].
  assert (list_to_set (elements R) ∪ ∅ = R) as HP by set_solver.
  rewrite HP in Hmem, Hsome. clear HP.
  split_and!.
  - intros X [r HX]%elem_of_map_img. by eapply Hne.
  - intros X x [r HX]%elem_of_map_img Hx y.
    pose proof (proj1 (Hmem r X HX x) Hx) as [HxR Hxr].
    rewrite (Hmem r X HX y). split.
    + intros [_ Hyr]. by exists r.
    + intros (r' & Hxr' & Hyr').
      assert (r' = r) as -> by exact (raiz_de_fun _ _ _ _ Hxr' Hxr).
      split; [|done]. rewrite <- Hdom. by eapply raiz_de_dom.
  - intros x HxR. destruct (Hok x) as [r Hxr]; [by rewrite Hdom|].
    destruct (Hsome x r HxR Hxr) as [X HX]. exists X.
    split; [by eapply elem_of_map_img_2|]. by apply (Hmem r X HX x).
Qed.

Lemma particao_sub parent R C X :
  dom parent = R → particao parent R C → X ∈ C → X ⊆ R.
Proof.
  intros Hdom (_ & Hcl & _) HX y Hy. rewrite <- Hdom.
  by apply (Hcl X y HX Hy y), mesma_classe_dom in Hy as [? _].
Qed.

(** Two classes that share a state, or two joined states, are one. *)
Lemma particao_eq parent R C X Y x y :
  particao parent R C → X ∈ C → Y ∈ C → x ∈ X → y ∈ Y →
  mesma_classe parent x y → X = Y.
Proof.
  intros (_ & Hcl & _) HX HY Hx Hy Hxy. apply set_eq. intros z.
  rewrite (Hcl X x HX Hx z), (Hcl Y y HY Hy z). split.
  - intros Hxz. eapply mesma_classe_trans; [by apply mesma_classe_sym|done].
  - intros Hyz. by eapply mesma_classe_trans.
Qed.

(** ** The minimized automaton *)

Lemma mapa_classes_inner (fs : gset string) l (m : gmap string (gset string)) x :
  foldl (λ m orig, <[orig := fs]> m) m l !! x
  = if decide (x ∈ l) then Some fs else m !! x.
Proof.
  revert m. induction l as [|y l IH]; intros m; cbn [foldl].
  { rewrite decide_False; [done|apply not_elem_of_nil]. }
  rewrite IH. destruct (decide (x ∈ l)) as [Hl|Hl].
  - rewrite decide_True; [done|by right].
  - destruct (decide (x = y)) as [->|Hne].
    + rewrite lookup_insert_eq. rewrite decide_True; [done|left].
    + rewrite lookup_insert_ne by done. rewrite decide_False; [done|].
      by intros [?|?]%elem_of_cons.
Qed.

Lemma mapa_classes_loop l (m : gmap string (gset string)) x X :
  foldl (λ m fs, foldl (λ m orig, <[orig := fs]> m) m (elements fs)) m l !! x
    = Some X →
  (X ∈ l ∧ x ∈ X) ∨ m !! x = Some X.
Proof.
  revert m. induction l as [|fs l IH]; intros m; cbn [foldl]; [by right|].
  intros [[? ?]|Hm]%IH; [left; split; [by right|done]|].
  rewrite mapa_classes_inner in Hm. destruct (decide (x ∈ elements fs)) as [Hx|Hx].
  - simplify_eq. left. split; [left|by apply elem_of_elements].
  - by right.
Qed.

Lemma mapa_classes_loop_some l (m : gmap string (gset string)) x :
  (∃ X, X ∈ l ∧ x ∈ X) ∨ is_Some (m !! x) →
  is_Some (foldl (λ m fs, foldl (λ m orig, <[orig := fs]> m) m (elements fs))
                 m l !! x).
Proof.
  revert m. induction l as [|fs l IH]; intros m; cbn [foldl].
  { intros [(X & HX & _)|?]; [by apply elem_of_nil in HX|done]. }
  intros Hx. apply IH. rewrite mapa_classes_inner.
  destruct (decide (x ∈ elements fs)) as [Hfs|Hfs]; [right; eauto|].
  destruct Hx as [(X & [->|HX]%elem_of_cons & HxX)|?]; [|left; eauto|by right].
  exfalso. apply Hfs. by apply elem_of_elements.
Qed.

(** [state_to_class_fs] maps a state to a class that contains it, and
    it has an entry for every state of every class. *)
Lemma mapa_classes_lookup C x X :
  mapa_classes C !! x = Some X → X ∈ C ∧ x ∈ X.
Proof.
  unfold mapa_classes. intros [[HX ?]|Hm]%mapa_classes_loop.
  - split; [by apply elem_of_elements|done].
  - by rewrite lookup_empty in Hm.
Qed.

Lemma mapa_classes_some C x X :
  X ∈ C → x ∈ X → is_Some (mapa_classes C !! x).
Proof.
  intros HX Hx. apply mapa_classes_loop_some. left. exists X.
  split; [by apply elem_of_elements|done].
Qed.

Lemma get_trans_insert {St} `{Countable St} (mt : gmap St (gmap string St))
    (C C' : St) (s s' : string) (D : St) :
  get_trans (<[C := <[s := D]> (default ∅ (mt !! C))]> mt) C' s'
  = if decide (C' = C ∧ s' = s) then Some D else get_trans mt C' s'.
Proof.
  unfold get_trans. destruct (decide (C' = C)) as [->|HC].
  - rewrite lookup_insert_eq. simpl. destruct (decide (s' = s)) as [->|Hs].
    + rewrite lookup_insert_eq. by rewrite decide_True.
    + rewrite lookup_insert_ne by done. rewrite decide_False; [done|tauto].
  - rewrite lookup_insert_ne by done. rewrite decide_False; [done|tauto].
Qed.

Section Construcao.

Variable pick : gset string → string.
Variable afd : AFD string.
Variable R : gset string.
Variable stc : gmap string (gset string).
Hypothesis stc_total : ∀ d, d ∈ R → is_Some (stc !! d).

Lemma preencher_transicao_spec C s
    (mt : gmap (gset string) (gmap string (gset string))) :
  ∃ mt1,
    preencher_transicao afd R stc C (pick C) mt s = Some mt1 ∧
    (∀ C' s', get_trans mt1 C' s'
              = if decide (C' = C ∧ s' = s ∧
                           is_Some (destino_min pick afd R stc C s'))
                then destino_min pick afd R stc C s'
                else get_trans mt C' s') ∧
    (∀ C', is_Some (mt1 !! C') → C' = C ∨ is_Some (mt !! C')).
Proof.
  unfold preencher_transicao.
  destruct (destino_min pick afd R stc C s) as [D|] eqn:HD.
  - pose proof HD as HD0. unfold destino_min in HD.
    destruct (get_trans (transicoes afd) (pick C) s) as [d|]; [|done].
    simpl in HD. destruct (decide (d ∈ R)); [|done]. rewrite HD. simpl.
    eexists. split_and!; [done| |].
    + intros C' s'. rewrite get_trans_insert.
      destruct (decide (C' = C ∧ s' = s)) as [[-> ->]|Hne].
      * rewrite HD0. rewrite decide_True; [done|]. split_and!; [done|done|eauto].
      * rewrite decide_False; [done|]. intros (? & ? & _). tauto.
    + intros C'. destruct (decide (C' = C)) as [->|HC]; [by left|].
      rewrite lookup_insert_ne by done. by right.
  - assert (preencher_transicao afd R stc C (pick C) mt s = Some mt) as Heq.
    { unfold preencher_transicao, destino_min in *.
      destruct (get_trans (transicoes afd) (pick C) s) as [d|]; [|done].
      simpl in HD. destruct (decide (d ∈ R)) as [HdR|]; [|done].
      destruct (stc_total d HdR) as [D HD']. congruence. }
    unfold preencher_transicao in Heq. rewrite Heq.
    exists mt. split_and!; [done| |by right]. intros C' s'.
    rewrite decide_False; [done|]. intros (_ & -> & Hsome).
    rewrite HD in Hsome. by destruct Hsome.
Qed.

Lemma construir_transicoes_inner C simbolos
    (mt : gmap (gset string) (gmap string (gset string))) :
  ∃ mt',
    foldl_opt (preencher_transicao afd R stc C (pick C)) mt simbolos = Some mt' ∧
    (∀ C' s', get_trans mt' C' s'
              = if decide (C' = C ∧ s' ∈ simbolos ∧
                           is_Some (destino_min pick afd R stc C s'))
                then destino_min pick afd R stc C s'
                else get_trans mt C' s') ∧
    (∀ C', is_Some (mt' !! C') → C' = C ∨ is_Some (mt !! C')).
Proof.
  revert mt. induction simbolos as [|s simbolos IH]; intros mt.
  { exists mt. simpl. split_and!; [done| |by right].
    intros C' s'. rewrite decide_False; [done|]. intros (_ & Hs & _).
    by apply elem_of_nil in Hs. }
  cbn [foldl_opt].
  destruct (preencher_transicao_spec C s mt) as (mt1 & -> & Hget1 & Hdom1).
  simpl. destruct (IH mt1) as (mt' & -> & Hget & Hdom).
  exists mt'. split_and!; [done| |].
  - intros C' s'. rewrite Hget, Hget1.
    destruct (decide (C' = C ∧ s' ∈ simbolos ∧
                      is_Some (destino_min pick afd R stc C s'))) as [(? & ? & ?)|Hn1].
    + rewrite decide_True; [done|]. split_and!; [done|by right|done].
    + destruct (decide (C' = C ∧ s' = s ∧
                        is_Some (destino_min pick afd R stc C s'))) as [(? & ? & ?)|Hn2].
      * rewrite decide_True; [done|]. split_and!; [done|subst; left|done].
      * rewrite decide_False; [done|].
        intros (? & [?|?]%elem_of_cons & ?); tauto.
  - intros C' [?|?]%Hdom; [by left|by apply Hdom1].
Qed.

(** The loop over the classes fills the table of [destino_min]. *)
Lemma construir_transicoes_loop classes
    (mt : gmap (gset string) (gmap string (gset string))) :
  ∃ mt',
    foldl_opt (λ min_transicoes fs_class,
                 let rep := pick fs_class in
                 foldl_opt (preencher_transicao afd R stc fs_class rep)
                           min_transicoes (elements (alfabeto afd)))
              mt classes = Some mt' ∧
    (∀ C s, get_trans mt' C s
            = if decide (C ∈ classes ∧ s ∈ alfabeto afd ∧
                         is_Some (destino_min pick afd R stc C s))
              then destino_min pick afd R stc C s
              else get_trans mt C s) ∧
    (∀ C, is_Some (mt' !! C) → C ∈ classes ∨ is_Some (mt !! C)).
Proof.
  revert mt. induction classes as [|C0 classes IH]; intros mt.
  { exists mt. cbn [foldl_opt]. split_and!; [done| |by right].
    intros C s. rewrite decide_False; [done|]. intros (HC & _).
    by apply elem_of_nil in HC. }
  cbn [foldl_opt].
  destruct (construir_transicoes_inner C0 (elements (alfabeto afd)) mt)
    as (mt1 & Hmt1 & Hget1 & Hdom1).
  destruct (IH mt1) as (mt' & Hmt' & Hget & Hdom).
  assert (foldl_opt (preencher_transicao afd R stc C0 (pick C0)) mt
            (elements (alfabeto afd)) ≫=
          (λ a', foldl_opt
                   (λ min_transicoes fs_class,
                      let rep := pick fs_class in
                      foldl_opt (preencher_transicao afd R stc fs_class rep)
                                min_transicoes (elements (alfabeto afd)))
                   a' classes) = Some mt') as Hrun
    by (by rewrite Hmt1).
  exists mt'. split_and!; [exact Hrun| |].
  - intros C s. rewrite Hget, Hget1.
    destruct (decide (C ∈ classes ∧ s ∈ alfabeto afd ∧
                      is_Some (destino_min pick afd R stc C s))) as [(? & ? & ?)|Hn1].
    + rewrite decide_True; [done|]. split_and!; [by right|done|done].
    + destruct (decide (C = C0 ∧ s ∈ elements (alfabeto afd) ∧
                        is_Some (destino_min pick afd R stc C0 s)))
        as [(-> & Hs%elem_of_elements & ?)|Hn2].
      * rewrite decide_True; [done|]. split_and!; [left|done|done].
      * rewrite decide_False; [done|].
        intros ([->|?]%elem_of_cons & ? & ?); [|tauto].
        apply Hn2. by rewrite elem_of_elements.
  - intros C [?|[->|?]%Hdom1]%Hdom; [left; by right|left; left|by right].
Qed.

Lemma construir_transicoes_spec (min_estados_fs : gset (gset string)) :
  ∃ mt,
    construir_transicoes pick afd R min_estados_fs stc = Some mt ∧
    (∀ C s, get_trans mt C s
            = if decide (C ∈ min_estados_fs ∧ s ∈ alfabeto afd)
              then destino_min pick afd R stc C s else None) ∧
    (∀ C, is_Some (mt !! C) → C ∈ min_estados_fs).
Proof.
  destruct (construir_transicoes_loop (elements min_estados_fs) ∅)
    as (mt & Hmt & Hget & Hdom).
  exists mt. split_and!; [exact Hmt| |].
  - intros C s. rewrite Hget.
    assert (get_trans (∅ : gmap (gset string) (gmap string (gset string))) C s
            = None) as ->.
    { unfold get_trans. rewrite lookup_empty. simpl. apply lookup_empty. }
    destruct (decide (C ∈ min_estados_fs ∧ s ∈ alfabeto afd)) as [[HC Hs]|Hn].
    + destruct (destino_min pick afd R stc C s) as [D|] eqn:HD.
      * rewrite decide_True; [done|].
        split_and!; [by apply elem_of_elements|done|eauto].
      * by destruct (decide _).
    + rewrite decide_False; [done|]. intros (HC%elem_of_elements & ? & _). tauto.
  - intros C [HC%elem_of_elements|HC]%Hdom; [done|].
    rewrite lookup_empty in HC. by destruct HC.
Qed.

End Construcao.

(** In a partition [state_to_class_fs] is the function that maps a
    state to its class. *)
Lemma mapa_classes_particao parent R C x X :
  dsu_ok parent → dom parent = R → particao parent R C →
  mapa_classes C !! x = Some X ↔ X ∈ C ∧ x ∈ X.
Proof.
  intros Hok Hdom Hpart. split; [apply mapa_classes_lookup|].
  intros [HX Hx]. destruct (mapa_classes_some C x X HX Hx) as [Y HY].
  rewrite HY. f_equal. apply mapa_classes_lookup in HY as [HY HxY].
  eapply particao_eq; [done..|]. apply mesma_classe_refl; [done|].
  rewrite Hdom. by eapply particao_sub.
Qed.

(** The construction never fails when the initial state is reachable:
    it ends with the result event, and the automaton of that event is
    built on the partition that the unions leave. *)
Lemma construir_spec pick (afd : AFD string) (R : gset string) pairs M Fa :
  inicial afd ∈ R → (∀ p q, (p, q) ∈ pairs → p ∈ R ∧ q ∈ R) →
  ∃ parent a,
    unir_nao_marcados M (DSU_init R) pairs = Some parent ∧
    dsu_ok parent ∧ dom parent = R ∧
    construir pick afd R pairs M Fa
      = Some [EvInfo InfoConstrucaoConcluida; EvResult a] ∧
    alfabeto a = alfabeto afd ∧
    particao parent R (estados a) ∧
    mapa_classes (estados a) !! inicial afd = Some (inicial a) ∧
    finais a = filter (λ fs, Exists (λ s, s ∈ Fa) (elements fs)) (estados a) ∧
    (∀ C s, get_trans (transicoes a) C s
            = if decide (C ∈ estados a ∧ s ∈ alfabeto afd)
              then destino_min pick afd R (mapa_classes (estados a)) C s
              else None) ∧
    (∀ C, is_Some (transicoes a !! C) → C ∈ estados a).
Proof.
  intros Hini Hpairs. unfold construir.
  destruct (unir_nao_marcados_spec M R pairs (DSU_init R))
    as (parent & Hunir & Hok & Hdom & _);
    [apply DSU_init_ok|apply DSU_init_dom|done|].
  rewrite Hunir. simpl.
  destruct (agrupar_spec parent R Hok Hdom) as (parent' & classes & -> & Hpart).
  simpl. set (C := (map_img classes : gset (gset string))) in *.
  destruct Hpart as (Hne & Hcl & Hcov).
  destruct (Hcov (inicial afd) Hini) as (X0 & HX0 & HiniX0).
  rewrite decide_False by set_solver.
  assert (mapa_classes C !! inicial afd = Some X0) as HstcI.
  { by apply (mapa_classes_particao parent R). }
  rewrite HstcI. simpl.
  destruct (construir_transicoes_spec pick afd R (mapa_classes C)) with
    (min_estados_fs := C) as (mt & -> & Hget & Hkeys).
  { intros d Hd. destruct (Hcov d Hd) as (X & HX & HdX).
    by eapply mapa_classes_some. }
  simpl. exists parent. eexists. split_and!; try done.
Qed.

(** ** The whole generator *)

(** [minimizar_afd] always returns.  Either the reachable set is empty
    (the initial state is not declared) and the run is the first info
    and an error, or the run goes through [k] marking passes and a
    last pass that marks nothing, and ends with the result. *)
Lemma minimizar_afd_spec pick (afd : AFD string) :
  ∃ R, _encontrar_estados_alcancaveis afd = Some R ∧
    (((R = ∅ ∨ inicial afd ∉ R) ∧
      ∃ e, minimizar_afd pick afd
           = Some [EvInfo InfoEncontrandoAlcancaveis; EvError e])
     ∨ (alcancaveis_spec afd R ∧
        ∃ k steps parent a,
          passo_marcacao afd (pares_de R) (marcados_apos afd R k) = ∅ ∧
          (∀ j, j < k →
             passo_marcacao afd (pares_de R) (marcados_apos afd R j) ≠ ∅) ∧
          Forall (λ e, is_step e = true) steps ∧ length steps = 2 * k ∧
          minimizar_afd pick afd = Some (eventos_sucesso afd R k steps a) ∧
          minimizado pick afd R (marcados_apos afd R k) parent a)).
Proof.
  destruct (_encontrar_estados_alcancaveis_total afd)
    as (R & HR & [(-> & He)|(Hini & Hspec)]).
  { exists ∅. split; [done|]. left. split; [by left|].
    exists ErroNenhumAlcancavel. unfold minimizar_afd. rewrite HR. simpl.
    by rewrite decide_True. }
  exists R. split; [done|]. right. split; [done|].
  pose proof Hspec as (HiniR & Hsub & _).
  unfold minimizar_afd. rewrite HR. cbn [mbind option_bind].
  rewrite decide_False by set_solver.
  rewrite decide_False by (intros Hn; by apply Hn).
  fold (pares_de R). fold (marcados_iniciais afd R).
  destruct (iteracao_spec afd (pares_de R) (S (length (pares_de R)))
              (marcados_iniciais afd R) 1) as (k & steps & -> & Hfix & Hprod & Hsteps & Hlen).
  { pose proof (nao_marcados_length (pares_de R) (marcados_iniciais afd R)). lia. }
  cbn [mbind option_bind]. rewrite <- !marcados_apos_iter in *.
  destruct (construir_spec pick afd R (pares_de R) (marcados_apos afd R k)
              (finais afd ∩ R)) as (parent & a & H1 & H2 & H3 & -> & H4).
  { done. }
  { intros p q Hpq. apply pares_de_elem in Hpq. tauto. }
  cbn [mbind option_bind]. exists k, steps, parent, a.
  split; [done|]. split.
  { intros j Hj. rewrite marcados_apos_iter. by apply Hprod. }
  split; [done|]. split; [done|]. split.
  { reflexivity. }
  unfold minimizado. tauto.
Qed.

(** C4: when the reachable set that [minimizar_afd] computes is empty,
    or does not hold the initial state, the run is the first info
    event followed by an error event and nothing else: no
    [step_table], no [step_update] and no [result]. *)
Theorem minimizar_afd_erro_imediato pick (afd : AFD string) (R : gset string) :
  _encontrar_estados_alcancaveis afd = Some R →
  R = ∅ ∨ inicial afd ∉ R →
  ∃ e evs,
    minimizar_afd pick afd = Some evs ∧
    evs = [EvInfo InfoEncontrandoAlcancaveis; EvError e] ∧
    Forall (λ ev, is_step ev = false ∧ is_result ev = false) evs.
Proof.
  intros HR Hguard. unfold minimizar_afd. rewrite HR. cbn [mbind option_bind].
  destruct (decide (R = ∅)) as [He|He].
  - eexists _, _. split_and!; [done|done|]. by repeat constructor.
  - destruct Hguard as [?|Hini]; [done|].
    rewrite decide_True by done.
    eexists _, _. split_and!; [done|done|]. by repeat constructor.
Qed.

Lemma minimizar_afd_erro_imediato_witness :
  ∃ e, minimizar_afd pick_first afd_sem_estados
       = Some [EvInfo InfoEncontrandoAlcancaveis; EvError e].
Proof.
  destruct (minimizar_afd_erro_imediato pick_first afd_sem_estados ∅)
    as (e & evs & Hrun & -> & _).
  - vm_compute. reflexivity.
  - left. reflexivity.
  - exists e. exact Hrun.
Defined.

(** C9: every run of [minimizar_afd] ends, and its events are a
    sequence without terminal event followed by one terminal event, a
    [result] or an [error], which is therefore the last and the only
    one. *)
Theorem minimizar_afd_um_terminal pick (afd : AFD string) :
  ∃ pre t,
    minimizar_afd pick afd = Some (pre ++ [t]) ∧
    is_terminal t = true ∧
    Forall (λ e, is_terminal e = false) pre.
Proof.
  destruct (minimizar_afd_spec pick afd)
    as (R & _ & [(_ & e & Hrun)|(_ & k & steps & parent & a & _ & _ & Hsteps & _ & Hrun & _)]).
  - exists [EvInfo InfoEncontrandoAlcancaveis], (EvError e).
    split_and!; [done|done|by repeat constructor].
  - eexists _, (EvResult a). split_and!; [|done|].
    + rewrite Hrun. unfold eventos_sucesso.
      rewrite !app_assoc.
      change [EvInfo InfoConstrucaoConcluida; EvResult a]
        with ([EvInfo InfoConstrucaoConcluida] ++ [EvResult a]).
      rewrite !app_assoc. reflexivity.
    + repeat (apply Forall_app; split); try by repeat constructor.
      * destruct (decide _); by repeat constructor.
      * eapply Forall_impl; [exact Hsteps|]. by intros [].
Qed.

Lemma eventos_sucesso_result afd R k steps a a' :
  Forall (λ e, is_step e = true) steps →
  EvResult a' ∈ eventos_sucesso afd R k steps a → a' = a.
Proof.
  intros Hsteps. unfold eventos_sucesso.
  change [EvInfo InfoConstrucaoConcluida; EvResult a]
    with ([EvInfo InfoConstrucaoConcluida] ++ [EvResult a]).
  rewrite !app_assoc. intros [Hpre|Hlast]%elem_of_app.
  - exfalso. revert Hpre.
    assert (∀ l, Forall (λ e, is_result e = false) l → EvResult a' ∉ l) as Hno.
    { intros l Hl Hin. rewrite Forall_forall in Hl. by apply Hl in Hin. }
    apply Hno. repeat (apply Forall_app; split); try by repeat constructor.
    + destruct (decide _); by repeat constructor.
    + eapply Forall_impl; [exact Hsteps|]. by intros [].
  - apply list_elem_of_singleton in Hlast. by simplify_eq.
Qed.

(** The automaton of the result is consistent, whatever the input. *)
Lemma minimizado_consistente pick afd R M parent a :
  R ⊆ estados afd → minimizado pick afd R M parent a →
  consistente a ∧ alfabeto a = alfabeto afd ∧
  ∀ X, X ∈ estados a → X ≠ ∅ ∧ X ⊆ estados afd.
Proof.
  intros Hsub (_ & Hok & Hdom & Half & Hpart & Hini & Hfin & Hget & Hkeys).
  split_and!; [split_and!| |].
  - by apply mapa_classes_lookup in Hini as [? _].
  - rewrite Hfin. intros X HX. by apply elem_of_filter in HX as [_ ?].
  - intros C m Hm. split; [apply Hkeys; eauto|].
    intros s D Hs. specialize (Hget C s).
    unfold get_trans at 1 in Hget. rewrite Hm in Hget. simpl in Hget.
    rewrite Hs in Hget.
    destruct (decide (C ∈ estados a ∧ s ∈ alfabeto afd)) as [[_ HsA]|]; [|done].
    split; [by rewrite Half|].
    unfold destino_min in Hget.
    destruct (get_trans (transicoes afd) (pick C) s) as [d|]; [|done].
    simpl in Hget. destruct (decide (d ∈ R)); [|done].
    symmetry in Hget. by apply mapa_classes_lookup in Hget as [? _].
  - done.
  - intros X HX. split.
    + destruct Hpart as (Hne & _). destruct (Hne X HX) as [x Hx]. set_solver.
    + etrans; [|exact Hsub]. by eapply particao_sub.
Qed.

(** C10: for every input, valid or not, the run ends, and the
    automaton of a result event is consistent: its initial state is
    one of its states, its accepting states are among its states, every
    transition goes from one of its states, on a symbol of its
    alphabet, to one of its states; its alphabet is that of the input;
    and each of its states is a set of declared states of the input
    that is not empty. *)
Theorem resultado_consistente pick (afd : AFD string) :
  ∃ evs,
    minimizar_afd pick afd = Some evs ∧
    ∀ a, EvResult a ∈ evs →
      consistente a ∧ alfabeto a = alfabeto afd ∧
      ∀ X, X ∈ estados a → X ≠ ∅ ∧ X ⊆ estados afd.
Proof.
  destruct (minimizar_afd_spec pick afd)
    as (R & _ & [(_ & e & Hrun)
                |(Hspec & k & steps & parent & a & _ & _ & Hsteps & _ & Hrun & Hmin)]).
  - eexists. split; [exact Hrun|]. intros a Ha.
    apply elem_of_cons in Ha as [?|Ha]; [done|].
    apply list_elem_of_singleton in Ha. done.
  - eexists. split; [exact Hrun|]. intros a' Ha'.
    apply (eventos_sucesso_result _ _ _ _ _ _ Hsteps) in Ha' as ->.
    destruct Hspec as (_ & Hsub & _). by eapply minimizado_consistente.
Qed.

Lemma resultado_consistente_witness :
  ∃ evs a,
    minimizar_afd pick_first afd_exemplo = Some evs ∧ EvResult a ∈ evs ∧
    consistente a ∧ alfabeto a = alfabeto afd_exemplo.
Proof.
  destruct (resultado_consistente pick_first afd_exemplo) as (evs & Hrun & Hcons).
  assert (is_result <$> (minimizar_afd pick_first afd_exemplo ≫= last)
          = Some true) as Hlast.
  { vm_compute. reflexivity. }
  rewrite Hrun in Hlast. cbn [mbind option_bind] in Hlast.
  destruct (last evs) as [[| | |a|]|] eqn:Ha; try discriminate Hlast.
  apply last_Some in Ha as [pre ->].
  assert (EvResult a ∈ pre ++ [EvResult a]) as Hin.
  { apply elem_of_app. right. left. }
  exists (pre ++ [EvResult a]), a.
  destruct (Hcons a Hin) as (Hc & Ha & _).
  split; [exact Hrun|]. split; [exact Hin|]. split; [exact Hc|exact Ha].
Defined.

(** ** Valid automata: the table is an equivalence *)

Lemma distingue_sym afd M p q s : distingue afd M p q s → distingue afd M q p s.
Proof.
  intros (p' & q' & ? & ? & ? & ?). exists q', p'.
  split_and!; [done|done|done|by rewrite par_comm].
Qed.

(** What a pass does to a candidate pair, in either order. *)
Lemma apos_passo_par afd R M p q :
  p ∈ R → q ∈ R → p ≠ q →
  par p q ∈ apos_passo afd (pares_de R) M
  ↔ par p q ∈ M ∨ ∃ s, s ∈ alfabeto afd ∧ distingue afd M p q s.
Proof.
  intros Hp Hq Hne. unfold apos_passo.
  rewrite elem_of_union, passo_marcacao_spec. split.
  - intros [?|(p0 & q0 & Hpq & Heq & Hnm & s & Hs & Hd)]; [by left|right].
    exists s. split; [done|].
    apply par_eq in Heq as [[-> ->]|[-> ->]]; [done|by apply distingue_sym].
  - intros [?|(s & Hs & Hd)]; [by left|].
    destruct (decide (par p q ∈ M)) as [?|Hnm]; [by left|right].
    destruct (pares_de_total R p q Hp Hq Hne) as [Hpq|Hqp].
    + exists p, q. split_and!; [done..|]. by exists s.
    + exists q, p. split_and!; [done|apply par_comm|done|].
      exists s. split; [done|by apply distingue_sym].
Qed.

Lemma indistintos_sym M p q : indistintos M p q → indistintos M q p.
Proof. intros [->|?]; [by left|right]. by rewrite par_comm. Qed.

Lemma marcados_apos_mono afd R j k :
  j ≤ k → marcados_apos afd R j ⊆ marcados_apos afd R k.
Proof.
  induction 1 as [|k _ IH]; [done|]. simpl. set_solver.
Qed.

Section Valido.

Variable afd : AFD string.
Variable R : gset string.
Hypothesis Hcons : consistente afd.
Hypothesis Hcomp : completo afd.
Hypothesis HR : alcancaveis_spec afd R.

(** On the reachable set the transition function is total and stays
    in the set. *)
Lemma transicao_fechada p s :
  p ∈ R → s ∈ alfabeto afd →
  ∃ p', get_trans (transicoes afd) p s = Some p' ∧ p' ∈ R.
Proof.
  intros Hp Hs. destruct HR as (_ & Hsub & Hexp & _).
  destruct (Hcomp p s) as [p' Hp']; [by apply Hsub|done|].
  exists p'. split; [done|]. apply (Hexp p Hp s p' Hs Hp').
  destruct Hcons as (_ & _ & Htr). unfold get_trans in Hp'.
  destruct (transicoes afd !! p) as [m|] eqn:Hm; simpl in Hp';
    [|by rewrite lookup_empty in Hp'].
  by apply (Htr p m Hm) in Hp' as [_ ?].
Qed.

(** Before the first pass the marked pairs are those of an accepting
    and a rejecting state. *)
Lemma indistintos_iniciais p q :
  p ∈ R → q ∈ R →
  indistintos (marcados_iniciais afd R) p q ↔ (p ∈ finais afd ↔ q ∈ finais afd).
Proof.
  intros Hp Hq. unfold indistintos, marcados_iniciais.
  rewrite marcacao_inicial_spec. split.
  - intros [->|Hnm]; [done|].
    destruct (decide (p ∈ finais afd)) as [Hpf|Hpf];
      destruct (decide (q ∈ finais afd)) as [Hqf|Hqf]; try tauto.
    + exfalso. apply Hnm. exists p, q. split_and!; [set_solver|set_solver| |done].
      by intros ->.
    + exfalso. apply Hnm. exists q, p.
      split_and!; [set_solver|set_solver| |apply par_comm]. by intros ->.
  - intros Hiff. destruct (decide (p = q)) as [|Hne]; [by left|right].
    intros (p' & q' & Hp' & Hq' & _ & [[-> ->]|[-> ->]]%par_eq); set_solver.
Qed.

(** After a pass two states are still together exactly when they were
    together and all their successors were. *)
Lemma indistintos_apos_passo M p q :
  so_pares R M → p ∈ R → q ∈ R →
  indistintos (apos_passo afd (pares_de R) M) p q
  ↔ indistintos M p q ∧
    ∀ s p' q', s ∈ alfabeto afd →
               get_trans (transicoes afd) p s = Some p' →
               get_trans (transicoes afd) q s = Some q' →
               indistintos M p' q'.
Proof.
  intros Hso Hp Hq. destruct (decide (p = q)) as [->|Hne].
  { split; [|by left]. intros _. split; [by left|].
    intros s p' q' _ Hp' Hq'. left. congruence. }
  unfold indistintos at 1 2.
  rewrite apos_passo_par by done. split.
  - intros [?|Hnm]; [done|]. split.
    + right. tauto.
    + intros s p' q' Hs Hp' Hq'.
      destruct (decide (indistintos M p' q')) as [|Hn]; [done|].
      exfalso. apply Hnm. right. exists s. split; [done|]. exists p', q'.
      split_and!; [done|done| |].
      * intros ->. apply Hn. by left.
      * destruct (decide (par p' q' ∈ M)); [done|]. exfalso. apply Hn. by right.
  - intros [[?|Hnm] Hsuc]; [done|]. right.
    intros [?|(s & Hs & p' & q' & Hp' & Hq' & Hne' & Hin)]; [done|].
    destruct (Hsuc s p' q' Hs Hp' Hq') as [?|?]; done.
Qed.

(** The table is transitive (so an equivalence) on the reachable
    states, after any number of passes. *)
Lemma indistintos_trans k p q r :
  p ∈ R → q ∈ R → r ∈ R →
  indistintos (marcados_apos afd R k) p q →
  indistintos (marcados_apos afd R k) q r →
  indistintos (marcados_apos afd R k) p r.
Proof.
  revert p q r. induction k as [|k IH]; intros p q r Hp Hq Hr.
  { simpl. rewrite !indistintos_iniciais by done. tauto. }
  change (marcados_apos afd R (S k))
    with (apos_passo afd (pares_de R) (marcados_apos afd R k)).
  rewrite !indistintos_apos_passo by (done || apply so_pares_apos).
  intros [Hpq Hpq'] [Hqr Hqr']. split; [by apply (IH p q r)|].
  intros s p' r' Hs Hp' Hr'.
  destruct (transicao_fechada q s Hq Hs) as (q' & Hq' & Hq'R).
  destruct (transicao_fechada p s Hp Hs) as (? & ? & Hp'R).
  destruct (transicao_fechada r s Hr Hs) as (? & ? & Hr'R).
  simplify_eq. apply (IH p' q' r'); eauto.
Qed.

End Valido.

Section ValidoMinimizado.

Variable pick : gset string → string.
Variable afd : AFD string.
Variable R : gset string.
Variable k : nat.
Variable parent : gmap string string.
Variable a : AFD (gset string).
Hypothesis pick_elem : ∀ X, X ≠ ∅ → pick X ∈ X.
Hypothesis Hcons : consistente afd.
Hypothesis Hcomp : completo afd.
Hypothesis HR : alcancaveis_spec afd R.
Hypothesis Hfix :
  passo_marcacao afd (pares_de R) (marcados_apos afd R k) = ∅.
Hypothesis Hmin : minimizado pick afd R (marcados_apos afd R k) parent a.

(** At the fixed point the table is a congruence. *)
Lemma indistintos_sucessores p q s p' q' :
  p ∈ R → q ∈ R → s ∈ alfabeto afd →
  indistintos (marcados_apos afd R k) p q →
  get_trans (transicoes afd) p s = Some p' →
  get_trans (transicoes afd) q s = Some q' →
  indistintos (marcados_apos afd R k) p' q'.
Proof.
  intros Hp Hq Hs Hpq Hp' Hq'.
  assert (apos_passo afd (pares_de R) (marcados_apos afd R k)
          = marcados_apos afd R k) as Heq.
  { unfold apos_passo. rewrite Hfix. set_solver. }
  rewrite <- Heq in Hpq.
  apply indistintos_apos_passo in Hpq as [_ Hsuc];
    [|apply so_pares_apos|done|done].
  by apply (Hsuc s).
Qed.

(** States that the table keeps together accept alike. *)
Lemma indistintos_finais p q :
  p ∈ R → q ∈ R → indistintos (marcados_apos afd R k) p q →
  p ∈ finais afd ↔ q ∈ finais afd.
Proof.
  intros Hp Hq Hpq. apply (proj1 (indistintos_iniciais afd R Hcons Hcomp HR p q Hp Hq)).
  destruct Hpq as [->|Hnm]; [by left|right].
  intros Hin. apply Hnm.
  apply (marcados_apos_mono afd R 0 k); [lia|done].
Qed.

(** The sets of the forest are the classes of the table. *)
Lemma mesma_classe_indistintos x y :
  mesma_classe parent x y
  ↔ x ∈ R ∧ y ∈ R ∧ indistintos (marcados_apos afd R k) x y.
Proof.
  pose proof Hmin as (Hunir & Hok & Hdom & _).
  destruct (unir_nao_marcados_spec (marcados_apos afd R k) R (pares_de R)
              (DSU_init R)) as (parent' & Hunir' & _ & _ & Hmono & Hcomp' & Hsound);
    [apply DSU_init_ok|apply DSU_init_dom| |].
  { intros p q Hpq. apply pares_de_elem in Hpq. tauto. }
  assert (parent' = parent) as -> by congruence.
  split.
  - apply (Hsound (λ x y, x ∈ R ∧ y ∈ R ∧
                          indistintos (marcados_apos afd R k) x y)).
    + intros x' y' (? & ? & ?). split_and!; [done|done|by apply indistintos_sym].
    + intros x' y' z' (? & ? & ?) (? & ? & ?). split_and!; [done|done|].
      by apply (indistintos_trans afd R Hcons Hcomp HR k x' y' z').
    + intros x' y' [? <-]%DSU_init_mesma_classe. split_and!; [done|done|by left].
    + intros p q Hpq Hnm. apply pares_de_elem in Hpq as (? & ? & ?).
      split_and!; [done|done|by right].
  - intros (Hx & Hy & [->|Hnm]).
    + apply mesma_classe_refl; [done|by rewrite Hdom].
    + destruct (decide (x = y)) as [->|Hne].
      { apply mesma_classe_refl; [done|by rewrite Hdom]. }
      destruct (pares_de_total R x y Hx Hy Hne) as [Hpq|Hqp].
      * by apply Hcomp'.
      * apply mesma_classe_sym, Hcomp'; [done|]. by rewrite par_comm.
Qed.

(** The class of a reachable state in the minimized automaton. *)
Lemma classe_de x :
  x ∈ R → ∃ X, X ∈ estados a ∧ x ∈ X ∧
               mapa_classes (estados a) !! x = Some X.
Proof.
  intros Hx. pose proof Hmin as (_ & Hok & Hdom & _ & Hpart & _).
  pose proof Hpart as (_ & _ & Hcov). destruct (Hcov x Hx) as (X & HX & HxX).
  exists X. split_and!; [done|done|].
  by apply (mapa_classes_particao parent R).
Qed.

(** One step of the two automata, from a state and its class. *)
Lemma passo_simulado p C s :
  p ∈ R → C ∈ estados a → p ∈ C → s ∈ alfabeto afd →
  ∃ p' C', get_trans (transicoes afd) p s = Some p' ∧
           get_trans (transicoes a) C s = Some C' ∧
           p' ∈ R ∧ C' ∈ estados a ∧ p' ∈ C'.
Proof.
  intros Hp HC HpC Hs.
  pose proof Hmin as (_ & Hok & Hdom & _ & Hpart & _ & _ & Hget & _).
  pose proof Hpart as (_ & Hcl & _).
  destruct (transicao_fechada afd R Hcons Hcomp HR p s Hp Hs) as (p' & Hp' & Hp'R).
  assert (pick C ∈ C) as HrC by (apply pick_elem; set_solver).
  assert (pick C ∈ R) as HrR
    by exact (particao_sub parent R (estados a) C Hdom Hpart HC _ HrC).
  destruct (transicao_fechada afd R Hcons Hcomp HR (pick C) s HrR Hs)
    as (d & Hd & HdR).
  destruct (classe_de d HdR) as (D & HD & HdD & Hstc).
  exists p', D. split_and!; [done| |done|done|].
  - rewrite Hget. rewrite decide_True by done.
    unfold destino_min. rewrite Hd. simpl. by rewrite decide_True.
  - apply (Hcl D d HD HdD p'). apply mesma_classe_indistintos.
    split_and!; [done|done|].
    apply (indistintos_sucessores (pick C) p s d p'); [done..| |done|done].
    apply mesma_classe_indistintos, mesma_classe_sym.
    by apply (Hcl C p HC HpC (pick C)).
Qed.

(** The runs of the two automata on a word over the alphabet, from a
    state and its class, end in a state and its class. *)
Lemma run_simulado w p C :
  Forall (λ s, s ∈ alfabeto afd) w →
  p ∈ R → C ∈ estados a → p ∈ C →
  ∃ p' C', run afd p w = Some p' ∧ run a C w = Some C' ∧
           p' ∈ R ∧ C' ∈ estados a ∧ p' ∈ C'.
Proof.
  revert p C. induction w as [|s w IH]; intros p C Hw Hp HC HpC.
  { exists p, C. by split_and!. }
  apply Forall_cons in Hw as [Hs Hw].
  destruct (passo_simulado p C s Hp HC HpC Hs)
    as (p1 & C1 & Hp1 & HC1 & Hp1R & HC1e & Hp1C1).
  destruct (IH p1 C1 Hw Hp1R HC1e Hp1C1) as (p' & C' & ? & ? & ? & ? & ?).
  exists p', C'. simpl. rewrite Hp1, HC1. by split_and!.
Qed.

(** A class accepts exactly when its states do. *)
Lemma classe_final p C :
  p ∈ R → C ∈ estados a → p ∈ C → C ∈ finais a ↔ p ∈ finais afd.
Proof.
  intros Hp HC HpC.
  pose proof Hmin as (_ & Hok & Hdom & _ & Hpart & _ & Hfin & _).
  pose proof Hpart as (_ & Hcl & _).
  rewrite Hfin, elem_of_filter, Exists_exists. split.
  - intros [(x & HxC%elem_of_elements & Hxf) _].
    apply (indistintos_finais x p); [set_solver|done| |set_solver].
    apply mesma_classe_indistintos. by apply (Hcl C x HC HxC p).
  - intros Hpf. split; [|done]. exists p. rewrite elem_of_elements.
    split; [done|set_solver].
Qed.

(** The initial class holds the initial state. *)
Lemma inicial_min : inicial a ∈ estados a ∧ inicial afd ∈ inicial a.
Proof.
  pose proof Hmin as (_ & _ & _ & _ & _ & Hini & _).
  by apply mapa_classes_lookup in Hini.
Qed.

(** The two automata accept the same words over the alphabet. *)
Lemma mesma_linguagem w :
  Forall (λ s, s ∈ alfabeto afd) w → accepts a w = accepts afd w.
Proof.
  intros Hw. destruct inicial_min as [HiniE HiniC].
  pose proof HR as (HiniR & _).
  destruct (run_simulado w (inicial afd) (inicial a) Hw HiniR HiniE HiniC)
    as (p' & C' & Hp' & HC' & Hp'R & HC'e & Hp'C').
  unfold accepts, accepts_from. rewrite Hp', HC'.
  apply bool_decide_ext. by apply classe_final.
Qed.

(** Every state of the minimized automaton is reached from its
    initial state. *)
Lemma estados_min_alcancaveis X :
  X ∈ estados a → ∃ w, Forall (λ s, s ∈ alfabeto a) w ∧
                       run a (inicial a) w = Some X.
Proof.
  intros HX. destruct inicial_min as [HiniE HiniC].
  pose proof HR as (HiniR & _ & _ & Hreach).
  pose proof Hmin as (_ & Hok & Hdom & Half & Hpart & _).
  pose proof Hpart as (Hne & _ & _).
  destruct (Hne X HX) as [x Hx].
  assert (x ∈ R) as HxR
    by exact (particao_sub parent R (estados a) X Hdom Hpart HX x Hx).
  destruct (Hreach x HxR) as (w & Hw & Hrun).
  destruct (run_simulado w (inicial afd) (inicial a) Hw HiniR HiniE HiniC)
    as (p' & C' & Hp' & HC' & Hp'R & HC'e & Hp'C').
  assert (p' = x) as -> by congruence.
  exists w. split; [by rewrite Half|]. rewrite HC'. f_equal.
  eapply (particao_eq parent R); [done..|].
  apply mesma_classe_refl; [done|by rewrite Hdom].
Qed.

End ValidoMinimizado.

Lemma pick_first_elem X : X ≠ ∅ → pick_first X ∈ X.
Proof.
  intros Hne. unfold pick_first. apply elem_of_elements.
  destruct (elements X) as [|x l] eqn:Hl; [|left].
  by apply elements_empty_inv, leibniz_equiv in Hl.
Qed.

(** The run on a consistent automaton: it does not stop at the guards. *)
Lemma minimizar_afd_consistente pick (afd : AFD string) :
  consistente afd →
  ∃ R k steps parent a,
    _encontrar_estados_alcancaveis afd = Some R ∧
    alcancaveis_spec afd R ∧
    passo_marcacao afd (pares_de R) (marcados_apos afd R k) = ∅ ∧
    (∀ j, j < k →
       passo_marcacao afd (pares_de R) (marcados_apos afd R j) ≠ ∅) ∧
    Forall (λ e, is_step e = true) steps ∧ length steps = 2 * k ∧
    minimizar_afd pick afd = Some (eventos_sucesso afd R k steps a) ∧
    minimizado pick afd R (marcados_apos afd R k) parent a.
Proof.
  intros (Hini & _).
  destruct (minimizar_afd_spec pick afd)
    as (R & HR & [(Hguard & _)
                 |(Hspec & k & steps & parent & a & ? & ? & ? & ? & ? & ?)]).
  - exfalso.
    destruct (_encontrar_estados_alcancaveis_total afd)
      as (R' & HR' & [(_ & [He|He])|(_ & HiniR & _)]).
    + set_solver.
    + done.
    + assert (R' = R) as -> by congruence. set_solver.
  - exists R, k, steps, parent, a. by split_and!.
Qed.

Lemma eventos_sucesso_last afd R k steps a :
  last (eventos_sucesso afd R k steps a) = Some (EvResult a).
Proof.
  unfold eventos_sucesso.
  change [EvInfo InfoConstrucaoConcluida; EvResult a]
    with ([EvInfo InfoConstrucaoConcluida] ++ [EvResult a]).
  rewrite !app_assoc. apply last_snoc.
Qed.

(** C1: for a valid automaton the run ends with a result event, and
    the automaton of that event accepts a word over the alphabet
    exactly when the input automaton does. *)
Theorem minimizado_mesma_linguagem pick (afd : AFD string) mensagens r :
  (∀ X, X ≠ ∅ → pick X ∈ X) →
  validar_afd afd = Some (true, mensagens, r) →
  ∃ evs a,
    minimizar_afd pick afd = Some evs ∧ last evs = Some (EvResult a) ∧
    ∀ w, Forall (λ s, s ∈ alfabeto afd) w → accepts a w = accepts afd w.
Proof.
  intros Hpick (_ & Hcons & Hcomp)%validar_afd_valido.
  destruct (minimizar_afd_consistente pick afd Hcons)
    as (R & k & steps & parent & a & _ & HR & Hfix & _ & _ & _ & Hrun & Hmin).
  exists (eventos_sucesso afd R k steps a), a.
  split_and!; [done|apply eventos_sucesso_last|].
  intros w Hw. by eapply mesma_linguagem.
Qed.

(** C2: for a valid automaton, two different reachable states have the
    same root in the forest that the unions leave, and lie in the same
    state of the minimized automaton, exactly when their pair is not
    in the marked set at the fixed point of the marking loop. *)
Theorem mesma_classe_sse_nao_marcado pick (afd : AFD string) mensagens r :
  validar_afd afd = Some (true, mensagens, r) →
  ∃ R k steps parent a,
    _encontrar_estados_alcancaveis afd = Some R ∧
    minimizar_afd pick afd = Some (eventos_sucesso afd R k steps a) ∧
    passo_marcacao afd (pares_de R) (marcados_apos afd R k) = ∅ ∧
    unir_nao_marcados (marcados_apos afd R k) (DSU_init R) (pares_de R)
      = Some parent ∧
    particao parent R (estados a) ∧
    ∀ p q, p ∈ R → q ∈ R → p ≠ q →
      (mesma_classe parent p q ↔ par p q ∉ marcados_apos afd R k) ∧
      ((∃ X, X ∈ estados a ∧ p ∈ X ∧ q ∈ X)
       ↔ par p q ∉ marcados_apos afd R k).
Proof.
  intros (_ & Hcons & Hcomp)%validar_afd_valido.
  destruct (minimizar_afd_consistente pick afd Hcons)
    as (R & k & steps & parent & a & HRe & HR & Hfix & _ & _ & _ & Hrun & Hmin).
  exists R, k, steps, parent, a.
  pose proof Hmin as (Hunir & Hok & Hdom & _ & Hpart & _).
  split_and!; [done..|].
  intros p q Hp Hq Hne.
  assert (mesma_classe parent p q ↔ par p q ∉ marcados_apos afd R k) as Hiff.
  { rewrite (mesma_classe_indistintos pick afd R k parent a Hcons Hcomp HR Hmin).
    unfold indistintos. tauto. }
  split; [done|]. rewrite <- Hiff.
  pose proof Hpart as (_ & Hcl & Hcov). split.
  - intros (X & HX & HpX & HqX). by apply (Hcl X p HX HpX q).
  - intros Hpq. destruct (Hcov p Hp) as (X & HX & HpX).
    exists X. split_and!; [done|done|]. by apply (Hcl X p HX HpX q).
Qed.

(** C3: for a valid automaton the run ends with a result event, and
    every state of the automaton of that event is reached from its
    initial state by a word over its alphabet along its own
    transitions. *)
Theorem minimizado_sem_estados_mortos pick (afd : AFD string) mensagens r :
  (∀ X, X ≠ ∅ → pick X ∈ X) →
  validar_afd afd = Some (true, mensagens, r) →
  ∃ evs a,
    minimizar_afd pick afd = Some evs ∧ last evs = Some (EvResult a) ∧
    ∀ X, X ∈ estados a →
      ∃ w, Forall (λ s, s ∈ alfabeto a) w ∧ run a (inicial a) w = Some X.
Proof.
  intros Hpick (_ & Hcons & Hcomp)%validar_afd_valido.
  destruct (minimizar_afd_consistente pick afd Hcons)
    as (R & k & steps & parent & a & _ & HR & Hfix & _ & _ & _ & Hrun & Hmin).
  exists (eventos_sucesso afd R k steps a), a.
  split_and!; [done|apply eventos_sucesso_last|].
  intros X HX. by eapply estados_min_alcancaveis.
Qed.

Lemma afd_exemplo_valido :
  ∃ mensagens r, validar_afd afd_exemplo = Some (true, mensagens, r).
Proof.
  assert ((λ v, v.1.1) <$> validar_afd afd_exemplo = Some true) as Hv
    by (vm_compute; reflexivity).
  destruct (validar_afd afd_exemplo) as [[[[] mensagens] r]|]; try discriminate Hv.
  by exists mensagens, r.
Qed.

Lemma minimizado_mesma_linguagem_witness :
  ∃ evs a,
    minimizar_afd pick_first afd_exemplo = Some evs ∧
    last evs = Some (EvResult a) ∧
    accepts a ["a"; "b"]%string = accepts afd_exemplo ["a"; "b"]%string.
Proof.
  destruct afd_exemplo_valido as (mensagens & r & Hv).
  destruct (minimizado_mesma_linguagem pick_first afd_exemplo mensagens r
              pick_first_elem Hv) as (evs & a & Hrun & Hlast & Hlang).
  exists evs, a. split; [exact Hrun|]. split; [exact Hlast|].
  apply Hlang. repeat constructor; calcula.
Defined.

Lemma mesma_classe_sse_nao_marcado_witness :
  ∃ R k parent,
    _encontrar_estados_alcancaveis afd_exemplo = Some R ∧
    unir_nao_marcados (marcados_apos afd_exemplo R k) (DSU_init R) (pares_de R)
      = Some parent ∧
    (mesma_classe parent "E" "F"
     ↔ par "E" "F" ∉ marcados_apos afd_exemplo R k).
Proof.
  destruct afd_exemplo_valido as (mensagens & r & Hv).
  destruct (mesma_classe_sse_nao_marcado pick_first afd_exemplo mensagens r Hv)
    as (R & k & steps & parent & a & HR & _ & _ & Hunir & _ & Hiff).
  exists R, k, parent. split; [exact HR|]. split; [exact Hunir|].
  assert (bool_decide ("E"%string ∈ R ∧ "F"%string ∈ R) = true) as Hin.
  { assert ((λ R, bool_decide ("E"%string ∈ R ∧ "F"%string ∈ R))
              <$> _encontrar_estados_alcancaveis afd_exemplo = Some true) as Hc
      by (vm_compute; reflexivity).
    rewrite HR in Hc. by injection Hc. }
  apply bool_decide_eq_true in Hin as [HE HF].
  apply (Hiff "E"%string "F"%string HE HF). discriminate.
Defined.

Lemma minimizado_sem_estados_mortos_witness :
  ∃ evs a w,
    minimizar_afd pick_first afd_exemplo = Some evs ∧
    last evs = Some (EvResult a) ∧
    run a (inicial a) w = Some (inicial a).
Proof.
  destruct afd_exemplo_valido as (mensagens & r & Hv).
  destruct (minimizado_sem_estados_mortos pick_first afd_exemplo mensagens r
              pick_first_elem Hv) as (evs & a & Hrun & Hlast & Hreach).
  assert (inicial a ∈ estados a) as Hini.
  { assert ((λ evs, match last evs with
                    | Some (EvResult a) => bool_decide (inicial a ∈ estados a)
                    | _ => false
                    end) <$> minimizar_afd pick_first afd_exemplo = Some true) as Hc
      by (vm_compute; reflexivity).
    rewrite Hrun in Hc. cbn [fmap option_fmap option_map] in Hc.
    rewrite Hlast in Hc. injection Hc as Hc. by apply bool_decide_eq_true in Hc. }
  destruct (Hreach (inicial a) Hini) as (w & _ & Hw).
  exists evs, a, w. split; [exact Hrun|]. split; [exact Hlast|exact Hw].
Defined.

(** ** Valid automata: the number of passes *)

Section Passos.

Variable afd : AFD string.
Variable R : gset string.
Hypothesis Hcons : consistente afd.
Hypothesis Hcomp : completo afd.
Hypothesis HR : alcancaveis_spec afd R.

(** A separated set grows to one that has a partner for every
    reachable state. *)
Lemma separado_maximal M T :
  separado M T → T ⊆ R →
  ∃ T', T ⊆ T' ∧ T' ⊆ R ∧ separado M T' ∧
        ∀ x, x ∈ R → ∃ s, s ∈ T' ∧ indistintos M x s.
Proof.
  intros HS HSR.
  assert (∀ (l : list string) T, separado M T → T ⊆ R → (∀ x, x ∈ l → x ∈ R) →
            ∃ T', T ⊆ T' ∧ T' ⊆ R ∧ separado M T' ∧
                  ∀ x, x ∈ l → ∃ s, s ∈ T' ∧ indistintos M x s) as Hlist.
  { clear T HS HSR. induction l as [|x l IH]; intros T HS HSR Hl.
    { exists T. split_and!; [done|done|done|]. intros x Hx.
      by apply elem_of_nil in Hx. }
    assert (x ∈ R) as Hx by (apply Hl; left).
    assert (∀ y, y ∈ l → y ∈ R) as Hl' by (intros y Hy; apply Hl; by right).
    destruct (decide (set_Exists (λ s, indistintos M x s) T)) as [(s & Hs & Hxs)|Hno].
    - destruct (IH T HS HSR Hl') as (T' & HSS' & HS'R & HS' & Hcov).
      exists T'. split_and!; [done|done|done|].
      intros y [->|Hy]%elem_of_cons; [|by apply Hcov].
      exists s. split; [by apply HSS'|done].
    - destruct (IH ({[x]} ∪ T)) as (T' & HSS' & HS'R & HS' & Hcov); [| |done|].
      + assert (∀ s, s ∈ T → x ≠ s ∧ par x s ∈ M) as Hsep.
        { intros s Hs. split.
          - intros ->. apply Hno. exists s. split; [done|by left].
          - destruct (decide (par x s ∈ M)); [done|].
            exfalso. apply Hno. exists s. split; [done|by right]. }
        intros y z [->%elem_of_singleton|Hy]%elem_of_union
                   [->%elem_of_singleton|Hz]%elem_of_union Hne.
        * done.
        * by apply Hsep.
        * rewrite par_comm. by apply Hsep.
        * by apply HS.
      + set_solver.
      + exists T'. split_and!; [set_solver|done|done|].
        intros y [->|Hy]%elem_of_cons; [|by apply Hcov].
        exists x. split; [set_solver|by left]. }
  destruct (Hlist (elements R) T HS HSR) as (T' & ? & ? & ? & Hcov).
  { intros x. by rewrite elem_of_elements. }
  exists T'. split_and!; [done|done|done|].
  intros x Hx. apply Hcov. by rewrite elem_of_elements.
Qed.

(** A pass that marks a pair makes room for one more state in a
    separated set. *)
Lemma separado_passo j T :
  separado (marcados_apos afd R j) T → T ⊆ R →
  passo_marcacao afd (pares_de R) (marcados_apos afd R j) ≠ ∅ →
  ∃ T', T' ⊆ R ∧ separado (marcados_apos afd R (S j)) T' ∧
        size T + 1 ≤ size T'.
Proof.
  intros HS HSR Hne.
  set (M := marcados_apos afd R j) in *.
  set (M' := marcados_apos afd R (S j)).
  assert (M ⊆ M') as HMM' by (apply marcados_apos_mono; lia).
  apply set_choose_L in Hne as (X & HX).
  assert (X ∈ M') as HXM' by (subst M'; simpl; set_solver).
  apply passo_marcacao_spec in HX as (p & q & Hpq & -> & Hnm & _).
  apply pares_de_elem in Hpq as (Hp & Hq & Hpq).
  destruct (separado_maximal M T HS HSR) as (T' & HSS' & HS'R & HS' & Hcov).
  destruct (Hcov p Hp) as (s & Hs & Hps).
  assert (s ∈ R) as HsR by (by apply HS'R).
  assert (∃ t, t ∈ R ∧ indistintos M s t ∧ s ≠ t ∧ par s t ∈ M') as
    (t & Ht & Hst & Hnst & HstM').
  { destruct (decide (indistintos M' s p)) as [Hsp|Hsp].
    - exists q. split; [done|].
      assert (¬ indistintos M' s q) as Hsq.
      { intros Hsq.
        assert (indistintos M' p q) as [?|?]; [|done|done].
        apply (indistintos_trans afd R Hcons Hcomp HR (S j) p s q);
          [done|done|done|by apply indistintos_sym|done]. }
      split_and!.
      + apply (indistintos_trans afd R Hcons Hcomp HR j s p q);
          [done|done|done|by apply indistintos_sym|by right].
      + intros ->. apply Hsq. by left.
      + destruct (decide (par s q ∈ M')); [done|]. exfalso. apply Hsq. by right.
    - exists p. split; [done|]. split_and!.
      + by apply indistintos_sym.
      + intros ->. apply Hsp. by left.
      + destruct (decide (par s p ∈ M')); [done|]. exfalso. apply Hsp. by right. }
  assert (t ∉ T') as HtS'.
  { intros HtS'. destruct Hst as [?|Hst]; [done|]. apply Hst. by apply HS'. }
  exists ({[t]} ∪ T'). split_and!.
  - set_solver.
  - assert (∀ y, y ∈ T' → par t y ∈ M') as Hty.
    { intros y Hy. destruct (decide (y = s)) as [->|Hys].
      - by rewrite par_comm.
      - apply HMM'. destruct (decide (par t y ∈ M)) as [|Hn]; [done|].
        exfalso.
        assert (indistintos M y s) as [?|Hys']; [|done|].
        + apply (indistintos_trans afd R Hcons Hcomp HR j y t s);
            [by apply HS'R|done|done| |by apply indistintos_sym].
          right. by rewrite par_comm.
        + apply Hys'. by apply HS'. }
    intros y z [->%elem_of_singleton|Hy]%elem_of_union
               [->%elem_of_singleton|Hz]%elem_of_union Hne.
    + done.
    + by apply Hty.
    + rewrite par_comm. by apply Hty.
    + by apply HMM', HS'.
  - rewrite size_union by set_solver. rewrite size_singleton.
    apply subseteq_size in HSS'. lia.
Qed.

(** After [j] marking passes some [j + 2] states are pairwise marked. *)
Lemma separado_apos j :
  marcados_iniciais afd R ≠ ∅ →
  (∀ i, i < j →
     passo_marcacao afd (pares_de R) (marcados_apos afd R i) ≠ ∅) →
  ∃ T, T ⊆ R ∧ separado (marcados_apos afd R j) T ∧ j + 2 ≤ size T.
Proof.
  intros HM0. induction j as [|j IH]; intros Hprod.
  - apply set_choose_L in HM0 as (X & HX).
    destruct (so_pares_iniciais afd R X HX) as (p & q & Hp & Hq & Hne & ->).
    exists {[p; q]}. split_and!.
    + set_solver.
    + intros x y [->%elem_of_singleton| ->%elem_of_singleton]%elem_of_union
                 [->%elem_of_singleton| ->%elem_of_singleton]%elem_of_union Hxy;
        [done|done|by rewrite par_comm|done].
    + rewrite size_union by set_solver. by rewrite !size_singleton.
  - destruct IH as (T0 & HS0R & HS0 & Hsz); [intros i Hi; apply Hprod; lia|].
    destruct (separado_passo j T0 HS0 HS0R) as (T' & HS'R & HS' & Hsz');
      [apply Hprod; lia|].
    exists T'. split_and!; [done|done|lia].
Qed.

(** The number of marking passes on a valid automaton. *)
Lemma passos_produtivos k :
  (∀ i, i < k →
     passo_marcacao afd (pares_de R) (marcados_apos afd R i) ≠ ∅) →
  k = 0 ∨ k + 2 ≤ size R.
Proof.
  intros Hprod. destruct k as [|k]; [by left|right].
  assert (marcados_iniciais afd R ≠ ∅) as HM0.
  { intros HM0. apply (Hprod 0); [lia|]. simpl. rewrite HM0.
    apply set_eq. intros X. split; [|set_solver].
    intros (p & q & _ & _ & _ & s & _ & p' & q' & _ & _ & _ & Hin)%passo_marcacao_spec.
    set_solver. }
  destruct (separado_apos (S k) HM0 Hprod) as (T0 & HS0R & _ & Hsz).
  apply subseteq_size in HS0R. lia.
Qed.

End Passos.

Lemma numero_de_passos_sucesso afd R k steps a :
  Forall (λ e, is_step e = true) steps →
  numero_de_passos (eventos_sucesso afd R k steps a) = Some (1 + k).
Proof.
  intros Hsteps. unfold eventos_sucesso.
  assert (numero_de_passos
            ((steps ++ [EvInfo (InfoNenhumaNovaMarcacao (1 + k))]) ++
             [EvInfo InfoSeparador; EvInfo InfoConstruindo] ++
             [EvInfo InfoConstrucaoConcluida; EvResult a]) = Some (1 + k)) as Hn.
  { induction Hsteps as [|e steps He _ IH]; [done|].
    by destruct e as [[]| | | |]. }
  destruct (decide (size R < size (estados afd))); exact Hn.
Qed.

(** C8 (as amended): on a valid automaton the loop of the passes ends
    after at most [|R| - 1] passes when there are two or more
    reachable states, and after its single pass when there is one;
    the pass that marks nothing counts. *)
Theorem passos_limitados pick (afd : AFD string) mensagens r :
  validar_afd afd = Some (true, mensagens, r) →
  ∃ R evs n,
    _encontrar_estados_alcancaveis afd = Some R ∧
    minimizar_afd pick afd = Some evs ∧
    numero_de_passos evs = Some n ∧
    (2 ≤ size R → n ≤ size R - 1) ∧ (size R = 1 → n = 1).
Proof.
  intros (_ & Hcons & Hcomp)%validar_afd_valido.
  destruct (minimizar_afd_consistente pick afd Hcons)
    as (R & k & steps & parent & a & HRe & HR & _ & Hprod & Hsteps & _ & Hrun & _).
  exists R, (eventos_sucesso afd R k steps a), (1 + k).
  split_and!; [done|done|by apply numero_de_passos_sucesso| |];
    destruct (passos_produtivos afd R Hcons Hcomp HR k Hprod); lia.
Qed.

Lemma passos_limitados_witness :
  ∃ R evs n,
    _encontrar_estados_alcancaveis afd_exemplo = Some R ∧
    minimizar_afd pick_first afd_exemplo = Some evs ∧
    numero_de_passos evs = Some n ∧ n ≤ size R - 1.
Proof.
  destruct afd_exemplo_valido as (mensagens & r & Hv).
  destruct (passos_limitados pick_first afd_exemplo mensagens r Hv)
    as (R & evs & n & HR & Hrun & Hn & Hle & _).
  exists R, evs, n. split; [exact HR|]. split; [exact Hrun|]. split; [exact Hn|].
  apply Hle.
  assert ((λ R, bool_decide (2 ≤ size R))
            <$> _encontrar_estados_alcancaveis afd_exemplo = Some true) as Hc
    by (vm_compute; reflexivity).
  rewrite HR in Hc. injection Hc as Hc. by apply bool_decide_eq_true in Hc.
Defined.

(** C8, as stated, fails.  On the valid automaton [afd_um_estado], with
    one reachable state, the loop makes one pass, which is more than
    [|R| - 1 = 0]; on the incomplete automaton [afd_cadeia], with five
    reachable states, it makes seven passes, six of which mark a
    pair. *)
Lemma passos_excedem_limite :
  (∃ mensagens r R n,
     validar_afd afd_um_estado = Some (true, mensagens, r) ∧
     _encontrar_estados_alcancaveis afd_um_estado = Some R ∧
     minimizar_afd pick_first afd_um_estado ≫= numero_de_passos = Some n ∧
     ¬ n ≤ size R - 1) ∧
  (∃ R n,
     _encontrar_estados_alcancaveis afd_cadeia = Some R ∧
     minimizar_afd pick_first afd_cadeia ≫= numero_de_passos = Some n ∧
     size R = 5 ∧ n = 7).
Proof.
  split.
  - exists [], (Some {["q0"%string]}), {["q0"%string]}, 1. split_and!.
    + vm_compute. reflexivity.
    + vm_compute. reflexivity.
    + vm_compute. reflexivity.
    + vm_compute. lia.
  - exists (list_to_set ["1"; "2"; "3"; "4"; "F"]%string), 7. split_and!.
    + vm_compute. reflexivity.
    + vm_compute. reflexivity.
    + vm_compute. reflexivity.
    + reflexivity.
Qed.

(** * Further properties of the code *)

(** ** The search, for every automaton *)

Lemma bfs_loop_inv (afd : AFD string) (P : string → Prop) fuel alc fila R :
  (∀ x s y, P x → s ∈ alfabeto afd →
            get_trans (transicoes afd) x s = Some y → y ∈ estados afd → P y) →
  (∀ x, x ∈ alc → P x) → (∀ x, x ∈ fila → P x) →
  bfs_loop fuel afd alc fila = Some R → ∀ x, x ∈ R → P x.
Proof.
  intros Hcl. revert alc fila.
  induction fuel as [|fuel IH]; intros alc fila Halc Hfila Hloop.
  - destruct fila; simpl in Hloop; [|done]. by simplify_eq.
  - destruct fila as [|x fila]; [simpl in Hloop; by simplify_eq|].
    cbn [bfs_loop] in Hloop.
    destruct (decide (x ∈ dom (transicoes afd))).
    + destruct (bfs_visit_fold afd x (elements (alfabeto afd)) alc fila)
        as (novos & Heq & _ & Hnovos & _).
      rewrite Heq in Hloop.
      assert (∀ y, y ∈ novos → P y) as HP.
      { intros y Hy. destruct (Hnovos y Hy) as (_ & Hest & s & Hs & Hxy).
        apply (Hcl x s y); [apply Hfila; left| |done|done].
        by apply elem_of_elements in Hs. }
      apply (IH (list_to_set novos ∪ alc) (fila ++ novos)); [| |done].
      * intros y [Hy|Hy]%elem_of_union; [|by apply Halc].
        apply HP. by apply elem_of_list_to_set in Hy.
      * intros y [Hy|Hy]%elem_of_app; [|by apply HP]. apply Hfila. by right.
    + apply (IH alc fila); [done| |done]. intros y Hy. apply Hfila. by right.
Qed.

Lemma alcanca_declarado afd x : alcanca afd x → inicial afd ∈ estados afd.
Proof. by induction 1. Qed.

Lemma alcanca_fechado afd R x :
  inicial afd ∈ R → (∀ y, y ∈ R → expandido afd R y) → alcanca afd x → x ∈ R.
Proof.
  intros Hini Hexp. induction 1 as [|x s y _ IH Hs Hxy Hy]; [done|].
  by apply (Hexp x IH s y).
Qed.

(** The set that the search returns, whatever the automaton. *)
Lemma _encontrar_estados_alcancaveis_alcanca (afd : AFD string) :
  ∃ R, _encontrar_estados_alcancaveis afd = Some R ∧
       R ⊆ estados afd ∧ ∀ x, x ∈ R ↔ alcanca afd x.
Proof.
  destruct (_encontrar_estados_alcancaveis_total afd)
    as (R & HR & [(HRe & He)|(Hini & Hspec)]); exists R; (split; [done|]).
  - subst R. split; [set_solver|]. intros x. split; [set_solver|].
    intros Hx%alcanca_declarado. set_solver.
  - destruct Hspec as (HiniR & Hsub & Hexp & _). split; [done|].
    intros x. split; [|by apply alcanca_fechado].
    unfold _encontrar_estados_alcancaveis in HR.
    destruct (decide (estados afd = ∅ ∨ inicial afd ∉ estados afd));
      [set_solver|].
    intros Hx. eapply (bfs_loop_inv afd (alcanca afd)); [| | |exact HR|exact Hx].
    + intros x' s y. apply alcanca_passo.
    + intros x' ->%elem_of_singleton. by constructor.
    + intros x' ->%list_elem_of_singleton. by constructor.
Qed.

Lemma _encontrar_estados_alcancaveis_forma (afd : AFD string) :
  ∃ R, _encontrar_estados_alcancaveis afd = Some R ∧
       (∀ x, x ∈ R ↔ alcanca afd x) ∧
       R ⊆ estados afd ∧
       (inicial afd ∈ R ↔ inicial afd ∈ estados afd) ∧
       (R = ∅ ↔ inicial afd ∉ estados afd).
Proof.
  destruct (_encontrar_estados_alcancaveis_alcanca afd) as (R & HR & Hsub & Hiff).
  exists R. split_and!; [done|done|done| |].
  - rewrite Hiff. split; [apply alcanca_declarado|by constructor].
  - split.
    + intros -> Hini. apply (not_elem_of_empty (C:=gset string) (inicial afd)).
      apply Hiff. by constructor.
    + intros Hini. apply set_eq. intros x. split; [|set_solver].
      intros Hx%Hiff%alcanca_declarado. done.
Qed.

(** X1: [_encontrar_estados_alcancaveis] returns, for every automaton,
    exactly the states that the search can visit; they are declared
    states, the initial state is among them when it is declared, and
    the set is empty exactly when it is not. *)
Theorem encontrar_alcancaveis_exato (afd : AFD string) :
  ∃ R, _encontrar_estados_alcancaveis afd = Some R ∧
       (∀ x, x ∈ R ↔ alcanca afd x) ∧
       R ⊆ estados afd ∧
       (inicial afd ∈ R ↔ inicial afd ∈ estados afd) ∧
       (R = ∅ ↔ inicial afd ∉ estados afd).
Proof. apply _encontrar_estados_alcancaveis_forma. Qed.

(** For a consistent automaton the visited states are the states that
    a word over the alphabet reaches. *)
Lemma alcanca_alcancavel afd x :
  consistente afd → alcanca afd x ↔ alcancavel afd x.
Proof.
  intros Hco.
  destruct (_encontrar_estados_alcancaveis_total afd)
    as (R & HR & [(_ & He)|(Hini & Hspec)]).
  { destruct Hco as (Hini & _). set_solver. }
  destruct (_encontrar_estados_alcancaveis_alcanca afd) as (R' & HR' & _ & Hiff).
  assert (R' = R) as -> by congruence.
  rewrite <- Hiff. by apply alcancaveis_spec_iff.
Qed.

(** ** The validator, message by message *)

Section Mensagens.

Variable afd : AFD string.

Lemma consistencia_destino_elem origem l mensagens erros :
  ∃ novas,
    foldl (consistencia_destino afd origem) (mensagens, erros) l
      = (mensagens ++ novas, erros + length novas) ∧
    ∀ m, m ∈ novas ↔
      ∃ simbolo destino, (simbolo, destino) ∈ l ∧
        (m = ErroSimboloInvalido simbolo origem destino ∧ simbolo ∉ alfabeto afd
         ∨ m = ErroDestinoInvalido destino origem simbolo ∧ destino ∉ estados afd).
Proof.
  revert mensagens erros.
  induction l as [|[simbolo destino] l IH]; intros mensagens erros.
  { exists []. simpl. rewrite app_nil_r, Nat.add_0_r. split; [done|].
    intros m. split; [by intros ?%elem_of_nil|].
    by intros (? & ? & ?%elem_of_nil & _). }
  cbn [foldl].
  set (m1 := if decide (simbolo ∉ alfabeto afd)
             then [ErroSimboloInvalido simbolo origem destino] else []).
  set (m2 := if decide (destino ∉ estados afd)
             then [ErroDestinoInvalido destino origem simbolo] else []).
  assert (consistencia_destino afd origem (mensagens, erros) (simbolo, destino)
          = (mensagens ++ m1 ++ m2, erros + length (m1 ++ m2))) as ->.
  { unfold consistencia_destino. subst m1 m2.
    destruct (decide (simbolo ∉ alfabeto afd));
      destruct (decide (destino ∉ estados afd)); simpl;
      rewrite <- ?app_assoc, ?app_nil_r; simpl; f_equal; lia. }
  destruct (IH (mensagens ++ m1 ++ m2) (erros + length (m1 ++ m2)))
    as (novas & Heq & Hiff).
  exists (m1 ++ m2 ++ novas). split.
  - rewrite Heq, <- !app_assoc. f_equal. rewrite !length_app. lia.
  - intros m. rewrite !elem_of_app, Hiff. split.
    + intros [Hm|[Hm|(s & d & Hsd & Hm)]].
      * exists simbolo, destino. split; [left|]. left. subst m1.
        destruct (decide (simbolo ∉ alfabeto afd)); [|by apply elem_of_nil in Hm].
        by apply list_elem_of_singleton in Hm.
      * exists simbolo, destino. split; [left|]. right. subst m2.
        destruct (decide (destino ∉ estados afd)); [|by apply elem_of_nil in Hm].
        by apply list_elem_of_singleton in Hm.
      * exists s, d. split; [by right|done].
    + intros (s & d & [Heq'|Hsd]%elem_of_cons & Hm).
      * simplify_eq. destruct Hm as [[-> Hs]|[-> Hd]].
        -- left. subst m1. rewrite decide_True by done. by left.
        -- right. left. subst m2. rewrite decide_True by done. by left.
      * right. right. by exists s, d.
Qed.

Lemma consistencia_origem_elem l mensagens erros :
  ∃ novas,
    foldl (consistencia_origem afd) (mensagens, erros) l
      = (mensagens ++ novas, erros + length novas) ∧
    ∀ m, m ∈ novas ↔
      ∃ origem t, (origem, t) ∈ l ∧
        (m = ErroOrigemInvalida origem ∧ origem ∉ estados afd
         ∨ ∃ simbolo destino, t !! simbolo = Some destino ∧
             (m = ErroSimboloInvalido simbolo origem destino
                ∧ simbolo ∉ alfabeto afd
              ∨ m = ErroDestinoInvalido destino origem simbolo
                ∧ destino ∉ estados afd)).
Proof.
  revert mensagens erros.
  induction l as [|[origem t] l IH]; intros mensagens erros.
  { exists []. simpl. rewrite app_nil_r, Nat.add_0_r. split; [done|].
    intros m. split; [by intros ?%elem_of_nil|].
    by intros (? & ? & ?%elem_of_nil & _). }
  cbn [foldl].
  set (m1 := if decide (origem ∉ estados afd)
             then [ErroOrigemInvalida origem] else []).
  destruct (consistencia_destino_elem origem (map_to_list t)
              (mensagens ++ m1) (erros + length m1)) as (m2 & Heq2 & Hiff2).
  assert (consistencia_origem afd (mensagens, erros) (origem, t)
          = ((mensagens ++ m1) ++ m2, erros + length m1 + length m2)) as ->.
  { unfold consistencia_origem. rewrite <- Heq2. subst m1.
    destruct (decide (origem ∉ estados afd)); simpl;
      rewrite ?app_nil_r, ?Nat.add_0_r; [|done].
    by replace (erros + 1) with (S erros) by lia. }
  destruct (IH ((mensagens ++ m1) ++ m2) (erros + length m1 + length m2))
    as (novas & Heq & Hiff).
  exists (m1 ++ m2 ++ novas). split.
  - rewrite Heq, <- !app_assoc. f_equal. rewrite !length_app. lia.
  - intros m. rewrite !elem_of_app, Hiff, Hiff2. split.
    + intros [Hm|[(s & d & Hsd%elem_of_map_to_list & Hm)|(o & t' & Hot & Hm)]].
      * exists origem, t. split; [left|]. left. subst m1.
        destruct (decide (origem ∉ estados afd)); [|by apply elem_of_nil in Hm].
        by apply list_elem_of_singleton in Hm.
      * exists origem, t. split; [left|]. right. by exists s, d.
      * exists o, t'. split; [by right|done].
    + intros (o & t' & [Heq'|Hot]%elem_of_cons & Hm).
      * simplify_eq. destruct Hm as [[-> Ho]|(s & d & Hsd & Hm)].
        -- left. subst m1. rewrite decide_True by done. by left.
        -- right. left. exists s, d. by rewrite elem_of_map_to_list.
      * right. right. by exists o, t'.
Qed.

Lemma get_trans_Some (t : gmap string (gmap string string)) o s d :
  get_trans t o s = Some d ↔ ∃ m, t !! o = Some m ∧ m !! s = Some d.
Proof.
  unfold get_trans. split.
  - destruct (t !! o) as [m|]; simpl; [by exists m|].
    by rewrite lookup_empty.
  - by intros (m & -> & ?).
Qed.

(** The consistency check appends exactly the errors of the
    violations. *)
Lemma _verificar_consistencia_elem mensagens :
  ∃ novas,
    _verificar_consistencia afd mensagens
      = (bool_decide (novas = []), mensagens ++ novas) ∧
    (novas = [] ↔ consistente afd) ∧
    ∀ m, m ∈ novas ↔ violacao afd m.
Proof.
  destruct (_verificar_consistencia_spec afd mensagens) as (c & Hc & _ & Hciff).
  exists c. split; [done|]. split; [done|].
  revert Hc. unfold _verificar_consistencia.
  set (m1 := if decide (inicial afd ∉ estados afd)
             then [ErroInicialForaDeEstados (inicial afd) (estados afd)] else []).
  set (m2 := if decide (finais afd ∖ estados afd ≠ ∅)
             then [ErroFinaisInvalidos (finais afd ∖ estados afd) (estados afd)]
             else []).
  destruct (consistencia_origem_elem (map_to_list (transicoes afd))
              (mensagens ++ m1 ++ m2) (length (m1 ++ m2)))
    as (m3 & Hfold & Hiff3).
  assert (∀ b, (let '(mensagens0, erros_consistencia) :=
                   foldl (consistencia_origem afd)
                     (mensagens ++ m1 ++ m2, length (m1 ++ m2))
                     (map_to_list (transicoes afd)) in
                 (bool_decide (erros_consistencia = 0), mensagens0))
               = (b, mensagens ++ c) → c = m1 ++ m2 ++ m3) as Hgen.
  { intros b. rewrite Hfold. intros [= _ Heq].
    rewrite <- !app_assoc in Heq. by apply app_inv_head in Heq. }
  intros Hc. assert (c = m1 ++ m2 ++ m3) as ->.
  { apply (Hgen (bool_decide (c = []))). rewrite <- Hc. subst m1 m2.
    destruct (decide (inicial afd ∉ estados afd));
      destruct (decide (finais afd ∖ estados afd ≠ ∅)); simpl;
      rewrite <- ?app_assoc; simpl; rewrite ?app_nil_r; reflexivity. }
  clear Hc Hgen Hfold Hciff.
  intros m. rewrite !elem_of_app, Hiff3. split.
  - intros [Hm|[Hm|(o & t & Hot%elem_of_map_to_list & Hm)]].
    + subst m1. destruct (decide (inicial afd ∉ estados afd));
        [|by apply elem_of_nil in Hm].
      apply list_elem_of_singleton in Hm as ->. by simpl.
    + subst m2. destruct (decide (finais afd ∖ estados afd ≠ ∅));
        [|by apply elem_of_nil in Hm].
      apply list_elem_of_singleton in Hm as ->. by simpl.
    + destruct Hm as [[-> Ho]|(s & d & Hsd & [[-> Hs]|[-> Hd]])]; simpl.
      * split; [by eexists|done].
      * split; [|done]. apply get_trans_Some. by exists t.
      * split; [|done]. apply get_trans_Some. by exists t.
  - destruct m as [|i E|X E|o|s o d|d o s| | |]; simpl; try done.
    + intros (-> & -> & Hini). left. subst m1.
      rewrite decide_True by done. by left.
    + intros (-> & -> & Hne). right. left. subst m2.
      rewrite decide_True by done. by left.
    + intros ([t Ht] & Ho). right. right. exists o, t.
      rewrite elem_of_map_to_list. split; [done|]. by left.
    + intros ((t & Ht & Hsd)%get_trans_Some & Hs). right. right. exists o, t.
      rewrite elem_of_map_to_list. split; [done|]. right. exists s, d.
      split; [done|]. by left.
    + intros ((t & Ht & Hsd)%get_trans_Some & Hd). right. right. exists o, t.
      rewrite elem_of_map_to_list. split; [done|]. right. exists s, d.
      split; [done|]. by right.
Qed.

(** The messages of the completeness check, as a list. *)
Lemma determinismo_simbolo_lista estado l mensagens ok :
  foldl (determinismo_simbolo afd estado) (mensagens, ok) l
  = let novas :=
      s ← l;
      if decide (get_trans (transicoes afd) estado s = None)
      then [ErroTransicaoAusente estado s] else [] in
    (mensagens ++ novas, ok && bool_decide (novas = [])).
Proof.
  revert mensagens ok. induction l as [|s l IH]; intros mensagens ok.
  { simpl. by rewrite app_nil_r, andb_true_r. }
  cbn [foldl]. unfold determinismo_simbolo at 2.
  destruct (decide (transicoes afd !! estado = None ∨
                    default ∅ (transicoes afd !! estado) !! s = None))
    as [Hau|Hau]; rewrite transicao_ausente_iff in Hau; rewrite IH; cbn zeta;
    cbn [mbind list_bind]; rewrite ?(decide_True (P:=_ = None)) by done;
    rewrite ?(decide_False (P:=_ = None)) by done.
  - simpl. rewrite <- app_assoc. simpl. by rewrite andb_false_r.
  - done.
Qed.

Lemma determinismo_estados_lista l mensagens ok :
  foldl (λ st estado,
           foldl (determinismo_simbolo afd estado) st (elements (alfabeto afd)))
        (mensagens, ok) l
  = let novas :=
      e ← l; s ← elements (alfabeto afd);
      if decide (get_trans (transicoes afd) e s = None)
      then [ErroTransicaoAusente e s] else [] in
    (mensagens ++ novas, ok && bool_decide (novas = [])).
Proof.
  revert mensagens ok. induction l as [|e l IH]; intros mensagens ok.
  { simpl. by rewrite app_nil_r, andb_true_r. }
  cbn [foldl]. rewrite determinismo_simbolo_lista. cbn zeta. rewrite IH.
  cbn zeta. cbn [mbind list_bind].
  rewrite <- app_assoc, <- andb_assoc. f_equal. f_equal.
  match goal with |- _ = bool_decide (?a ++ ?b = []) =>
    destruct a, b; done end.
Qed.

(** The completeness check appends exactly one error for each missing
    transition. *)
Lemma _verificar_determinismo_elem mensagens :
  ∃ novas,
    _verificar_determinismo afd mensagens
      = (bool_decide (novas = []), mensagens ++ novas) ∧
    (novas = [] ↔ completo afd) ∧ NoDup novas ∧
    ∀ m, m ∈ novas ↔ ausencia afd m.
Proof.
  destruct (_verificar_determinismo_spec afd mensagens) as (d & Hd & _ & Hdiff).
  exists d. split; [done|]. split; [done|].
  revert Hd. unfold _verificar_determinismo.
  rewrite determinismo_estados_lista. cbn zeta.
  intros [= _ Heq%app_inv_head]. subst d. clear Hdiff. split.
  - apply NoDup_bind; [| |apply NoDup_elements].
    + intros e1 e2 m _ _ (s1 & Hm1 & _)%list_elem_of_bind
        (s2 & Hm2 & _)%list_elem_of_bind.
      destruct (decide _); [|by apply elem_of_nil in Hm1].
      destruct (decide _); [|by apply elem_of_nil in Hm2].
      apply list_elem_of_singleton in Hm1, Hm2. congruence.
    + intros e _. apply NoDup_bind; [| |apply NoDup_elements].
      * intros s1 s2 m _ _ Hm1 Hm2.
        destruct (decide _); [|by apply elem_of_nil in Hm1].
        destruct (decide _); [|by apply elem_of_nil in Hm2].
        apply list_elem_of_singleton in Hm1, Hm2. congruence.
      * intros s _. destruct (decide _); [apply NoDup_singleton|apply NoDup_nil_2].
  - intros m. rewrite list_elem_of_bind. split.
    + intros (e & (s & Hm & Hs%elem_of_elements)%list_elem_of_bind
                & He%elem_of_elements).
      destruct (decide _); [|by apply elem_of_nil in Hm].
      apply list_elem_of_singleton in Hm as ->. by simpl.
    + destruct m as [| | | | | |e s| |]; simpl; try done.
      intros (He & Hs & Hes). exists e. rewrite elem_of_elements. split; [|done].
      apply list_elem_of_bind. exists s. rewrite elem_of_elements.
      split; [|done]. rewrite decide_True by done. by left.
Qed.

(** The reachability check of the validator runs the search of
    [_encontrar_estados_alcancaveis]. *)
Lemma _verificar_alcancabilidade_encontrar mensagens :
  inicial afd ∈ estados afd →
  _verificar_alcancabilidade afd mensagens
  = (R ← _encontrar_estados_alcancaveis afd;
     Some (R, mensagens ++ aviso_de afd R)).
Proof.
  intros Hini. unfold _verificar_alcancabilidade, _encontrar_estados_alcancaveis.
  rewrite (decide_False (P:=estados afd = ∅)) by set_solver.
  rewrite (decide_False (P:=inicial afd ∉ estados afd)) by (intros Hn; by apply Hn).
  rewrite (decide_False (P:=estados afd = ∅ ∨ inicial afd ∉ estados afd))
    by set_solver.
  destruct (bfs_loop _ _ _ _) as [R|]; [|done]. simpl. unfold aviso_de.
  destruct (decide (estados afd ∖ R ≠ ∅)); [done|]. by rewrite app_nil_r.
Qed.

(** What [validar_afd] returns when the guard lets the automaton
    pass. *)
Lemma validar_afd_forma :
  ¬ vazio_ou_incompleto afd →
  ∃ c d R,
    (c = [] ↔ consistente afd) ∧ (∀ m, m ∈ c ↔ violacao afd m) ∧
    (d = [] ↔ completo afd) ∧ NoDup d ∧ (∀ m, m ∈ d ↔ ausencia afd m) ∧
    _encontrar_estados_alcancaveis afd = Some R ∧
    validar_afd afd
    = Some (bool_decide (c = []) && bool_decide (d = []),
            c ++ d ++ (if decide (inicial afd ∈ estados afd)
                       then aviso_de afd R else []),
            if decide (inicial afd ∈ estados afd) then Some R else None).
Proof.
  intros Hg. unfold validar_afd.
  rewrite decide_False by done.
  destruct (_verificar_consistencia_elem []) as (c & -> & Hciff & Hc).
  destruct (_verificar_determinismo_elem ([] ++ c)) as (d & -> & Hdiff & Hnd & Hd).
  destruct (_encontrar_estados_alcancaveis_forma afd) as (R & HR & _ & _ & HiniR & HRe).
  exists c, d, R. do 6 (split; [done|]).
  destruct (decide (inicial afd ∈ estados afd)) as [Hini|Hini].
  - rewrite (_verificar_alcancabilidade_encontrar _ Hini), HR. simpl.
    rewrite decide_False.
    2:{ intros [HRe' _]. by apply HRe in HRe'. }
    rewrite <- app_assoc.
    by destruct (bool_decide (c = [])), (bool_decide (d = [])).
  - simpl. rewrite app_nil_r.
    by destruct (bool_decide (c = [])), (bool_decide (d = [])).
Qed.

End Mensagens.

(** X2: the consistency check keeps the messages it was given, appends
    exactly the errors of the violations that the automaton has (each
    error names the initial state, the accepting states, the origin,
    the symbol or the destination that is not declared), and answers
    [True] exactly when it appended nothing, which is when the
    automaton is consistent. *)
Theorem verificar_consistencia_relata_violacoes (afd : AFD string)
    (mensagens : list mensagem) :
  ∃ novas,
    _verificar_consistencia afd mensagens
      = (bool_decide (novas = []), mensagens ++ novas) ∧
    (novas = [] ↔ consistente afd) ∧
    ∀ m, m ∈ novas ↔ violacao afd m.
Proof. apply _verificar_consistencia_elem. Qed.

(** X3: the completeness check keeps the messages it was given and
    appends one error, and only one, for each declared state and symbol
    of the alphabet without transition, and nothing else; it answers
    [True] exactly when the automaton is complete. *)
Theorem verificar_determinismo_relata_ausencias (afd : AFD string)
    (mensagens : list mensagem) :
  ∃ novas,
    _verificar_determinismo afd mensagens
      = (bool_decide (novas = []), mensagens ++ novas) ∧
    (novas = [] ↔ completo afd) ∧ NoDup novas ∧
    ∀ m, m ∈ novas ↔ ausencia afd m.
Proof. apply _verificar_determinismo_elem. Qed.

(** X4: the reachable set that [validar_afd] returns is the set that
    [minimizar_afd] computes again with [_encontrar_estados_alcancaveis];
    the validator returns no set exactly when its guard answers or the
    initial state is not declared. *)
Theorem validar_afd_mesmos_alcancaveis (afd : AFD string) :
  ∃ v mensagens r,
    validar_afd afd = Some (v, mensagens, r) ∧
    (r = None ↔ vazio_ou_incompleto afd ∨ inicial afd ∉ estados afd) ∧
    (∀ R, r = Some R → _encontrar_estados_alcancaveis afd = Some R).
Proof.
  destruct (decide (vazio_ou_incompleto afd)) as [Hg|Hg].
  { exists false, [ErroObjetoVazio], None.
    split; [by apply validar_afd_vazio|]. split; [|done].
    split; [by left|done]. }
  destruct (validar_afd_forma afd Hg) as (c & d & R & _ & _ & _ & _ & _ & HR & Heq).
  eexists _, _, _. split; [exact Heq|].
  destruct (decide (inicial afd ∈ estados afd)) as [Hini|Hini].
  - split; [|by intros ? [= <-]]. split; [done|]. by intros [?|?].
  - split; [|done]. split; [by right|done].
Qed.

(** X5: the diagnostics of the reachability part of [validar_afd].  The
    error of the branch that tests for an empty reachable set is never
    produced.  The warning is produced exactly when a reachable set is
    returned and some declared state is outside it, and it names the
    initial state and exactly the declared states outside the set; the
    set holds the initial state and the states that the search
    visits. *)
Theorem validar_afd_aviso_inalcancaveis (afd : AFD string) :
  ∃ v mensagens r,
    validar_afd afd = Some (v, mensagens, r) ∧
    (∀ i, ErroSemAlcancaveis i ∉ mensagens) ∧
    (∀ i U, AvisoInalcancaveis i U ∈ mensagens ↔
       ∃ R, r = Some R ∧ i = inicial afd ∧ U = estados afd ∖ R ∧ U ≠ ∅) ∧
    (∀ R, r = Some R → inicial afd ∈ R ∧ ∀ x, x ∈ R ↔ alcanca afd x).
Proof.
  destruct (decide (vazio_ou_incompleto afd)) as [Hg|Hg].
  { exists false, [ErroObjetoVazio], None.
    split; [by apply validar_afd_vazio|]. split_and!.
    - intros i [?|?%elem_of_nil]%elem_of_cons; done.
    - intros i U. split; [|by intros (? & ? & _)].
      intros [?|?%elem_of_nil]%elem_of_cons; done.
    - done. }
  destruct (validar_afd_forma afd Hg)
    as (c & d & R & _ & Hc & _ & _ & Hd & HR & Heq).
  destruct (_encontrar_estados_alcancaveis_forma afd) as (R' & HR' & Halc & _ & HiniR & _).
  assert (R' = R) as -> by congruence.
  eexists _, _, _. split; [exact Heq|].
  assert (∀ m, m ∈ c ++ d → is_erro m = true ∧
                            ∀ i, m ≠ ErroSemAlcancaveis i) as Hcd.
  { intros m [Hm%Hc|Hm%Hd]%elem_of_app; by destruct m. }
  destruct (decide (inicial afd ∈ estados afd)) as [Hini|Hini].
  - split_and!.
    + intros i. rewrite app_assoc. intros [Hm|Hm]%elem_of_app.
      * destruct (Hcd _ Hm) as [_ Hne]. by apply (Hne i).
      * unfold aviso_de in Hm. destruct (decide _); [|by apply elem_of_nil in Hm].
        by apply list_elem_of_singleton in Hm.
    + intros i U. rewrite app_assoc, elem_of_app. split.
      * intros [Hm|Hm]; [by destruct (Hcd _ Hm)|].
        unfold aviso_de in Hm. destruct (decide _) as [Hne|];
          [|by apply elem_of_nil in Hm].
        apply list_elem_of_singleton in Hm. simplify_eq. by exists R.
      * intros (R0 & [= <-] & -> & -> & Hne). right. unfold aviso_de.
        rewrite decide_True by done. by left.
    + intros R0 [= <-]. split; [by apply HiniR|done].
  - rewrite app_nil_r. split_and!.
    + intros i Hm. destruct (Hcd _ Hm) as [_ Hne]. by apply (Hne i).
    + intros i U. split; [|by intros (? & ? & _)].
      intros Hm. by destruct (Hcd _ Hm).
    + done.
Qed.

(** ** The disjoint sets: compression and missing keys *)

Lemma DSU_find_go_dom fuel parent x r parent' :
  DSU_find_go fuel parent x = Some (r, parent') → dom parent' = dom parent.
Proof.
  revert x r parent'. induction fuel as [|fuel IH]; intros x r parent' Hf;
    [done|].
  cbn [DSU_find_go] in Hf.
  destruct (parent !! x) as [p|] eqn:Hx; [|done]. simpl in Hf.
  destruct (decide (p = x)); [by simplify_eq|].
  destruct (DSU_find_go fuel parent p) as [[r0 parent0]|] eqn:Hrec; [|done].
  simpl in Hf. simplify_eq. rewrite dom_insert_L, (IH _ _ _ Hrec).
  assert (x ∈ dom parent) by (apply elem_of_dom; eauto). set_solver.
Qed.

Lemma DSU_find_go_chave fuel parent x r parent' :
  DSU_find_go fuel parent x = Some (r, parent') → x ∈ dom parent.
Proof.
  destruct fuel as [|fuel]; [done|]. cbn [DSU_find_go].
  destruct (parent !! x) as [p|] eqn:Hx; [|done]. intros _.
  apply elem_of_dom. eauto.
Qed.

(** After [find] the item points at its root, and every entry that
    changed is an item of the same set that now points at the root. *)
Lemma DSU_find_go_comprime parent fuel n x r :
  raiz_n parent n x r → n < fuel →
  ∃ parent', DSU_find_go fuel parent x = Some (r, parent') ∧
             parent' !! x = Some r ∧
             ∀ y, parent' !! y = parent !! y
                  ∨ (parent' !! y = Some r ∧ raiz_de parent y r).
Proof.
  intros Hn. revert fuel.
  induction Hn as [x Hx|n x p r Hx Hne Hp IH]; intros fuel Hfuel;
    (destruct fuel as [|fuel]; [lia|]); cbn [DSU_find_go]; rewrite Hx; simpl.
  - rewrite decide_True by done. exists parent. split_and!; [done|done|].
    intros y. by left.
  - rewrite decide_False by done.
    destruct (IH fuel) as (parent' & -> & Hp' & Hch); [lia|]. simpl.
    exists (<[x := r]> parent'). split; [done|].
    split; [by rewrite lookup_insert_eq|].
    intros y. destruct (decide (y = x)) as [->|Hy].
    + right. rewrite lookup_insert_eq. split; [done|].
      eapply raiz_de_acima; [done|done|by exists n].
    + rewrite lookup_insert_ne by done. apply Hch.
Qed.

(** [find] on an item that points at a root changes nothing. *)
Lemma DSU_find_direto parent x r :
  parent !! x = Some r → parent !! r = Some r →
  DSU_find parent x = Some (r, parent).
Proof.
  intros Hx Hr. unfold DSU_find.
  assert (x ∈ dom parent) as Hxd by (apply elem_of_dom; eauto).
  assert (r ∈ dom parent) as Hrd by (apply elem_of_dom; eauto).
  destruct (decide (r = x)) as [->|Hne].
  - assert (size parent ≠ 0) as Hsz.
    { rewrite <- size_dom. intros Hz%size_empty_inv. set_solver. }
    destruct (size parent) as [|f]; [done|]. cbn [DSU_find_go].
    rewrite Hx. simpl. by rewrite decide_True.
  - assert (2 ≤ size parent) as Hsz.
    { rewrite <- size_dom.
      assert (size ({[x; r]} : gset string) = 2) as <-.
      { rewrite size_union, !size_singleton; [done|set_solver]. }
      apply subseteq_size. set_solver. }
    destruct (size parent) as [|[|f]]; [lia|lia|]. cbn [DSU_find_go].
    rewrite Hx. simpl. rewrite decide_False by done.
    rewrite Hr. simpl. rewrite decide_True by done. simpl.
    by rewrite insert_id.
Qed.

(** X6: [DSU.find] on an item of a forest returns the root of the item
    and compresses its path: the keys and every root stay as they
    were, the item points at the root afterwards, an entry that changed
    belongs to an item of the same set and now holds the root, and a
    second [find] of the item returns the same root and changes
    nothing. *)
Theorem DSU_find_comprime parent x r :
  raiz_de parent x r →
  ∃ parent',
    DSU_find parent x = Some (r, parent') ∧
    dom parent' = dom parent ∧
    (∀ y r', raiz_de parent' y r' ↔ raiz_de parent y r') ∧
    parent' !! x = Some r ∧
    (∀ y, parent' !! y = parent !! y
          ∨ (parent' !! y = Some r ∧ raiz_de parent y r)) ∧
    DSU_find parent' x = Some (r, parent').
Proof.
  intros Hxr. destruct (DSU_find_spec parent x r Hxr) as (parent' & Hf & Hdom & Hroots).
  destruct Hxr as [n Hn].
  destruct (DSU_find_go_comprime parent (size parent) n x r Hn)
    as (parent2 & Hf2 & Hx' & Hch); [by eapply raiz_n_size|].
  assert (parent2 = parent') as -> by (unfold DSU_find in Hf; congruence).
  exists parent'. split_and!; [done..|].
  apply DSU_find_direto; [done|].
  apply (raiz_de_raiz parent' x), Hroots. by exists n.
Qed.

Lemma DSU_find_comprime_witness :
  ∃ parent',
    DSU_find dsu_cadeia "a" = Some ("c"%string, parent') ∧
    parent' !! "a"%string = Some "c"%string.
Proof.
  assert (raiz_de dsu_cadeia "a" "c") as Hr.
  { exists 2. apply (raiz_n_S _ _ _ "b"%string); [reflexivity|discriminate|].
    apply (raiz_n_S _ _ _ "c"%string); [reflexivity|discriminate|].
    apply raiz_n_O. reflexivity. }
  destruct (DSU_find_comprime dsu_cadeia "a" "c" Hr)
    as (parent' & Hf & _ & _ & Hx & _).
  exists parent'. split; [exact Hf|exact Hx].
Defined.

(** X7: [DSU.find] and [DSU.union] on a forest fail exactly on items
    that are not keys of the dict, where the source raises
    [KeyError]. *)
Theorem DSU_chave_ausente parent x y :
  dsu_ok parent →
  (DSU_find parent x = None ↔ x ∉ dom parent) ∧
  (DSU_union parent x y = None ↔ x ∉ dom parent ∨ y ∉ dom parent).
Proof.
  intros Hok. split.
  - split.
    + intros Hf Hx. destruct (Hok x Hx) as [r Hr].
      destruct (DSU_find_spec parent x r Hr) as (? & ? & _). congruence.
    + intros Hx. destruct (DSU_find parent x) as [[r parent']|] eqn:Hf; [|done].
      by apply DSU_find_go_chave in Hf.
  - split.
    + intros Hu. destruct (decide (x ∈ dom parent)) as [Hx|Hx]; [|by left].
      destruct (decide (y ∈ dom parent)) as [Hy|Hy]; [|by right].
      destruct (DSU_union_spec parent x y Hok Hx Hy) as (? & ? & _). congruence.
    + intros Hxy. unfold DSU_union.
      destruct (DSU_find parent x) as [[r1 parent1]|] eqn:Hf1; [|done].
      simpl. destruct (DSU_find parent1 y) as [[r2 parent2]|] eqn:Hf2; [|done].
      exfalso. apply DSU_find_go_chave in Hf1 as Hx.
      apply DSU_find_go_dom in Hf1. apply DSU_find_go_chave in Hf2 as Hy.
      rewrite Hf1 in Hy. by destruct Hxy.
Qed.

Lemma DSU_chave_ausente_witness :
  DSU_find (DSU_init {["a"%string]}) "b" = None ∧
  DSU_union (DSU_init {["a"%string]}) "a" "b" = None.
Proof.
  destruct (DSU_chave_ausente (DSU_init {["a"%string]}) "a" "b"
              (DSU_init_ok _)) as [_ Hu].
  destruct (DSU_chave_ausente (DSU_init {["a"%string]}) "b" "b"
              (DSU_init_ok _)) as [Hf _].
  split.
  - apply Hf. rewrite DSU_init_dom. refuta.
  - apply Hu. right. rewrite DSU_init_dom. refuta.
Defined.

(** X8: [DSU.union] of two items of a forest leaves a forest with the
    same keys in which the sets of the two items are one set and every
    other set is as it was: two items are in the same set afterwards
    exactly when they were before, or one was with the first item and
    the other with the second. *)
Theorem DSU_union_une parent p q :
  dsu_ok parent → p ∈ dom parent → q ∈ dom parent →
  ∃ parent',
    DSU_union parent p q = Some parent' ∧
    dsu_ok parent' ∧ dom parent' = dom parent ∧
    mesma_classe parent' p q ∧
    ∀ x y, mesma_classe parent' x y
           ↔ mesma_classe parent x y
             ∨ (mesma_classe parent x p ∧ mesma_classe parent q y)
             ∨ (mesma_classe parent x q ∧ mesma_classe parent p y).
Proof.
  intros Hok Hp Hq.
  destruct (DSU_union_spec parent p q Hok Hp Hq) as (parent' & Hu & Hok' & Hdom & Hiff).
  exists parent'. split_and!; [done..| |done].
  apply Hiff. right. left. split; by apply mesma_classe_refl.
Qed.

Lemma DSU_union_une_witness :
  ∃ parent',
    DSU_union (DSU_init {["a"; "b"; "c"]}%string) "a" "b" = Some parent' ∧
    mesma_classe parent' "a" "b".
Proof.
  destruct (DSU_union_une (DSU_init {["a"; "b"; "c"]}%string) "a" "b")
    as (parent' & Hu & _ & _ & Hab & _).
  - apply DSU_init_ok.
  - rewrite DSU_init_dom. calcula.
  - rewrite DSU_init_dom. calcula.
  - exists parent'. split; [exact Hu|exact Hab].
Defined.

(** ** The candidate pairs *)

Lemma combinations2_ordenado {A} (R : relation A) `{!AntiSymm (=) R}
    (l : list A) p q :
  StronglySorted R l → NoDup l →
  (p, q) ∈ combinations2 l ↔ p ∈ l ∧ q ∈ l ∧ p ≠ q ∧ R p q.
Proof.
  intros Hs Hnd. induction l as [|x l IH]; simpl.
  { split; [by intros ?%elem_of_nil|]. by intros (?%elem_of_nil & _). }
  apply StronglySorted_inv in Hs as [Hs Hx].
  apply NoDup_cons in Hnd as [Hxl Hnd].
  rewrite Forall_forall in Hx.
  rewrite elem_of_app, list_elem_of_fmap, (IH Hs Hnd), !elem_of_cons. split.
  - intros [(y & [= -> ->] & Hy)|(Hp & Hq & Hne & HR)].
    + split_and!; [by left|by right| |by apply Hx]. by intros ->.
    + split_and!; [by right|by right|done|done].
  - intros ([->|Hp] & [->|Hq] & Hne & HR).
    + done.
    + left. by exists q.
    + exfalso. apply Hxl. by rewrite <- (anti_symm R p x HR (Hx p Hp)).
    + by right.
Qed.

Lemma combinations2_sem_repeticao {A} (l : list A) :
  NoDup l → NoDup (combinations2 l).
Proof.
  induction 1 as [|x l Hx Hnd IH]; simpl; [constructor|].
  apply NoDup_app. split_and!.
  - apply NoDup_fmap_2; [|done]. by intros y z [= ->].
  - intros [p q] (y & [= -> ->] & Hy)%list_elem_of_fmap Hin.
    by apply combinations2_elem in Hin as [? _].
  - done.
Qed.

Lemma combinations2_length {A} (l : list A) :
  2 * length (combinations2 l) = length l * (length l - 1).
Proof.
  induction l as [|x l IH]; simpl; [done|].
  rewrite length_app, length_fmap, Nat.sub_0_r.
  destruct (length l) as [|n]; simpl in *; [done|]. rewrite Nat.sub_0_r in IH. nia.
Qed.

Lemma sorted_states_ordenado R : StronglySorted String.le (sorted_states R).
Proof. apply StronglySorted_merge_sort; apply _. Qed.

Lemma sorted_states_length R : length (sorted_states R) = size R.
Proof.
  unfold sorted_states. by rewrite merge_sort_Permutation.
Qed.

Lemma pares_de_length R : 2 * length (pares_de R) = size R * (size R - 1).
Proof. unfold pares_de. by rewrite combinations2_length, sorted_states_length. Qed.

(** X9: the candidate pairs that [minimizar_afd] builds from the
    reachable set, and that every pass goes through: each unordered
    pair of two different reachable states is in the list once, with
    the smaller label first, and never in the other order; there are
    |R|(|R|-1)/2 of them. *)
Theorem pares_de_canonico (R : gset string) :
  NoDup (pares_de R) ∧
  (∀ p q, (p, q) ∈ pares_de R ↔ p ∈ R ∧ q ∈ R ∧ p ≠ q ∧ String.le p q) ∧
  (∀ p q, (p, q) ∈ pares_de R → (q, p) ∉ pares_de R) ∧
  2 * length (pares_de R) = size R * (size R - 1).
Proof.
  assert (∀ p q, (p, q) ∈ pares_de R ↔ p ∈ R ∧ q ∈ R ∧ p ≠ q ∧ String.le p q)
    as Hiff.
  { intros p q. unfold pares_de.
    rewrite (combinations2_ordenado String.le);
      [|apply sorted_states_ordenado|apply sorted_states_NoDup].
    by rewrite !sorted_states_elem. }
  split_and!; [|done| |apply pares_de_length].
  - apply combinations2_sem_repeticao, sorted_states_NoDup.
  - intros p q (_ & _ & Hne & Hpq)%Hiff (_ & _ & _ & Hqp)%Hiff.
    apply Hne. by apply (anti_symm String.le).
Qed.

(** ** The passes, for every automaton *)

(** Each pass that marks something marks a candidate pair that was not
    marked. *)
Lemma passos_produtivos_geral afd pairs M k :
  (∀ j, j < k →
     passo_marcacao afd pairs (Nat.iter j (apos_passo afd pairs) M) ≠ ∅) →
  k + length (nao_marcados pairs (Nat.iter k (apos_passo afd pairs) M))
  ≤ length (nao_marcados pairs M).
Proof.
  induction k as [|k IH]; intros Hprod; [done|].
  assert (k + length (nao_marcados pairs (Nat.iter k (apos_passo afd pairs) M))
          ≤ length (nao_marcados pairs M)) as Hk.
  { apply IH. intros j Hj. apply Hprod. lia. }
  enough (length (nao_marcados pairs (Nat.iter (S k) (apos_passo afd pairs) M))
          < length (nao_marcados pairs (Nat.iter k (apos_passo afd pairs) M)))
    by lia.
  cbn [Nat.iter]. set (Mk := Nat.iter k (apos_passo afd pairs) M).
  assert (passo_marcacao afd pairs Mk ≠ ∅) as Hne by (apply Hprod; lia).
  apply set_choose_L in Hne as (X & HX).
  apply passo_marcacao_spec in HX as HX'.
  destruct HX' as (p & q & Hpq & -> & Hnm & _).
  apply (filter_length_lt_strict _ _ _ (p, q)); [|done|done|].
  - intros [p' q'] _ Hn. unfold apos_passo in Hn. simpl in *. set_solver.
  - unfold apos_passo. simpl. set_solver.
Qed.

(** The events of the loop, one by one. *)
Lemma iteracao_eventos afd pairs fuel M passo M' n evs :
  iteracao fuel afd pairs M passo = Some (M', n, evs) →
  ∃ k, n = passo + k ∧
    evs = (j ← seq 0 k;
           [EvStepUpdate (passo + j)
              (passo_marcacao afd pairs (Nat.iter j (apos_passo afd pairs) M));
            EvStepTable (passo + j)
              (Nat.iter (S j) (apos_passo afd pairs) M)])
          ++ [EvInfo (InfoNenhumaNovaMarcacao n)].
Proof.
  revert M passo M' n evs.
  induction fuel as [|fuel IH]; intros M passo M' n evs Hit; [done|].
  cbn [iteracao] in Hit.
  destruct (decide (passo_marcacao afd pairs M = ∅)) as [He|Hne].
  { simplify_eq. exists 0. by rewrite Nat.add_0_r. }
  destruct (iteracao fuel afd pairs (M ∪ passo_marcacao afd pairs M) (S passo))
    as [[[m n'] evs']|] eqn:Hrec; [|done].
  simpl in Hit. simplify_eq.
  destruct (IH _ _ _ _ _ Hrec) as (k & -> & ->).
  exists (S k). split; [lia|].
  cbn [seq]. rewrite bind_cons. rewrite <- fmap_S_seq, list_fmap_bind.
  rewrite Nat.add_0_r. cbn [app]. do 2 f_equal.
  f_equal. apply list_bind_ext; [|done]. intros j. unfold compose.
  replace (passo + S j) with (S passo + j) by lia.
  rewrite (Nat.iter_succ_r (S j) (apos_passo afd pairs) M).
  rewrite (Nat.iter_succ_r j (apos_passo afd pairs) M).
  reflexivity.
Qed.

(** Every run of [minimizar_afd], with its events written out. *)
Lemma minimizar_afd_forma pick (afd : AFD string) :
  ∃ R, _encontrar_estados_alcancaveis afd = Some R ∧
    (((inicial afd ∉ estados afd) ∧ R = ∅ ∧
      minimizar_afd pick afd
      = Some [EvInfo InfoEncontrandoAlcancaveis; EvError ErroNenhumAlcancavel])
     ∨ (inicial afd ∈ estados afd ∧ alcancaveis_spec afd R ∧
        ∃ k parent a,
          passo_marcacao afd (pares_de R) (marcados_apos afd R k) = ∅ ∧
          (∀ j, j < k →
             passo_marcacao afd (pares_de R) (marcados_apos afd R j) ≠ ∅) ∧
          minimizar_afd pick afd
          = Some (eventos_sucesso afd R k (eventos_passos afd R k) a) ∧
          minimizado pick afd R (marcados_apos afd R k) parent a)).
Proof.
  destruct (_encontrar_estados_alcancaveis_forma afd) as (R & HR & _ & _ & HiniR & HRe).
  exists R. split; [done|].
  destruct (decide (inicial afd ∈ estados afd)) as [Hini|Hini]; [right|left].
  - destruct (_encontrar_estados_alcancaveis_total afd)
      as (R' & HR' & [(_ & He)|(_ & Hspec)]); [set_solver|].
    assert (R' = R) as -> by congruence.
    split; [done|]. split; [done|].
    pose proof Hspec as (HiniR' & Hsub & _).
    unfold minimizar_afd. rewrite HR. cbn [mbind option_bind].
    rewrite decide_False by set_solver.
    rewrite decide_False by (intros Hn; by apply Hn).
    fold (pares_de R). fold (marcados_iniciais afd R).
    destruct (iteracao_spec afd (pares_de R) (S (length (pares_de R)))
                (marcados_iniciais afd R) 1)
      as (k & steps & Hit & Hfix & Hprod & _ & _).
    { pose proof (nao_marcados_length (pares_de R) (marcados_iniciais afd R)). lia. }
    destruct (iteracao_eventos _ _ _ _ _ _ _ _ Hit) as (k' & Hk & Hev).
    assert (k' = k) as -> by lia.
    apply app_inj_tail in Hev as [Hev _].
    assert (steps = eventos_passos afd R k) as ->.
    { rewrite Hev. unfold eventos_passos. apply list_bind_ext; [|done].
      intros j. by rewrite !marcados_apos_iter. }
    rewrite Hit. cbn [mbind option_bind]. rewrite <- !marcados_apos_iter in *.
    destruct (construir_spec pick afd R (pares_de R) (marcados_apos afd R k)
                (finais afd ∩ R)) as (parent & a & H1 & H2 & H3 & -> & H4).
    { done. }
    { intros p q Hpq. apply pares_de_elem in Hpq. tauto. }
    cbn [mbind option_bind]. exists k, parent, a.
    split; [done|]. split.
    { intros j Hj. rewrite marcados_apos_iter. by apply Hprod. }
    split; [reflexivity|].
    unfold minimizado. tauto.
  - assert (R = ∅) as -> by (by apply HRe).
    split; [done|]. split; [done|].
    unfold minimizar_afd. rewrite HR. simpl. by rewrite decide_True.
Qed.

(** X10: how a run of [minimizar_afd] ends.  It ends with a result
    exactly when the initial state is declared; otherwise its events
    are the first info and the error for an empty reachable set.  The
    two other errors of the source, for an initial state that is not
    reachable and for an empty set of classes, are never produced. *)
Theorem minimizar_afd_desfecho pick (afd : AFD string) :
  ∃ evs,
    minimizar_afd pick afd = Some evs ∧
    ((∃ a, last evs = Some (EvResult a)) ↔ inicial afd ∈ estados afd) ∧
    (inicial afd ∉ estados afd →
     evs = [EvInfo InfoEncontrandoAlcancaveis; EvError ErroNenhumAlcancavel]) ∧
    (∀ e, EvError e ∈ evs → e = ErroNenhumAlcancavel).
Proof.
  destruct (minimizar_afd_forma pick afd)
    as (R & HR & [(Hini & _ & Hrun)|(Hini & _ & k & parent & a & _ & _ & Hrun & _)]);
    eexists; (split; [exact Hrun|]).
  - split_and!.
    + split; [|done]. by intros [a [=]].
    + done.
    + intros e [?|[Heq|?%elem_of_nil]%elem_of_cons]%elem_of_cons; [done| |done].
      by simplify_eq.
  - split_and!.
    + split; [done|]. intros _. exists a. apply eventos_sucesso_last.
    + done.
    + intros e He. exfalso. revert He. unfold eventos_sucesso.
      assert (∀ l, Forall (λ e, is_error e = false) l → EvError e ∉ l) as Hno.
      { intros l Hl Hin. rewrite Forall_forall in Hl. by apply Hl in Hin. }
      apply Hno. repeat (apply Forall_app; split); try by repeat constructor.
      * destruct (decide _); by repeat constructor.
      * unfold eventos_passos. apply Forall_bind, Forall_forall.
        intros j _. by repeat constructor.
Qed.

(** ** The events of the passes *)

Lemma eventos_passos_step afd R k :
  Forall (λ e, is_step e = true) (eventos_passos afd R k).
Proof.
  unfold eventos_passos. apply Forall_bind, Forall_forall.
  intros j _. by repeat constructor.
Qed.

Lemma filter_todos {A} (P : A → Prop) `{!∀ x, Decision (P x)} (l : list A) :
  Forall P l → filter P l = l.
Proof.
  induction 1 as [|x l Hx _ IH]; [done|].
  by rewrite filter_cons, decide_True, IH by done.
Qed.

(** A pass adds the pairs it marks, and they were not marked. *)
Lemma passo_marcacao_novos afd pairs M :
  passo_marcacao afd pairs M = (M ∪ passo_marcacao afd pairs M) ∖ M.
Proof.
  apply set_eq. intros X. rewrite elem_of_difference, elem_of_union. split.
  - intros HX. split; [by right|].
    by apply passo_marcacao_spec in HX as (_ & _ & _ & _ & ? & _).
  - intros [[?|?] ?]; done.
Qed.

Lemma eventos_passos_tabelas afd R k :
  eventos_passos afd R k = eventos_tabelas afd R k.
Proof.
  unfold eventos_passos, eventos_tabelas. apply list_bind_ext; [|done].
  intros j. by rewrite passo_marcacao_novos at 1.
Qed.

Lemma filter_passos_sucesso afd R k a :
  filter (λ e, is_step e = true)
         (eventos_sucesso afd R k (eventos_passos afd R k) a)
  = EvStepTable 0 (marcados_apos afd R 0) :: eventos_passos afd R k.
Proof.
  unfold eventos_sucesso. rewrite !filter_app.
  rewrite (filter_todos _ (eventos_passos afd R k))
    by apply eventos_passos_step.
  destruct (decide (size R < size (estados afd)));
    repeat first [rewrite filter_cons_True by done
                 |rewrite filter_cons_False by done
                 |rewrite filter_nil];
    simpl; by rewrite !app_nil_r.
Qed.

(** A valid automaton goes through the whole run. *)
Lemma minimizar_afd_valido_forma pick (afd : AFD string) mensagens r :
  validar_afd afd = Some (true, mensagens, r) →
  consistente afd ∧ completo afd ∧
  ∃ R k parent a,
    _encontrar_estados_alcancaveis afd = Some R ∧
    alcancaveis_spec afd R ∧
    passo_marcacao afd (pares_de R) (marcados_apos afd R k) = ∅ ∧
    (∀ j, j < k →
       passo_marcacao afd (pares_de R) (marcados_apos afd R j) ≠ ∅) ∧
    minimizar_afd pick afd
    = Some (eventos_sucesso afd R k (eventos_passos afd R k) a) ∧
    minimizado pick afd R (marcados_apos afd R k) parent a.
Proof.
  intros (_ & Hcons & Hcomp)%validar_afd_valido.
  split; [done|]. split; [done|].
  destruct (minimizar_afd_forma pick afd)
    as (R & HR & [(Hini & _)|(_ & Hspec & k & parent & a & ? & ? & ? & ?)]).
  { by destruct Hcons as (? & _). }
  by exists R, k, parent, a.
Qed.

(** X11: the marking events of a run that ends with a result.  After
    the table of pass 0, which holds the pairs of the initial marking,
    each pass that marks something yields a [step_update] with exactly
    the pairs that the pass adds and a [step_table] with the marked set
    after the pass, under the number of the pass; the marked sets grow
    strictly from one table to the next, one more pass would add
    nothing to the last, and the number that the closing info carries
    is the number of tables. *)
Theorem eventos_de_marcacao pick (afd : AFD string) evs a :
  minimizar_afd pick afd = Some evs → last evs = Some (EvResult a) →
  ∃ R k,
    _encontrar_estados_alcancaveis afd = Some R ∧
    filter (λ e, is_step e = true) evs
    = EvStepTable 0 (marcados_apos afd R 0) :: eventos_tabelas afd R k ∧
    (∀ j, j < k → marcados_apos afd R j ⊂ marcados_apos afd R (S j)) ∧
    marcados_apos afd R (S k) = marcados_apos afd R k ∧
    numero_de_passos evs = Some (S k).
Proof.
  intros Hrun Hlast.
  destruct (minimizar_afd_forma pick afd)
    as (R & HR & [(_ & _ & Hrun')
                 |(_ & _ & k & parent & a' & Hfix & Hprod & Hrun' & _)]).
  { rewrite Hrun' in Hrun. by simplify_eq. }
  rewrite Hrun' in Hrun. simplify_eq. exists R, k. split_and!.
  - done.
  - by rewrite filter_passos_sucesso, eventos_passos_tabelas.
  - intros j Hj. specialize (Hprod j Hj).
    apply set_choose_L in Hprod as (X & HX).
    apply passo_marcacao_spec in HX as HX'.
    destruct HX' as (_ & _ & _ & _ & Hnm & _).
    cbn [marcados_apos]. split; [set_solver|]. intros Hsub. apply Hnm, Hsub.
    set_solver.
  - cbn [marcados_apos]. rewrite Hfix. set_solver.
  - apply numero_de_passos_sucesso, eventos_passos_step.
Qed.

Lemma eventos_de_marcacao_witness :
  ∃ evs R k,
    minimizar_afd pick_first afd_exemplo = Some evs ∧
    filter (λ e, is_step e = true) evs
    = EvStepTable 0 (marcados_apos afd_exemplo R 0)
      :: eventos_tabelas afd_exemplo R k.
Proof.
  assert (is_result <$> (minimizar_afd pick_first afd_exemplo ≫= last)
          = Some true) as Hlast.
  { vm_compute. reflexivity. }
  destruct (minimizar_afd pick_first afd_exemplo) as [evs|] eqn:Hrun;
    [|discriminate Hlast].
  cbn [mbind option_bind] in Hlast.
  destruct (last evs) as [[| | |a|]|] eqn:Ha; try discriminate Hlast.
  destruct (eventos_de_marcacao pick_first afd_exemplo evs a Hrun Ha)
    as (R & k & _ & Hf & _).
  exists evs, R, k. split; [reflexivity|exact Hf].
Defined.

(** X12: the number of passes, for every automaton.  A run makes at most
    one pass more than there are candidate pairs left unmarked by the
    initial marking, since every pass but the last marks at least one
    of them; so the number of passes is at most 1 + |R|(|R|-1)/2 for
    |R| reachable states. *)
Theorem passos_limitados_por_pares pick (afd : AFD string) :
  ∃ R evs,
    _encontrar_estados_alcancaveis afd = Some R ∧
    minimizar_afd pick afd = Some evs ∧
    ∀ n, numero_de_passos evs = Some n →
      n ≤ 1 + length (nao_marcados (pares_de R) (marcados_iniciais afd R)) ∧
      2 * (n - 1) ≤ size R * (size R - 1).
Proof.
  destruct (minimizar_afd_forma pick afd)
    as (R & HR & [(_ & _ & Hrun)
                 |(_ & _ & k & parent & a & Hfix & Hprod & Hrun & _)]);
    exists R; eexists; (split; [exact HR|]); (split; [exact Hrun|]).
  { intros n Hn. discriminate Hn. }
  intros n. rewrite numero_de_passos_sucesso by apply eventos_passos_step.
  intros [= <-].
  pose proof (passos_produtivos_geral afd (pares_de R)
                (marcados_iniciais afd R) k) as Hk.
  rewrite <- marcados_apos_iter in Hk.
  assert (k ≤ length (nao_marcados (pares_de R) (marcados_iniciais afd R)))
    as Hle.
  { etrans; [|apply Hk]; [lia|].
    intros j Hj. rewrite <- marcados_apos_iter. by apply Hprod. }
  split; [lia|].
  pose proof (nao_marcados_length (pares_de R) (marcados_iniciais afd R)).
  pose proof (pares_de_length R). simpl. lia.
Qed.

(** ** Marked pairs and words *)

(** A pair that is marked after [k] passes is told apart by a word of
    at most [k] symbols on which both runs are defined. *)
Lemma marcado_palavra afd R k p q :
  par p q ∈ marcados_apos afd R k →
  ∃ w p' q', length w ≤ k ∧ Forall (λ s, s ∈ alfabeto afd) w ∧
    run afd p w = Some p' ∧ run afd q w = Some q' ∧
    (p' ∈ finais afd ↔ q' ∉ finais afd).
Proof.
  revert p q. induction k as [|k IH]; intros p q Hpq.
  - exists [], p, q. split_and!; [done|done|done|done|].
    apply marcacao_inicial_spec in Hpq as (p0 & q0 & Hp0 & Hq0 & _ & Heq).
    apply par_eq in Heq as [[-> ->]|[-> ->]]; set_solver.
  - cbn [marcados_apos] in Hpq. apply elem_of_union in Hpq as [Hpq|Hpq].
    { destruct (IH p q Hpq) as (w & p' & q' & Hlen & H).
      exists w, p', q'. split; [lia|done]. }
    apply passo_marcacao_spec in Hpq
      as (p1 & q1 & _ & Heq & _ & s & Hs & Hd).
    assert (distingue afd (marcados_apos afd R k) p q s) as Hd'.
    { apply par_eq in Heq as [[-> ->]|[-> ->]]; [done|by apply distingue_sym]. }
    destruct Hd' as (p' & q' & Hp' & Hq' & _ & Hm).
    destruct (IH p' q' Hm) as (w & p2 & q2 & Hlen & Hw & Hrp & Hrq & Hfin).
    exists (s :: w), p2, q2. split_and!; [simpl; lia|by constructor| | |done].
    + simpl. by rewrite Hp'.
    + simpl. by rewrite Hq'.
Qed.

(** X13: the marking is sound for every automaton, valid or not: a pair
    that is in the marked set after [k] passes is told apart by a word
    over the alphabet of at most [k] symbols, on which the runs from
    both states are defined and of which exactly one ends in an
    accepting state. *)
Theorem par_marcado_distinguivel (afd : AFD string) (R : gset string)
    (k : nat) (p q : string) :
  par p q ∈ marcados_apos afd R k →
  ∃ w, length w ≤ k ∧ Forall (λ s, s ∈ alfabeto afd) w ∧
       is_Some (run afd p w) ∧ is_Some (run afd q w) ∧
       accepts_from afd p w ≠ accepts_from afd q w.
Proof.
  intros (w & p' & q' & Hlen & Hw & Hp & Hq & Hfin)%marcado_palavra.
  exists w. split_and!; [done|done|by eexists|by eexists|].
  unfold accepts_from. rewrite Hp, Hq.
  destruct (decide (p' ∈ finais afd)) as [Hpf|Hpf].
  - rewrite (bool_decide_eq_true_2 _ Hpf).
    rewrite bool_decide_eq_false_2; [done|]. by apply Hfin.
  - rewrite (bool_decide_eq_false_2 _ Hpf).
    rewrite bool_decide_eq_true_2; [done|].
    destruct (decide (q' ∈ finais afd)); [done|]. exfalso. by apply Hpf, Hfin.
Qed.

Lemma par_marcado_distinguivel_witness :
  ∃ w, length w ≤ 1 ∧
       accepts_from afd_exemplo "A" w ≠ accepts_from afd_exemplo "B" w.
Proof.
  destruct (par_marcado_distinguivel afd_exemplo alcancaveis_exemplo 1 "A" "B")
    as (w & Hlen & _ & _ & _ & Hne).
  - calcula.
  - exists w. split; [exact Hlen|exact Hne].
Defined.

(** At the fixed point the successors of an unmarked pair are
    unmarked. *)
Lemma indistintos_fixo afd R k p q s p' q' :
  passo_marcacao afd (pares_de R) (marcados_apos afd R k) = ∅ →
  p ∈ R → q ∈ R → s ∈ alfabeto afd →
  indistintos (marcados_apos afd R k) p q →
  get_trans (transicoes afd) p s = Some p' →
  get_trans (transicoes afd) q s = Some q' →
  indistintos (marcados_apos afd R k) p' q'.
Proof.
  intros Hfix Hp Hq Hs Hpq Hp' Hq'.
  assert (apos_passo afd (pares_de R) (marcados_apos afd R k)
          = marcados_apos afd R k) as Heq.
  { unfold apos_passo. rewrite Hfix. set_solver. }
  pose proof (indistintos_apos_passo afd R (marcados_apos afd R k) p q
                (so_pares_apos afd R k) Hp Hq) as Hiff.
  rewrite Heq in Hiff. apply Hiff in Hpq as [_ Hsuc]. by eapply Hsuc.
Qed.

(** For a valid automaton, two reachable states whose pair is not
    marked at the fixed point accept the same words. *)
Lemma indistintos_mesma_linguagem afd R k :
  consistente afd → completo afd → alcancaveis_spec afd R →
  passo_marcacao afd (pares_de R) (marcados_apos afd R k) = ∅ →
  ∀ w p q, Forall (λ s, s ∈ alfabeto afd) w → p ∈ R → q ∈ R →
    indistintos (marcados_apos afd R k) p q →
    accepts_from afd p w = accepts_from afd q w.
Proof.
  intros Hcons Hcomp HR Hfix w.
  induction w as [|s w IH]; intros p q Hw Hp Hq Hpq.
  - unfold accepts_from. simpl. apply bool_decide_ext.
    by apply (indistintos_finais afd R k).
  - apply Forall_cons in Hw as [Hs Hw].
    destruct (transicao_fechada afd R Hcons Hcomp HR p s Hp Hs) as (p' & Hp' & HpR).
    destruct (transicao_fechada afd R Hcons Hcomp HR q s Hq Hs) as (q' & Hq' & HqR).
    unfold accepts_from. simpl. rewrite Hp', Hq'.
    apply (IH p' q' Hw HpR HqR).
    by apply (indistintos_fixo afd R k p q s p' q').
Qed.

Lemma mesma_classe_estado parent R C p q :
  particao parent R C → p ∈ R →
  mesma_classe parent p q ↔ ∃ X, X ∈ C ∧ p ∈ X ∧ q ∈ X.
Proof.
  intros (_ & Hcl & Hcov) Hp. split.
  - intros Hpq. destruct (Hcov p Hp) as (X & HX & HpX).
    exists X. split_and!; [done|done|]. by apply (Hcl X p HX HpX q).
  - intros (X & HX & HpX & HqX). by apply (Hcl X p HX HpX q).
Qed.

(** X14: for a valid automaton the states of the result are the classes
    of language equivalence: two reachable states lie in the same
    state of the minimized automaton exactly when they accept the same
    words over the alphabet. *)
Theorem classes_por_linguagem pick (afd : AFD string) mensagens r :
  validar_afd afd = Some (true, mensagens, r) →
  ∃ R evs a,
    _encontrar_estados_alcancaveis afd = Some R ∧
    minimizar_afd pick afd = Some evs ∧ last evs = Some (EvResult a) ∧
    ∀ p q, p ∈ R → q ∈ R →
      (∃ X, X ∈ estados a ∧ p ∈ X ∧ q ∈ X)
      ↔ ∀ w, Forall (λ s, s ∈ alfabeto afd) w →
             accepts_from afd p w = accepts_from afd q w.
Proof.
  intros Hv.
  destruct (minimizar_afd_valido_forma pick afd mensagens r Hv)
    as (Hcons & Hcomp & R & k & parent & a & HRe & HR & Hfix & _ & Hrun & Hmin).
  exists R, (eventos_sucesso afd R k (eventos_passos afd R k) a), a.
  split_and!; [done|done|apply eventos_sucesso_last|].
  intros p q Hp Hq.
  pose proof Hmin as (_ & _ & _ & _ & Hpart & _).
  rewrite <- (mesma_classe_estado parent R (estados a) p q Hpart Hp).
  rewrite (mesma_classe_indistintos pick afd R k parent a Hcons Hcomp HR Hmin).
  split.
  - intros (_ & _ & Hpq) w Hw.
    by apply (indistintos_mesma_linguagem afd R k).
  - intros Hall. split; [done|]. split; [done|].
    destruct (decide (indistintos (marcados_apos afd R k) p q)) as [|Hn]; [done|].
    exfalso.
    assert (par p q ∈ marcados_apos afd R k) as Hm.
    { destruct (decide (par p q ∈ marcados_apos afd R k)); [done|].
      exfalso. apply Hn. by right. }
    apply marcado_palavra in Hm as (w & p' & q' & _ & Hw & Hrp & Hrq & Hfin).
    specialize (Hall w Hw). unfold accepts_from in Hall.
    rewrite Hrp, Hrq in Hall.
    destruct (decide (p' ∈ finais afd)) as [Hpf|Hpf].
    + rewrite (bool_decide_eq_true_2 _ Hpf) in Hall. symmetry in Hall.
      apply bool_decide_eq_true in Hall. by apply Hfin.
    + rewrite (bool_decide_eq_false_2 _ Hpf) in Hall. symmetry in Hall.
      apply bool_decide_eq_false in Hall. apply Hpf, Hfin. done.
Qed.

Lemma classes_por_linguagem_witness :
  ∃ R evs a,
    _encontrar_estados_alcancaveis afd_exemplo = Some R ∧
    minimizar_afd pick_first afd_exemplo = Some evs ∧
    last evs = Some (EvResult a).
Proof.
  destruct afd_exemplo_valido as (mensagens & r & Hv).
  destruct (classes_por_linguagem pick_first afd_exemplo mensagens r Hv)
    as (R & evs & a & HR & Hrun & Hlast & _).
  exists R, evs, a. split; [exact HR|]. split; [exact Hrun|exact Hlast].
Defined.

(** X15: the result of a valid automaton is minimal: two different
    states of the minimized automaton are told apart by a word over
    its alphabet, which the minimized automaton accepts from one and
    rejects from the other. *)
Theorem minimizado_minimo pick (afd : AFD string) mensagens r :
  (∀ X, X ≠ ∅ → pick X ∈ X) →
  validar_afd afd = Some (true, mensagens, r) →
  ∃ evs a,
    minimizar_afd pick afd = Some evs ∧ last evs = Some (EvResult a) ∧
    ∀ C D, C ∈ estados a → D ∈ estados a → C ≠ D →
      ∃ w, Forall (λ s, s ∈ alfabeto a) w ∧
           accepts_from a C w ≠ accepts_from a D w.
Proof.
  intros Hpick Hv.
  destruct (minimizar_afd_valido_forma pick afd mensagens r Hv)
    as (Hcons & Hcomp & R & k & parent & a & HRe & HR & Hfix & _ & Hrun & Hmin).
  exists (eventos_sucesso afd R k (eventos_passos afd R k) a), a.
  split_and!; [done|apply eventos_sucesso_last|].
  intros C D HC HD Hne.
  pose proof Hmin as (_ & _ & Hdom & Half & Hpart & _).
  pose proof Hpart as (Hnv & _ & _).
  destruct (Hnv C HC) as [p HpC]. destruct (Hnv D HD) as [q HqD].
  assert (p ∈ R) as Hp by (by apply (particao_sub parent R (estados a) C)).
  assert (q ∈ R) as Hq by (by apply (particao_sub parent R (estados a) D)).
  assert (par p q ∈ marcados_apos afd R k) as Hm.
  { destruct (decide (par p q ∈ marcados_apos afd R k)); [done|].
    exfalso. apply Hne.
    apply (particao_eq parent R (estados a) C D p q); [done..|].
    apply (mesma_classe_indistintos pick afd R k parent a Hcons Hcomp HR Hmin).
    split; [done|]. split; [done|]. by right. }
  apply marcado_palavra in Hm as (w & p' & q' & _ & Hw & Hrp & Hrq & Hfin).
  destruct (run_simulado pick afd R k parent a Hpick Hcons Hcomp HR Hfix Hmin
              w p C Hw Hp HC HpC) as (p2 & C' & Hrp2 & HrC & Hp2 & HC' & HpC').
  destruct (run_simulado pick afd R k parent a Hpick Hcons Hcomp HR Hfix Hmin
              w q D Hw Hq HD HqD) as (q2 & D' & Hrq2 & HrD & Hq2 & HD' & HqD').
  assert (p2 = p') as -> by congruence. assert (q2 = q') as -> by congruence.
  exists w. split; [by rewrite Half|].
  unfold accepts_from. rewrite HrC, HrD.
  pose proof (classe_final pick afd R k parent a Hpick Hcons Hcomp HR Hfix Hmin
                p' C' Hp2 HC' HpC') as HfC.
  pose proof (classe_final pick afd R k parent a Hpick Hcons Hcomp HR Hfix Hmin
                q' D' Hq2 HD' HqD') as HfD.
  intros Heq.
  assert (C' ∈ finais a ↔ D' ∈ finais a) as Hiff.
  { rewrite <- (bool_decide_eq_true (C' ∈ finais a)),
      <- (bool_decide_eq_true (D' ∈ finais a)). by rewrite Heq. }
  rewrite HfC, HfD in Hiff. destruct (decide (q' ∈ finais afd)) as [Hqf|Hqf].
  - apply Hiff in Hqf as Hpf. by apply Hfin in Hpf.
  - apply Hqf, Hiff, Hfin, Hqf.
Qed.

Lemma minimizado_minimo_witness :
  ∃ evs a,
    minimizar_afd pick_first afd_exemplo = Some evs ∧
    last evs = Some (EvResult a).
Proof.
  destruct afd_exemplo_valido as (mensagens & r & Hv).
  destruct (minimizado_minimo pick_first afd_exemplo mensagens r
              pick_first_elem Hv) as (evs & a & Hrun & Hlast & _).
  exists evs, a. split; [exact Hrun|exact Hlast].
Defined.

(** ** The classes, for every automaton *)

(** A set of disjoint sets of items of [R], none empty, has at most as
    many members as [R] has items. *)
Lemma size_disjuntos (C : gset (gset string)) :
  ∀ R : gset string,
    (∀ X, X ∈ C → X ≠ ∅ ∧ X ⊆ R) →
    (∀ X Y, X ∈ C → Y ∈ C → X ≠ Y → X ## Y) →
    size C ≤ size R.
Proof.
  induction C as [|X C HX IH] using set_ind_L; intros R Hsub Hdis.
  { rewrite size_empty. lia. }
  assert (X ∈ {[X]} ∪ C) as HXin
    by (apply elem_of_union_l; by apply elem_of_singleton).
  assert (∀ Y, Y ∈ C → Y ∈ {[X]} ∪ C) as HCin
    by (intros Y HY; by apply elem_of_union_r).
  rewrite size_union, size_singleton.
  2:{ intros Y ->%elem_of_singleton HY. done. }
  destruct (Hsub X HXin) as [HXne HXR].
  assert (size C ≤ size (R ∖ X)) as Hle.
  { apply IH.
    - intros Y HY. destruct (Hsub Y (HCin Y HY)) as [HYne HYR].
      split; [done|].
      assert (Y ## X) as HYX.
      { apply Hdis; [by apply HCin|done|]. by intros ->. }
      clear -HYR HYX. set_solver.
    - intros Y Z HY HZ. apply Hdis; by apply HCin. }
  rewrite size_difference in Hle by done.
  assert (size X ≠ 0) by (by intros ?%size_empty_inv%leibniz_equiv).
  apply subseteq_size in HXR. lia.
Qed.

(** The classes of a result: the unions join only states with the same
    answer to membership in the accepting states. *)
Lemma mesma_classe_mesma_finalidade afd R k parent x y :
  unir_nao_marcados (marcados_apos afd R k) (DSU_init R) (pares_de R)
    = Some parent →
  mesma_classe parent x y → x ∈ finais afd ↔ y ∈ finais afd.
Proof.
  intros Hunir Hxy.
  destruct (unir_nao_marcados_spec (marcados_apos afd R k) R (pares_de R)
              (DSU_init R) (DSU_init_ok R) (DSU_init_dom R))
    as (parent' & Hunir' & _ & _ & _ & _ & Hsound).
  { intros p q Hpq. apply pares_de_elem in Hpq. tauto. }
  assert (parent' = parent) as -> by congruence.
  apply (Hsound (λ x y, x ∈ finais afd ↔ y ∈ finais afd)); [..|done].
  - intros ? ? H. by symmetry.
  - intros ? ? ? H1 H2. by etrans.
  - intros x' y' Hc. by apply DSU_init_mesma_classe in Hc as [_ ->].
  - intros p q Hpq Hnm. apply pares_de_elem in Hpq as (Hp & Hq & Hne).
    assert (par p q ∉ marcados_iniciais afd R) as Hn0.
    { intros Hin. apply Hnm. by apply (marcados_apos_mono afd R 0 k); [lia|]. }
    assert (par q p ∉ marcados_iniciais afd R) as Hn0'
      by (by rewrite par_comm).
    unfold marcados_iniciais in Hn0, Hn0'.
    rewrite marcacao_inicial_spec in Hn0, Hn0'. split.
    + intros Hpf. destruct (decide (q ∈ finais afd)); [done|].
      exfalso. apply Hn0. exists p, q. set_solver.
    + intros Hqf. destruct (decide (p ∈ finais afd)); [done|].
      exfalso. apply Hn0'. exists q, p. set_solver.
Qed.

(** X16: the states of a result, for every automaton, valid or not, are
    a partition of the reachable set: every reachable state lies in one
    of them and only reachable states do, two different states of the
    result share no member, there are at most as many as reachable
    states, and the initial state of the result is the one that holds
    the initial state of the input. *)
Theorem resultado_particao pick (afd : AFD string) :
  ∃ R evs,
    _encontrar_estados_alcancaveis afd = Some R ∧
    minimizar_afd pick afd = Some evs ∧
    ∀ a, EvResult a ∈ evs →
      (∀ x, x ∈ R ↔ ∃ X, X ∈ estados a ∧ x ∈ X) ∧
      (∀ X Y, X ∈ estados a → Y ∈ estados a → X ≠ Y → X ## Y) ∧
      inicial a ∈ estados a ∧ inicial afd ∈ inicial a ∧
      size (estados a) ≤ size R.
Proof.
  destruct (minimizar_afd_forma pick afd)
    as (R & HR & [(_ & _ & Hrun)
                 |(_ & _ & k & parent & a & _ & _ & Hrun & Hmin)]);
    exists R; eexists; (split; [exact HR|]); (split; [exact Hrun|]).
  { intros a [?|[?|?%elem_of_nil]%elem_of_cons]%elem_of_cons; done. }
  intros a' ->%eventos_sucesso_result; [|apply eventos_passos_step].
  destruct Hmin as (_ & Hok & Hdom & _ & Hpart & Hini & _).
  pose proof Hpart as (Hne & Hcl & Hcov).
  assert (∀ X Y, X ∈ estados a → Y ∈ estados a → X ≠ Y → X ## Y) as Hdis.
  { intros X Y HX HY Hdif x HxX HxY. apply Hdif.
    apply (particao_eq parent R (estados a) X Y x x); [done..|].
    apply mesma_classe_refl; [done|]. rewrite Hdom.
    by apply (particao_sub parent R (estados a) X). }
  apply mapa_classes_lookup in Hini as [Hini1 Hini2].
  split_and!; [|done|done|done|].
  - intros x. split; [apply Hcov|]. intros (X & HX & HxX).
    by apply (particao_sub parent R (estados a) X).
  - apply size_disjuntos; [|done]. intros X HX. split.
    + destruct (Hne X HX) as [x Hx]. set_solver.
    + by apply (particao_sub parent R (estados a) X).
Qed.

(** X17: for every automaton, valid or not, a state of the result never
    mixes accepting and rejecting states of the input: its members are
    all accepting or all rejecting, and it is an accepting state of the
    result exactly when its members are accepting. *)
Theorem classes_homogeneas pick (afd : AFD string) :
  ∃ evs,
    minimizar_afd pick afd = Some evs ∧
    ∀ a, EvResult a ∈ evs →
      ∀ X p, X ∈ estados a → p ∈ X →
        (∀ q, q ∈ X → (p ∈ finais afd ↔ q ∈ finais afd)) ∧
        (X ∈ finais a ↔ p ∈ finais afd).
Proof.
  destruct (minimizar_afd_forma pick afd)
    as (R & HR & [(_ & _ & Hrun)
                 |(_ & _ & k & parent & a & _ & _ & Hrun & Hmin)]);
    eexists; (split; [exact Hrun|]).
  { intros a [?|[?|?%elem_of_nil]%elem_of_cons]%elem_of_cons; done. }
  intros a' ->%eventos_sucesso_result; [|apply eventos_passos_step].
  destruct Hmin as (Hunir & Hok & Hdom & _ & Hpart & _ & Hfin & _).
  pose proof Hpart as (_ & Hcl & _).
  intros X p HX Hp.
  assert (∀ q, q ∈ X → (p ∈ finais afd ↔ q ∈ finais afd)) as Hhom.
  { intros q Hq.
    apply (mesma_classe_mesma_finalidade afd R k parent p q Hunir).
    by apply (Hcl X p HX Hp q). }
  split; [done|]. rewrite Hfin, elem_of_filter, Exists_exists. split.
  - intros [(s & Hs%elem_of_elements & Hsf) _]. apply (Hhom s Hs). set_solver.
  - intros Hpf. split; [|done]. exists p. rewrite elem_of_elements.
    split; [done|]. apply elem_of_intersection. split; [done|].
    by apply (particao_sub parent R (estados a) X).
Qed.

(** ** The transitions of the result of a valid automaton *)

(** X18: the result of a valid automaton is complete, and its
    transitions do not depend on the member that stands for a class:
    every state of the result has, on every symbol, a transition to a
    state of the result, and that state holds the successor on the
    symbol of every member of the class. *)
Theorem transicao_minimizada_bem_definida pick (afd : AFD string) mensagens r :
  (∀ X, X ≠ ∅ → pick X ∈ X) →
  validar_afd afd = Some (true, mensagens, r) →
  ∃ evs a,
    minimizar_afd pick afd = Some evs ∧ last evs = Some (EvResult a) ∧
    ∀ C s, C ∈ estados a → s ∈ alfabeto a →
      ∃ D, get_trans (transicoes a) C s = Some D ∧ D ∈ estados a ∧
           ∀ p, p ∈ C →
             ∃ p', get_trans (transicoes afd) p s = Some p' ∧ p' ∈ D.
Proof.
  intros Hpick Hv.
  destruct (minimizar_afd_valido_forma pick afd mensagens r Hv)
    as (Hcons & Hcomp & R & k & parent & a & HRe & HR & Hfix & _ & Hrun & Hmin).
  exists (eventos_sucesso afd R k (eventos_passos afd R k) a), a.
  split_and!; [done|apply eventos_sucesso_last|].
  intros C s HC Hs.
  pose proof Hmin as (_ & _ & Hdom & Half & Hpart & _).
  rewrite Half in Hs.
  pose proof Hpart as (Hnv & _ & _). destruct (Hnv C HC) as [p0 Hp0].
  assert (∀ p, p ∈ C → p ∈ R) as HCR.
  { intros p Hp. by apply (particao_sub parent R (estados a) C). }
  destruct (passo_simulado pick afd R k parent a Hpick Hcons Hcomp HR Hfix Hmin
              p0 C s (HCR p0 Hp0) HC Hp0 Hs) as (p0' & D & _ & HD & _ & HDa & _).
  exists D. split; [done|]. split; [done|]. intros p Hp.
  destruct (passo_simulado pick afd R k parent a Hpick Hcons Hcomp HR Hfix Hmin
              p C s (HCR p Hp) HC Hp Hs) as (p' & D' & Hp' & HD' & _ & _ & HpD).
  exists p'. split; [done|]. congruence.
Qed.

Lemma transicao_minimizada_bem_definida_witness :
  ∃ evs a,
    minimizar_afd pick_first afd_exemplo = Some evs ∧
    last evs = Some (EvResult a).
Proof.
  destruct afd_exemplo_valido as (mensagens & r & Hv).
  destruct (transicao_minimizada_bem_definida pick_first afd_exemplo mensagens r
              pick_first_elem Hv) as (evs & a & Hrun & Hlast & _).
  exists evs, a. split; [exact Hrun|exact Hlast].
Defined.

Lemma particao_unica parent R (C1 C2 : gset (gset string)) :
  dom parent = R → particao parent R C1 → particao parent R C2 → C1 = C2.
Proof.
  intros Hdom H1 H2.
  assert (∀ Ca Cb, particao parent R Ca → particao parent R Cb →
                   ∀ X, X ∈ Ca → X ∈ Cb) as Hsub.
  { intros Ca Cb Ha Hb X HX.
    pose proof Ha as (Hne & Hcla & _). pose proof Hb as (_ & Hclb & Hcov).
    destruct (Hne X HX) as [x Hx].
    assert (x ∈ R) as HxR by (by apply (particao_sub parent R Ca X)).
    destruct (Hcov x HxR) as (Y & HY & HxY).
    assert (X = Y) as ->; [|done].
    apply set_eq. intros y. by rewrite (Hcla X x HX Hx y), (Hclb Y x HY HxY y). }
  apply set_eq. intros X. split; by apply Hsub.
Qed.

(** The transitions of a result, entry by entry. *)
Lemma minimizado_transicoes pick afd R k parent a C :
  (∀ X, X ≠ ∅ → pick X ∈ X) → consistente afd → completo afd →
  alcancaveis_spec afd R → alfabeto afd ≠ ∅ →
  passo_marcacao afd (pares_de R) (marcados_apos afd R k) = ∅ →
  minimizado pick afd R (marcados_apos afd R k) parent a →
  (C ∉ estados a → transicoes a !! C = None) ∧
  (C ∈ estados a →
   ∃ m, transicoes a !! C = Some m ∧
        ∀ s, m !! s = if decide (s ∈ alfabeto afd)
                      then get_trans (transicoes a) C s else None).
Proof.
  intros Hpick Hcons Hcomp HR Half Hfix Hmin.
  pose proof Hmin as (_ & _ & Hdom & _ & Hpart & _ & _ & Hget & Hkeys). split.
  - intros HC. destruct (transicoes a !! C) as [m|] eqn:Hm; [|done].
    exfalso. apply HC, Hkeys. by eexists.
  - intros HC. pose proof Hpart as (Hnv & _ & _). destruct (Hnv C HC) as [p Hp].
    assert (p ∈ R) as HpR by (by apply (particao_sub parent R (estados a) C)).
    apply set_choose_L in Half as [s0 Hs0].
    destruct (passo_simulado pick afd R k parent a Hpick Hcons Hcomp HR Hfix Hmin
                p C s0 HpR HC Hp Hs0) as (_ & D & _ & HD & _).
    destruct (transicoes a !! C) as [m|] eqn:Hm.
    2:{ unfold get_trans in HD. rewrite Hm in HD. simpl in HD.
        by rewrite lookup_empty in HD. }
    exists m. split; [done|]. intros s.
    assert (m !! s = get_trans (transicoes a) C s) as Heq.
    { unfold get_trans. by rewrite Hm. }
    destruct (decide (s ∈ alfabeto afd)) as [Hs|Hs]; [done|].
    rewrite Heq, Hget. apply decide_False. by intros [_ ?].
Qed.

(** X19: for a valid automaton the run does not depend on the order in
    which the source iterates a class to pick its representative: with
    any two choices of a member of each class, the events of the two
    runs, and so the two minimized automata, are the same. *)
Theorem resultado_independe_da_escolha pick1 pick2 (afd : AFD string)
    mensagens r :
  (∀ X, X ≠ ∅ → pick1 X ∈ X) → (∀ X, X ≠ ∅ → pick2 X ∈ X) →
  validar_afd afd = Some (true, mensagens, r) →
  minimizar_afd pick1 afd = minimizar_afd pick2 afd.
Proof.
  intros Hpick1 Hpick2 Hv.
  assert (alfabeto afd ≠ ∅) as Halfne.
  { apply validar_afd_valido in Hv as (Hg & _). intros He. apply Hg.
    right. by left. }
  destruct (minimizar_afd_valido_forma pick1 afd mensagens r Hv)
    as (Hcons & Hcomp & R & k & parent & a1 & HRe & HR & Hfix & Hprod & Hrun1 & Hmin1).
  destruct (minimizar_afd_valido_forma pick2 afd mensagens r Hv)
    as (_ & _ & R' & k' & parent' & a2 & HRe' & _ & Hfix' & Hprod' & Hrun2 & Hmin2).
  assert (R' = R) as -> by congruence.
  assert (k' = k) as ->.
  { destruct (Nat.lt_trichotomy k' k) as [Hlt|[->|Hlt]]; [|done|].
    - by destruct (Hprod k' Hlt).
    - by destruct (Hprod' k Hlt). }
  rewrite Hrun1, Hrun2. do 2 f_equal.
  pose proof Hmin1 as (Hu1 & _ & Hdom1 & Ha1 & Hp1 & Hi1 & Hf1 & Hg1 & _).
  pose proof Hmin2 as (Hu2 & _ & _ & Ha2 & Hp2 & Hi2 & Hf2 & Hg2 & _).
  assert (parent' = parent) as -> by congruence.
  assert (estados a1 = estados a2) as He
    by (by apply (particao_unica parent R)).
  assert (transicoes a1 = transicoes a2) as Ht.
  { apply map_eq. intros C.
    destruct (minimizado_transicoes pick1 afd R k parent a1 C
                Hpick1 Hcons Hcomp HR Halfne Hfix Hmin1) as [Hn1 Hs1].
    destruct (minimizado_transicoes pick2 afd R k parent a2 C
                Hpick2 Hcons Hcomp HR Halfne Hfix Hmin2) as [Hn2 Hs2].
    destruct (decide (C ∈ estados a1)) as [HC|HC].
    - destruct (Hs1 HC) as (m1 & -> & Hm1).
      destruct Hs2 as (m2 & -> & Hm2); [by rewrite <- He|].
      f_equal. apply map_eq. intros s. rewrite Hm1, Hm2.
      destruct (decide (s ∈ alfabeto afd)) as [Hs|]; [|done].
      pose proof Hp1 as (Hnv & _ & _). destruct (Hnv C HC) as [p Hp].
      assert (p ∈ R) as HpR by (by apply (particao_sub parent R (estados a1) C)).
      destruct (passo_simulado pick1 afd R k parent a1 Hpick1 Hcons Hcomp HR
                  Hfix Hmin1 p C s HpR HC Hp Hs)
        as (p' & D1 & Hp' & -> & Hp'R & HD1 & HpD1).
      destruct (passo_simulado pick2 afd R k parent a2 Hpick2 Hcons Hcomp HR
                  Hfix Hmin2 p C s HpR) as (p'' & D2 & Hp'' & -> & _ & HD2 & HpD2);
        [by rewrite <- He|done|done|].
      assert (p'' = p') as -> by congruence. f_equal.
      rewrite <- He in HD2.
      apply (particao_eq parent R (estados a1) D1 D2 p' p'); [done..|].
      apply mesma_classe_refl; [by destruct Hmin1 as (_ & ? & _)|].
      by rewrite Hdom1.
    - rewrite Hn1 by done. rewrite Hn2; [done|]. by rewrite <- He. }
  assert (inicial a1 = inicial a2) as Hi.
  { rewrite He in Hi1. congruence. }
  assert (finais a1 = finais a2) as Hf by (by rewrite Hf1, Hf2, He).
  assert (alfabeto a1 = alfabeto a2) as Ha by congruence.
  destruct a1, a2. simpl in *. by subst.
Qed.

Lemma resultado_independe_da_escolha_witness :
  minimizar_afd pick_first afd_exemplo
  = minimizar_afd (λ X, pick_first X) afd_exemplo.
Proof.
  destruct afd_exemplo_valido as (mensagens & r & Hv).
  exact (resultado_independe_da_escolha pick_first (λ X, pick_first X)
           afd_exemplo mensagens r pick_first_elem pick_first_elem Hv).
Defined.

(** ** The validator and the minimizer on unreachable states *)

(** X20: the warning of the validator and the info of the minimizer
    about unreachable states agree: for an automaton that passes the
    guard of the validator and whose initial state is declared, the
    validator warns of a set of unreachable states exactly when the run
    of the minimizer reports that set as ignored, and that is the set
    of the declared states that the search does not visit, when it is
    not empty. *)
Theorem aviso_e_ignorados pick (afd : AFD string) :
  ¬ vazio_ou_incompleto afd → inicial afd ∈ estados afd →
  ∃ v mensagens r evs,
    validar_afd afd = Some (v, mensagens, r) ∧
    minimizar_afd pick afd = Some evs ∧
    ∀ U, AvisoInalcancaveis (inicial afd) U ∈ mensagens
         ↔ EvInfo (InfoInalcancaveisIgnorados U) ∈ evs.
Proof.
  intros Hg Hini.
  destruct (validar_afd_forma afd Hg)
    as (c & d & R & _ & Hc & _ & _ & Hd & HR & Heq).
  destruct (minimizar_afd_forma pick afd)
    as (R' & HR' & [(Hini' & _)
                   |(_ & Hspec & k & parent & a & _ & _ & Hrun & _)]); [done|].
  assert (R' = R) as -> by congruence.
  eexists _, _, _, _. split; [exact Heq|]. split; [exact Hrun|].
  rewrite decide_True by done.
  destruct Hspec as (_ & Hsub & _).
  assert (size R < size (estados afd) ↔ estados afd ∖ R ≠ ∅) as Hsz.
  { split.
    - intros Hlt He. assert (estados afd ⊆ R) as Hs by set_solver.
      apply subseteq_size in Hs. lia.
    - intros Hne. apply subset_size. split; [done|]. set_solver. }
  intros U. rewrite app_assoc, elem_of_app. unfold aviso_de, eventos_sucesso.
  split.
  - intros [Hm|Hm].
    { exfalso. apply elem_of_app in Hm as [Hm%Hc|Hm%Hd]; done. }
    destruct (decide (estados afd ∖ R ≠ ∅)) as [Hne|]; [|by apply elem_of_nil in Hm].
    apply list_elem_of_singleton in Hm. simplify_eq.
    rewrite decide_True by (by apply Hsz).
    apply elem_of_app. right. apply elem_of_app. left. by left.
  - intros Hin. right.
    assert (∀ l, Forall (λ e, ∀ V, e ≠ EvInfo (InfoInalcancaveisIgnorados V)) l →
                 EvInfo (InfoInalcancaveisIgnorados U) ∉ l) as Hno.
    { intros l Hl Hl'. rewrite Forall_forall in Hl. by apply (Hl _ Hl' U). }
    apply elem_of_app in Hin as [Hin|Hin].
    { exfalso. revert Hin. apply Hno. by repeat constructor. }
    apply elem_of_app in Hin as [Hin|Hin].
    + destruct (decide (size R < size (estados afd))) as [Hlt|];
        [|by apply elem_of_nil in Hin].
      apply list_elem_of_singleton in Hin. simplify_eq.
      rewrite decide_True by (by apply Hsz). by left.
    + exfalso. revert Hin. apply Hno.
      repeat (apply Forall_app; split); try by repeat constructor.
      unfold eventos_passos. apply Forall_bind, Forall_forall.
      intros j _. by repeat constructor.
Qed.

Lemma aviso_e_ignorados_witness :
  ∃ v mensagens r evs,
    validar_afd afd_aviso_inalcancavel = Some (v, mensagens, r) ∧
    minimizar_afd pick_first afd_aviso_inalcancavel = Some evs ∧
    (AvisoInalcancaveis "q0" {["q2"%string]} ∈ mensagens
     ↔ EvInfo (InfoInalcancaveisIgnorados {["q2"%string]}) ∈ evs).
Proof.
  destruct (aviso_e_ignorados pick_first afd_aviso_inalcancavel)
    as (v & mensagens & r & evs & Hv & Hrun & Hiff).
  - refuta.
  - calcula.
  - exists v, mensagens, r, evs. split; [exact Hv|]. split; [exact Hrun|].
    apply (Hiff {["q2"%string]}).
Defined.

(** ** The parser *)

Section ParserProps.

Variable strip : string → string.
Variable lower : string → string.

Lemma valores_elem texto x :
  x ∈ valores strip texto
  ↔ x ≠ EmptyString ∧ ∃ val, val ∈ split "," texto ∧ x = strip val.
Proof.
  unfold valores. rewrite elem_of_list_to_set, list_elem_of_filter,
    list_elem_of_fmap.
  split; intros [Hx (val & H1 & H2)]; (split; [done|]); by exists val.
Qed.

Lemma valores_nao_vazio texto : EmptyString ∉ valores strip texto.
Proof. rewrite valores_elem. by intros [? _]. Qed.

Lemma processar_linha_ok st linha_raw :
  leitor_ok st → leitor_ok (processar_linha strip lower st linha_raw).
Proof.
  destruct st as [alfabeto estados inicial finais temp secao num saida].
  intros (He & Ha & Hf & Ht & Hs). unfold processar_linha, leitor_ok.
  simpl in *.
  assert (∀ m, is_erro_impressao m = false →
               Forall (λ m, is_erro_impressao m = false) (saida ++ [m])) as Hs1.
  { intros m Hm. apply Forall_app. split; [done|]. by constructor. }
  assert (∀ m m', is_erro_impressao m = false → is_erro_impressao m' = false →
            Forall (λ m, is_erro_impressao m = false) ((saida ++ [m]) ++ [m']))
    as Hs2.
  { intros m m' Hm Hm'. apply Forall_app. split; [by apply Hs1|].
    by constructor. }
  repeat first
    [ progress simpl
    | match goal with
      | |- context [decide ?P] => destruct (decide P)
      | |- context [String.prefix ?a ?b] => destruct (String.prefix a b)
      | |- context [match split1 ?c ?s with _ => _ end] =>
          destruct (split1 c s) as [|? [|? [|? ?]]]
      | |- context [match strip <$> ?l with _ => _ end] =>
          destruct (strip <$> l) as [|? [|? [|? [|? ?]]]]
      | |- context [match ?o with Some _ => _ | None => _ end] =>
          is_var o; destruct o
      end ];
    try (split_and!; [done|done|done|done|
                      first [done | by apply Hs1 | by apply Hs2]]).
  all: split_and!;
    try first [done | by apply Hs1 | by apply Hs2];
    try (intros ? [= <-]; apply valores_nao_vazio);
    try (intros ? ? ? Hin; destruct (Ht _ _ _ Hin) as (? & ? & ?);
         split_and!; [set_solver|set_solver|done]).
  all: try (intros [?|?%valores_nao_vazio]%elem_of_union; done).
  - rewrite !elem_of_union, !elem_of_singleton. naive_solver.
  - intros o d s' [Hin|Hin%list_elem_of_singleton]%elem_of_app.
    + destruct (Ht _ _ _ Hin) as (? & ? & ?).
      rewrite !elem_of_union. tauto.
    + simplify_eq. rewrite !elem_of_union, !elem_of_singleton. tauto.
Qed.

Lemma ler_linhas_ok linhas_raw : leitor_ok (ler_linhas strip lower linhas_raw).
Proof.
  unfold ler_linhas.
  assert (leitor_ok leitor_inicial) as H0.
  { unfold leitor_ok, leitor_inicial. simpl.
    split_and!; [apply not_elem_of_empty|done|done| |constructor].
    intros ? ? ? ?%elem_of_nil. done. }
  revert H0. generalize leitor_inicial.
  induction linhas_raw as [|l ls IH]; intros st Hst; [done|].
  simpl. by apply IH, processar_linha_ok.
Qed.

(** The dict that the loop over the transitions builds: every entry
    comes from a transition of the list. *)
Lemma montar_transicoes_entradas alfabeto temp t0 saida0 :
  let '(t, saida) := foldl (montar_transicao alfabeto) (t0, saida0) temp in
  (∀ o s d, get_trans t o s = Some d →
            get_trans t0 o s = Some d ∨ (o, d, s) ∈ temp) ∧
  (∀ o, is_Some (t !! o) → is_Some (t0 !! o) ∨ ∃ d s, (o, d, s) ∈ temp) ∧
  (Forall (λ m, is_erro_impressao m = false) saida0 →
   Forall (λ m, is_erro_impressao m = false) saida).
Proof.
  revert t0 saida0. induction temp as [|[[o1 d1] s1] temp IH]; intros t0 saida0.
  { simpl. split_and!; auto. }
  cbn [foldl]. unfold montar_transicao at 2.
  match goal with
  | |- context [foldl _ (?t1, ?sa1) temp] =>
      specialize (IH t1 sa1); destruct (foldl _ (t1, sa1) temp) as [t saida];
      assert (Forall (λ m, is_erro_impressao m = false) saida0 →
              Forall (λ m, is_erro_impressao m = false) sa1) as Hsa
  end.
  { intros H0. destruct (decide (s1 ∉ alfabeto));
      destruct (get_trans t0 o1 s1) as [ant|];
      try destruct (decide (ant ≠ d1));
      repeat (apply Forall_app; split); by repeat constructor. }
  destruct IH as (IH1 & IH2 & IH3). split_and!.
  - intros o s d Hd. destruct (IH1 o s d Hd) as [Hd'|Hin]; [|right; by right].
    rewrite get_trans_insert in Hd'.
    destruct (decide (o = o1 ∧ s = s1)) as [[-> ->]|]; [|by left].
    simplify_eq. right. left.
  - intros o Ho. destruct (IH2 o Ho) as [Ho'|(d & s & Hin)].
    + destruct (decide (o = o1)) as [->|Hne].
      * right. exists d1, s1. left.
      * rewrite lookup_insert_ne in Ho' by done. by left.
    + right. exists d, s. by right.
  - intros H0. by apply IH3, Hsa.
Qed.

(** What the parser returns, when it returns an automaton. *)
Lemma parse_afd_arquivo_forma caminho arquivo afd saida :
  parse_afd_arquivo strip lower caminho arquivo = (Some afd, saida) →
  ∃ linhas_raw,
    arquivo = Linhas linhas_raw ∧
    let st := ler_linhas strip lower linhas_raw in
    l_alfabeto st = Some (alfabeto afd) ∧
    estados afd = l_estados st ∧
    l_inicial st = Some (inicial afd) ∧
    finais afd = default ∅ (l_finais st) ∧
    estados afd ≠ ∅ ∧ inicial afd ∈ estados afd ∧ finais afd ⊆ estados afd ∧
    ∃ saida0,
      (Forall (λ m, is_erro_impressao m = false) saida0) ∧
      (transicoes afd, saida)
      = montar_transicoes (alfabeto afd) (l_transicoes_temp st) saida0.
Proof.
  unfold parse_afd_arquivo. destruct arquivo as [|e|linhas_raw]; [done|done|].
  pose proof (ler_linhas_ok linhas_raw) as (_ & _ & _ & _ & Hs).
  destruct (l_alfabeto (ler_linhas strip lower linhas_raw)) as [A|] eqn:HA;
    [|done].
  destruct (l_inicial (ler_linhas strip lower linhas_raw)) as [i|] eqn:Hi;
    [|done].
  set (fs := match l_finais (ler_linhas strip lower linhas_raw) with
             | Some finais => (finais, l_saida (ler_linhas strip lower linhas_raw))
             | None => (∅, l_saida (ler_linhas strip lower linhas_raw)
                           ++ [ImpAvisoSemFinais])
             end).
  assert (fs.1 = default ∅ (l_finais (ler_linhas strip lower linhas_raw)) ∧
          Forall (λ m, is_erro_impressao m = false) fs.2) as [Hfs1 Hfs2].
  { subst fs. destruct (l_finais _); simpl; split; try done.
    apply Forall_app. split; [done|]. by repeat constructor. }
  destruct fs as [F saida1]. simpl in Hfs1, Hfs2.
  set (saida2 := if decide (l_transicoes_temp (ler_linhas strip lower linhas_raw)
                              = [] ∧
                            l_secao_atual (ler_linhas strip lower linhas_raw)
                              ≠ Some "transicoes")
                 then saida1 ++ [ImpAvisoSemTransicoes] else saida1).
  assert (Forall (λ m, is_erro_impressao m = false) saida2) as Hs2.
  { subst saida2. destruct (decide _); [|done].
    apply Forall_app. split; [done|]. by repeat constructor. }
  destruct (montar_transicoes A _ saida2) as [t saida3] eqn:Hm.
  destruct (decide (l_estados (ler_linhas strip lower linhas_raw) = ∅)); [done|].
  destruct (decide (i ∉ l_estados (ler_linhas strip lower linhas_raw)))
    as [|Hin]; [done|].
  destruct (decide (F ∖ l_estados (ler_linhas strip lower linhas_raw) ≠ ∅))
    as [|Hfin]; [done|].
  intros [= <- <-]. exists linhas_raw. split; [done|]. simpl.
  split_and!; try done.
  - by destruct (decide (i ∈ l_estados (ler_linhas strip lower linhas_raw))).
  - intros x Hx.
    destruct (decide (x ∈ l_estados (ler_linhas strip lower linhas_raw)));
      [done|].
    exfalso. apply Hfin. set_solver.
  - exists saida2. by rewrite Hm.
Qed.

(** The invariants of an automaton that the parser returns. *)
Lemma parse_afd_arquivo_ok caminho arquivo afd saida :
  parse_afd_arquivo strip lower caminho arquivo = (Some afd, saida) →
  estados afd ≠ ∅ ∧ inicial afd ∈ estados afd ∧ finais afd ⊆ estados afd ∧
  (EmptyString ∉ estados afd) ∧ (EmptyString ∉ alfabeto afd) ∧
  (∀ o, is_Some (transicoes afd !! o) → o ∈ estados afd) ∧
  (∀ o s d, get_trans (transicoes afd) o s = Some d →
            o ∈ estados afd ∧ d ∈ estados afd ∧ s ≠ EmptyString) ∧
  Forall (λ m, is_erro_impressao m = false) saida.
Proof.
  intros (linhas_raw & -> & HA & HE & Hi & HF & Hne & Hini & Hfin
          & saida0 & Hs0 & Hm)%parse_afd_arquivo_forma.
  pose proof (ler_linhas_ok linhas_raw) as (He & Ha & _ & Ht & _).
  pose proof (montar_transicoes_entradas (alfabeto afd)
                (l_transicoes_temp (ler_linhas strip lower linhas_raw))
                ∅ saida0) as Hent.
  unfold montar_transicoes in Hm. rewrite <- Hm in Hent.
  destruct Hent as (Hent1 & Hent2 & Hent3).
  split_and!; try done.
  - by rewrite HE.
  - by apply Ha.
  - intros o Ho. destruct (Hent2 o Ho) as [[? Hemp]|(d & s & Hin)].
    { by rewrite lookup_empty in Hemp. }
    rewrite HE. by apply Ht in Hin as (? & _).
  - intros o s d Hd. destruct (Hent1 o s d Hd) as [Hemp|Hin].
    { unfold get_trans in Hemp. rewrite lookup_empty in Hemp. simpl in Hemp.
      by rewrite lookup_empty in Hemp. }
    rewrite HE. by apply Ht in Hin.
  - by apply Hent3.
Qed.

End ParserProps.

(** The only violation of consistency that an automaton of the parser
    can have is a symbol outside the alphabet. *)
Lemma parse_afd_arquivo_violacoes (strip lower : string → string)
    caminho arquivo afd saida :
  parse_afd_arquivo strip lower caminho arquivo = (Some afd, saida) →
  ∀ m, violacao afd m → ∃ s o d, m = ErroSimboloInvalido s o d.
Proof.
  intros (Hne & Hini & Hfin & He & Ha & Hk & Ht & Hs)%parse_afd_arquivo_ok.
  intros [|i E|X E|o|s o d|d o s| | |]; simpl; try done.
  - by intros (_ & _ & ?).
  - intros (-> & _ & HX). exfalso. apply HX. set_solver.
  - intros (Ho%Hk & ?). done.
  - intros _. by exists s, o, d.
  - intros (Hd%Ht & ?). by destruct Hd as (_ & ? & _).
Qed.

(** X21: an automaton that [parse_afd_arquivo] returns, whatever the
    file: it has states, its initial state and its accepting states
    are states, no state label and no symbol is the empty text, and
    every transition goes from a state to a state on a symbol that is
    not empty; symbols outside the alphabet are the only violation of
    consistency that it can have.  The parser printed no error. *)
Theorem parse_afd_arquivo_invariantes (strip lower : string → string)
    caminho arquivo afd saida :
  parse_afd_arquivo strip lower caminho arquivo = (Some afd, saida) →
  estados afd ≠ ∅ ∧ inicial afd ∈ estados afd ∧ finais afd ⊆ estados afd ∧
  (EmptyString ∉ estados afd) ∧ (EmptyString ∉ alfabeto afd) ∧
  (∀ o s d, get_trans (transicoes afd) o s = Some d →
            o ∈ estados afd ∧ d ∈ estados afd ∧ s ≠ EmptyString) ∧
  (∀ m, violacao afd m → ∃ s o d, m = ErroSimboloInvalido s o d) ∧
  Forall (λ m, is_erro_impressao m = false) saida.
Proof.
  intros Hp. pose proof (parse_afd_arquivo_violacoes _ _ _ _ _ _ Hp) as Hviol.
  apply parse_afd_arquivo_ok in Hp
    as (Hne & Hini & Hfin & He & Ha & Hk & Ht & Hs).
  split_and!; done.
Qed.

Lemma parse_afd_arquivo_invariantes_witness :
  ∃ afd saida,
    parse_afd_arquivo strip_ascii lower_ascii "afd.txt" arquivo_exemplo
    = (Some afd, saida) ∧
    inicial afd ∈ estados afd ∧ finais afd ⊆ estados afd.
Proof.
  assert (is_Some (parse_afd_arquivo strip_ascii lower_ascii "afd.txt"
                     arquivo_exemplo).1) as [afd Hafd].
  { apply (bool_decide_eq_true_1 (is_Some _)). vm_compute. reflexivity. }
  destruct (parse_afd_arquivo strip_ascii lower_ascii "afd.txt" arquivo_exemplo)
    as [o saida] eqn:Hp.
  simpl in Hafd. subst o.
  destruct (parse_afd_arquivo_invariantes strip_ascii lower_ascii "afd.txt"
              arquivo_exemplo afd saida Hp) as (_ & Hini & Hfin & _).
  exists afd, saida. split; [reflexivity|]. split; [exact Hini|exact Hfin].
Defined.

(** X22: the parser returns no automaton exactly when the last line it
    printed is an error; when it returns one, none of the lines it
    printed is an error. *)
Theorem parse_afd_arquivo_erro (strip lower : string → string)
    caminho arquivo :
  let '(r, saida) := parse_afd_arquivo strip lower caminho arquivo in
  (r = None ↔ ∃ m, last saida = Some m ∧ is_erro_impressao m = true) ∧
  (is_Some r → Forall (λ m, is_erro_impressao m = false) saida).
Proof.
  destruct (parse_afd_arquivo strip lower caminho arquivo) as [[afd|] saida]
    eqn:Hp.
  - apply parse_afd_arquivo_ok in Hp as (_ & _ & _ & _ & _ & _ & _ & Hs).
    split; [|done]. split; [done|]. intros (m & Hm & He).
    apply last_Some in Hm as [l ->]. apply Forall_app in Hs as [_ Hs].
    rewrite Forall_singleton in Hs. congruence.
  - split; [|by intros [? ?]]. split; [intros _|done].
    revert Hp. unfold parse_afd_arquivo.
    destruct arquivo as [|e|linhas_raw].
    { intros [= <-]. by eexists. }
    { intros [= <-]. by eexists. }
    destruct (l_alfabeto _) as [A|].
    2:{ intros [= <-]. eexists. by rewrite last_snoc. }
    destruct (l_inicial _) as [i|].
    2:{ intros [= <-]. eexists. by rewrite last_snoc. }
    destruct (match l_finais _ with Some _ => _ | None => _ end) as [F saida1].
    destruct (montar_transicoes _ _ _) as [t saida3].
    repeat (destruct (decide _)); intros [= <-];
      eexists; by rewrite last_snoc.
Qed.

Lemma montar_transicoes_ultima alfabeto temp saida o s :
  get_trans (montar_transicoes alfabeto temp saida).1 o s
  = ultima_transicao temp o s.
Proof.
  unfold montar_transicoes, ultima_transicao.
  induction temp as [|[[o1 d1] s1] temp IH] using rev_ind.
  { simpl. unfold get_trans. rewrite lookup_empty. simpl.
    by rewrite lookup_empty. }
  rewrite foldl_app, filter_app. cbn [foldl].
  destruct (foldl (montar_transicao alfabeto) (∅, saida) temp) as [t sa].
  unfold montar_transicao. cbn [fst]. simpl in IH.
  rewrite get_trans_insert, filter_cons, filter_nil. simpl.
  destruct (decide (o = o1 ∧ s = s1)) as [[-> ->]|Hne].
  - rewrite decide_True by done. by rewrite last_snoc.
  - rewrite decide_False by (intros [? ?]; by apply Hne).
    by rewrite app_nil_r.
Qed.

(** X23: when a file declares several transitions for the same origin
    and symbol the last one wins: the automaton that the parser returns
    has, for each origin and symbol, the destination of the last
    transition line for them, and no transition where the file has no
    line. *)
Theorem parse_afd_arquivo_ultima_transicao (strip lower : string → string)
    caminho linhas_raw afd saida :
  parse_afd_arquivo strip lower caminho (Linhas linhas_raw) = (Some afd, saida) →
  ∀ o s, get_trans (transicoes afd) o s
         = ultima_transicao (transicoes_lidas strip lower linhas_raw) o s.
Proof.
  intros (linhas_raw' & [= <-] & _ & _ & _ & _ & _ & _ & _
          & saida0 & _ & Hm)%parse_afd_arquivo_forma o s.
  rewrite <- (montar_transicoes_ultima (alfabeto afd) _ saida0).
  unfold transicoes_lidas. by rewrite <- Hm.
Qed.

Lemma parse_afd_arquivo_ultima_transicao_witness :
  ∃ afd saida,
    parse_afd_arquivo strip_ascii lower_ascii "afd.txt" arquivo_exemplo
    = (Some afd, saida) ∧
    get_trans (transicoes afd) "q0" "a" = Some "q0"%string.
Proof.
  assert (is_Some (parse_afd_arquivo strip_ascii lower_ascii "afd.txt"
                     arquivo_exemplo).1) as [afd Hafd].
  { apply (bool_decide_eq_true_1 (is_Some _)). vm_compute. reflexivity. }
  destruct (parse_afd_arquivo strip_ascii lower_ascii "afd.txt" arquivo_exemplo)
    as [o saida] eqn:Hp.
  simpl in Hafd. subst o. exists afd, saida. split; [reflexivity|].
  unfold arquivo_exemplo in Hp.
  rewrite (parse_afd_arquivo_ultima_transicao strip_ascii lower_ascii _ _ _ _
             Hp "q0" "a").
  vm_compute. reflexivity.
Defined.

(** X24: the parser, the validator and the minimizer together.  For an
    automaton that the parser returns, the guard of the validator can
    only answer for an empty alphabet, the only errors that the
    validator can report are symbols outside the alphabet and missing
    transitions, and the run of the minimizer ends with a result. *)
Theorem parse_validar_minimizar (strip lower : string → string)
    (pick : gset string → string) caminho arquivo afd saida :
  parse_afd_arquivo strip lower caminho arquivo = (Some afd, saida) →
  (vazio_ou_incompleto afd ↔ alfabeto afd = ∅) ∧
  (∃ v mensagens r,
     validar_afd afd = Some (v, mensagens, r) ∧
     (alfabeto afd ≠ ∅ →
      ∀ m, m ∈ mensagens → is_erro m = true →
           (∃ s o d, m = ErroSimboloInvalido s o d)
           ∨ (∃ e s, m = ErroTransicaoAusente e s))) ∧
  (∃ evs a, minimizar_afd pick afd = Some evs ∧ last evs = Some (EvResult a)).
Proof.
  intros Hp. pose proof (parse_afd_arquivo_violacoes _ _ _ _ _ _ Hp) as Hviol.
  apply parse_afd_arquivo_ok in Hp
    as (Hne & Hini & Hfin & He & Ha & _ & Ht & Hs).
  assert (inicial afd ≠ EmptyString) as Hi by (by intros Heq; rewrite Heq in Hini).
  split_and!.
  - unfold vazio_ou_incompleto. split; [|by intros; right; left].
    by intros [?|[?|?]].
  - destruct (decide (alfabeto afd = ∅)) as [Hae|Hae].
    { exists false, [ErroObjetoVazio], None.
      split; [apply validar_afd_vazio; right; by left|done]. }
    destruct (validar_afd_forma afd) as (c & d & R & _ & Hc & _ & _ & Hd & HR & Heq).
    { by intros [?|[?|?]]. }
    eexists _, _, _. split; [exact Heq|]. intros _ m Hm Herro.
    rewrite decide_True in Hm by done.
    rewrite !elem_of_app in Hm. destruct Hm as [Hm|[Hm|Hm]].
    + left. by apply Hviol, Hc.
    + right. apply Hd in Hm. destruct m; try done. by eexists _, _.
    + unfold aviso_de in Hm.
      destruct (decide (estados afd ∖ R ≠ ∅)); [|by apply elem_of_nil in Hm].
      apply list_elem_of_singleton in Hm. by subst m.
  - destruct (minimizar_afd_forma pick afd)
      as (R & HR & [(Hini' & _)|(_ & _ & k & parent & a & _ & _ & Hrun & _)]);
      [done|].
    eexists _, a. split; [exact Hrun|]. apply eventos_sucesso_last.
Qed.

Lemma parse_validar_minimizar_witness :
  ∃ afd saida evs a,
    parse_afd_arquivo strip_ascii lower_ascii "afd.txt" arquivo_exemplo
    = (Some afd, saida) ∧
    minimizar_afd pick_first afd = Some evs ∧ last evs = Some (EvResult a).
Proof.
  assert (is_Some (parse_afd_arquivo strip_ascii lower_ascii "afd.txt"
                     arquivo_exemplo).1) as [afd Hafd].
  { apply (bool_decide_eq_true_1 (is_Some _)). vm_compute. reflexivity. }
  destruct (parse_afd_arquivo strip_ascii lower_ascii "afd.txt" arquivo_exemplo)
    as [o saida] eqn:Hp.
  simpl in Hafd. subst o.
  destruct (parse_validar_minimizar strip_ascii lower_ascii pick_first "afd.txt"
              arquivo_exemplo afd saida Hp) as (_ & _ & evs & a & Hrun & Hlast).
  exists afd, saida, evs, a.
  split; [reflexivity|]. split; [exact Hrun|exact Hlast].
Defined.

Lemma split_sem_virgula s x : x ∈ split "," s → sem_virgula x.
Proof.
  revert x. induction s as [|c s IH]; intros x; simpl.
  { intros ->%list_elem_of_singleton. unfold sem_virgula. simpl.
    apply not_elem_of_nil. }
  destruct (decide (c = ","%char)) as [->|Hc].
  { intros [->|Hx]%elem_of_cons; [|by apply IH].
    unfold sem_virgula. simpl. apply not_elem_of_nil. }
  destruct (split "," s) as [|p ps] eqn:Hsp.
  { intros ->%list_elem_of_singleton. unfold sem_virgula. simpl.
    rewrite not_elem_of_cons. split; [done|apply not_elem_of_nil]. }
  intros [->|Hx]%elem_of_cons.
  - unfold sem_virgula. simpl. rewrite not_elem_of_cons. split; [done|].
    apply (IH p). left.
  - apply IH. by right.
Qed.

Section ParserRotulos.

Variable strip : string → string.
Variable lower : string → string.
Hypothesis strip_sem_virgula : ∀ s, sem_virgula s → sem_virgula (strip s).

Lemma valores_sem_virgula texto x : x ∈ valores strip texto → sem_virgula x.
Proof.
  rewrite (valores_elem strip). intros (_ & val & Hval & ->).
  apply strip_sem_virgula. exact (split_sem_virgula texto val Hval).
Qed.

Lemma processar_linha_sem_virgula st linha_raw :
  leitor_sem_virgula st →
  leitor_sem_virgula (processar_linha strip lower st linha_raw).
Proof.
  destruct st as [alfabeto estados inicial finais temp secao num saida].
  intros Hst. pose proof Hst as (He & Ha).
  unfold processar_linha. simpl in *.
  destruct (decide _); [exact Hst|].
  destruct (String.prefix _ _).
  { destruct (split1 ":" _) as [|? [|resto [|? ?]]]; try exact Hst.
    split; [exact He|]. simpl. intros A x [= <-]. apply valores_sem_virgula. }
  destruct (String.prefix _ _).
  { destruct (split1 ":" _) as [|? [|resto [|? ?]]]; try exact Hst.
    split; [|exact Ha]. simpl.
    intros q [Hq|Hq]%elem_of_union; [by apply He|].
    by apply (valores_sem_virgula resto). }
  destruct (String.prefix _ _).
  { destruct (split1 ":" _) as [|? [|resto [|? ?]]]; exact Hst. }
  destruct (String.prefix _ _).
  { destruct (split1 ":" _) as [|? [|resto [|? ?]]]; exact Hst. }
  destruct (decide _); [exact Hst|]. destruct (decide _); [|exact Hst].
  destruct (strip <$> split "," _) as [|o [|d [|s [|? ?]]]] eqn:Hp;
    try exact Hst.
  destruct (decide _); [|exact Hst]. split; [|exact Ha]. simpl.
  assert (∀ x, x ∈ [o; d; s] → sem_virgula x) as Hx.
  { rewrite <- Hp. intros x (val & -> & Hval)%list_elem_of_fmap.
    apply strip_sem_virgula. exact (split_sem_virgula _ _ Hval). }
  intros q. rewrite !elem_of_union, !elem_of_singleton.
  intros [->|[->|Hq]]; [apply Hx|apply Hx|by apply He].
  - right. left.
  - left.
Qed.

Lemma ler_linhas_sem_virgula linhas_raw :
  leitor_sem_virgula (ler_linhas strip lower linhas_raw).
Proof.
  unfold ler_linhas.
  assert (leitor_sem_virgula leitor_inicial) as H0.
  { split; [by intros q ?%not_elem_of_empty|done]. }
  revert H0. generalize leitor_inicial.
  induction linhas_raw as [|l ls IH]; intros st Hst; [done|].
  simpl. by apply IH, processar_linha_sem_virgula.
Qed.

End ParserRotulos.

Lemma lstrip_ascii_sem_virgula s : sem_virgula s → sem_virgula (lstrip_ascii s).
Proof.
  unfold sem_virgula. induction s as [|c s IH]; [done|]. simpl.
  destruct (Ascii.is_space c); [|done].
  rewrite not_elem_of_cons. intros [_ ?]. by apply IH.
Qed.

Lemma rev_sem_virgula s : sem_virgula s → sem_virgula (String.rev s).
Proof.
  unfold sem_virgula, String.rev.
  assert (∀ a b, ","%char ∉ String.list_ascii_of_string a →
                 ","%char ∉ String.list_ascii_of_string b →
                 ","%char ∉ String.list_ascii_of_string (String.rev_app a b))
    as Hrev.
  { induction a as [|c a IH]; intros b Ha Hb; [done|]. simpl in *.
    apply not_elem_of_cons in Ha as [Hc Ha]. apply IH; [done|].
    simpl. by apply not_elem_of_cons. }
  intros Hs. apply Hrev; [done|]. simpl. apply not_elem_of_nil.
Qed.

Lemma strip_ascii_sem_virgula s : sem_virgula s → sem_virgula (strip_ascii s).
Proof.
  intros Hs. unfold strip_ascii.
  by apply rev_sem_virgula, lstrip_ascii_sem_virgula, rev_sem_virgula,
    lstrip_ascii_sem_virgula.
Qed.

(** X25: the labels that the parser reads hold no comma: when [strip]
    adds none, no state and no symbol of the alphabet of the automaton
    that the parser returns holds a comma, whatever the file. *)
Theorem parse_afd_arquivo_sem_virgula (strip lower : string → string)
    caminho arquivo afd saida :
  (∀ s, sem_virgula s → sem_virgula (strip s)) →
  parse_afd_arquivo strip lower caminho arquivo = (Some afd, saida) →
  (∀ q, q ∈ estados afd → sem_virgula q) ∧
  (∀ s, s ∈ alfabeto afd → sem_virgula s).
Proof.
  intros Hstrip (linhas_raw & -> & HA & HE & _)%parse_afd_arquivo_forma.
  destruct (ler_linhas_sem_virgula strip lower Hstrip linhas_raw) as [He Ha].
  split.
  - intros q Hq. apply He. by rewrite <- HE.
  - intros s Hs. by apply (Ha _ s HA).
Qed.

Lemma parse_afd_arquivo_sem_virgula_witness :
  ∃ afd saida,
    parse_afd_arquivo strip_ascii lower_ascii "afd.txt" arquivo_exemplo
    = (Some afd, saida) ∧
    ∀ q, q ∈ estados afd → sem_virgula q.
Proof.
  assert (is_Some (parse_afd_arquivo strip_ascii lower_ascii "afd.txt"
                     arquivo_exemplo).1) as [afd Hafd].
  { apply (bool_decide_eq_true_1 (is_Some _)). vm_compute. reflexivity. }
  destruct (parse_afd_arquivo strip_ascii lower_ascii "afd.txt" arquivo_exemplo)
    as [o saida] eqn:Hp.
  simpl in Hafd. subst o. exists afd, saida. split; [reflexivity|].
  exact (proj1 (parse_afd_arquivo_sem_virgula strip_ascii lower_ascii "afd.txt"
                  arquivo_exemplo afd saida strip_ascii_sem_virgula Hp)).
Defined.

Lemma split1_head_sem (c : ascii) l :
  c ∉ String.list_ascii_of_string l → head (split1 c l) = Some l.
Proof.
  induction l as [|x l IH]; [done|]. simpl.
  rewrite not_elem_of_cons. intros [Hx Hl].
  rewrite decide_False by done. specialize (IH Hl).
  destruct (split1 c l) as [|p ps]; [done|]. simpl in *. by simplify_eq.
Qed.

Lemma split1_head_app (c : ascii) l r :
  c ∉ String.list_ascii_of_string l →
  head (split1 c (l +:+ String c r)) = Some l.
Proof.
  induction l as [|x l IH]; simpl.
  { intros _. by rewrite decide_True. }
  rewrite not_elem_of_cons. intros [Hx Hl].
  rewrite decide_False by done. specialize (IH Hl).
  destruct (split1 c (l +:+ String c r)) as [|p ps]; [done|].
  simpl in *. by simplify_eq.
Qed.

Lemma processar_linha_comentario strip lower st l comentario :
  "#"%char ∉ String.list_ascii_of_string l →
  processar_linha strip lower st (l +:+ String "#" comentario)
  = processar_linha strip lower st l.
Proof.
  intros Hl. unfold processar_linha.
  by rewrite (split1_head_app "#" l comentario Hl), (split1_head_sem "#" l Hl).
Qed.

(** X26: comments are ignored: adding to each line of a file a [#] and
    any text, where the line has no [#] of its own, changes neither
    the automaton that the parser returns nor the lines it prints. *)
Theorem parse_afd_arquivo_comentarios (strip lower : string → string)
    caminho (linhas_raw comentarios : list string) :
  Forall (λ l, "#"%char ∉ String.list_ascii_of_string l) linhas_raw →
  length comentarios = length linhas_raw →
  parse_afd_arquivo strip lower caminho
    (Linhas (zip_with (λ l c, l +:+ String "#" c) linhas_raw comentarios))
  = parse_afd_arquivo strip lower caminho (Linhas linhas_raw).
Proof.
  intros Hl Hlen.
  assert (ler_linhas strip lower
            (zip_with (λ l c, l +:+ String "#" c) linhas_raw comentarios)
          = ler_linhas strip lower linhas_raw) as Heq.
  { unfold ler_linhas. generalize leitor_inicial. revert comentarios Hlen.
    induction Hl as [|l ls Hl _ IH]; intros [|c cs] Hlen st;
      simpl in *; try done.
    rewrite processar_linha_comentario by done. apply IH. lia. }
  unfold parse_afd_arquivo. by rewrite Heq.
Qed.

Lemma parse_afd_arquivo_comentarios_witness :
  parse_afd_arquivo strip_ascii lower_ascii "afd.txt"
    (Linhas ["alfabeto: a#o alfabeto"; "inicial: q0#"])
  = parse_afd_arquivo strip_ascii lower_ascii "afd.txt"
      (Linhas ["alfabeto: a"; "inicial: q0"]).
Proof.
  apply (parse_afd_arquivo_comentarios strip_ascii lower_ascii "afd.txt"
           ["alfabeto: a"; "inicial: q0"] ["o alfabeto"; ""]).
  - repeat constructor; apply (bool_decide_eq_true_1 _); vm_compute; reflexivity.
  - reflexivity.
Defined.

(** ** The names of the nodes of the diagram *)

Lemma split_um x : sem_virgula x → split "," x = [x].
Proof.
  unfold sem_virgula. induction x as [|c x IH]; [done|]. simpl.
  rewrite not_elem_of_cons. intros [Hc Hx].
  rewrite decide_False by done. by rewrite IH.
Qed.

Lemma split_app x r :
  sem_virgula x → split "," (x +:+ String "," r) = x :: split "," r.
Proof.
  unfold sem_virgula. induction x as [|c x IH]; [done|]. simpl.
  rewrite not_elem_of_cons. intros [Hc Hx].
  rewrite decide_False by done. by rewrite IH.
Qed.

Lemma split_concat l :
  l ≠ [] → Forall sem_virgula l → split "," (String.concat "," l) = l.
Proof.
  induction l as [|x l IH]; [done|]. intros _ Hl.
  apply Forall_cons in Hl as [Hx Hl]. destruct l as [|y l].
  { simpl. by apply split_um. }
  change (String.concat "," (x :: y :: l))
    with (x +:+ String "," (String.concat "," (y :: l))).
  rewrite split_app by done. by rewrite IH.
Qed.

Lemma sorted_states_inj X Y : sorted_states X = sorted_states Y → X = Y.
Proof.
  intros Heq. apply set_eq. intros x.
  by rewrite <- !sorted_states_elem, Heq.
Qed.

Lemma format_state_classe_inj X Y :
  X ≠ ∅ → Y ≠ ∅ →
  (∀ q, q ∈ X → sem_virgula q) → (∀ q, q ∈ Y → sem_virgula q) →
  format_state (Classe X) = format_state (Classe Y) → X = Y.
Proof.
  intros HX HY HXv HYv Heq. simpl in Heq. apply sorted_states_inj.
  assert (∀ Z, Z ≠ ∅ → (∀ q, q ∈ Z → sem_virgula q) →
               split "," (String.concat "," (sorted_states Z)) = sorted_states Z)
    as Hsp.
  { intros Z HZ HZv. apply split_concat.
    - intros Hnil. apply HZ. apply set_eq. intros x.
      rewrite <- sorted_states_elem, Hnil. set_solver.
    - apply Forall_forall. intros q Hq. by apply HZv, sorted_states_elem. }
  by rewrite <- (Hsp X), <- (Hsp Y), Heq.
Qed.

(** X27: the diagram of a minimized automaton has one node for each
    state: when no label of the input holds a comma, [format_state]
    gives two different states of the result two different names. *)
Theorem format_state_injetiva pick (afd : AFD string) :
  (∀ q, q ∈ estados afd → sem_virgula q) →
  ∃ evs,
    minimizar_afd pick afd = Some evs ∧
    ∀ a C D, EvResult a ∈ evs → C ∈ estados a → D ∈ estados a →
      format_state (Classe C) = format_state (Classe D) → C = D.
Proof.
  intros Hv.
  destruct (minimizar_afd_forma pick afd)
    as (R & HR & [(_ & _ & Hrun)
                 |(_ & Hspec & k & parent & a & _ & _ & Hrun & Hmin)]);
    eexists; (split; [exact Hrun|]).
  { intros a C D [?|[?|?%elem_of_nil]%elem_of_cons]%elem_of_cons; done. }
  intros a' C D ->%eventos_sucesso_result; [|apply eventos_passos_step].
  destruct Hmin as (_ & _ & Hdom & _ & Hpart & _).
  destruct (_encontrar_estados_alcancaveis_forma afd) as (R' & HR' & _ & Hsub & _).
  assert (R' = R) as -> by congruence.
  assert (∀ X, X ∈ estados a → X ≠ ∅ ∧ ∀ q, q ∈ X → sem_virgula q) as Hcl.
  { intros X HX. split.
    - destruct Hpart as (Hne & _). destruct (Hne X HX) as [x Hx]. set_solver.
    - intros q Hq. apply Hv, Hsub.
      by apply (particao_sub parent R (estados a) X). }
  intros HC HD. destruct (Hcl C HC), (Hcl D HD).
  by apply format_state_classe_inj.
Qed.

Lemma format_state_injetiva_witness :
  ∃ evs, minimizar_afd pick_first afd_exemplo = Some evs.
Proof.
  assert (set_Forall (λ q, ","%char ∉ String.list_ascii_of_string q)
            (estados afd_exemplo)) as Hv.
  { apply (bool_decide_eq_true_1 _). vm_compute. reflexivity. }
  destruct (format_state_injetiva pick_first afd_exemplo Hv) as (evs & Hrun & _).
  exists evs. exact Hrun.
Defined.

(** ** The formatters *)

#[local] Instance tuple_le_total : Total tuple_le.
Proof.
  intros a. induction a as [|x a IH]; intros [|y b]; simpl; auto.
  destruct (decide (x = y)) as [->|Hne].
  - rewrite decide_True by done. apply IH.
  - rewrite decide_False by done. apply (total String.le).
Qed.

#[local] Instance tuple_le_antisymm : AntiSymm (=) tuple_le.
Proof.
  intros a. induction a as [|x a IH]; intros [|y b]; simpl; try done.
  destruct (decide (x = y)) as [->|Hne].
  - rewrite decide_True by done. intros H1 H2. f_equal. by apply IH.
  - rewrite decide_False by done. intros H1 H2.
    destruct Hne. by apply (anti_symm String.le).
Qed.

#[local] Instance tuple_le_trans : Transitive tuple_le.
Proof.
  intros a. induction a as [|x a IH]; intros [|y b] [|z c]; simpl; try done.
  destruct (decide (x = y)) as [Hxy|Hxy], (decide (y = z)) as [Hyz|Hyz],
    (decide (x = z)) as [Hxz|Hxz]; try congruence; try done.
  - apply IH.
  - intros H1 H2. subst z. destruct Hxy. by apply (anti_symm String.le).
  - intros H1 H2. by trans y.
Qed.

Lemma tuplas_ordenadas_elem M t :
  t ∈ tuplas_ordenadas M ↔ ∃ X, X ∈ M ∧ t = sorted_states X.
Proof.
  unfold tuplas_ordenadas. rewrite merge_sort_Permutation, list_elem_of_fmap.
  split; intros (X & H1 & H2); exists X.
  - by apply elem_of_elements in H2.
  - by apply elem_of_elements in H1.
Qed.

Lemma tuplas_ordenadas_nil M : tuplas_ordenadas M = [] ↔ M = ∅.
Proof.
  split.
  - intros Hnil. apply set_eq. intros X. split; [|set_solver].
    intros HX. assert (sorted_states X ∈ tuplas_ordenadas M) as Hin.
    { apply tuplas_ordenadas_elem. by exists X. }
    rewrite Hnil in Hin. by apply elem_of_nil in Hin.
  - intros ->. unfold tuplas_ordenadas. by rewrite elements_empty.
Qed.

(** A loop over the tuples that reads [p[0]] and [p[1]] fails exactly
    when one of the sets has fewer than two members. *)
Lemma mapM_tuplas (f : list string → option string) M :
  (∀ t, f t = None ↔ length t < 2) →
  mapM f (tuplas_ordenadas M) = None ↔ ∃ X, X ∈ M ∧ size X < 2.
Proof.
  intros Hf. split.
  - intros (t & Ht & Hnone)%mapM_None_1%Exists_exists.
    apply tuplas_ordenadas_elem in Ht as (X & HX & ->).
    exists X. split; [done|]. rewrite <- sorted_states_length. by apply Hf.
  - intros (X & HX & Hsz). apply mapM_None_2, Exists_exists.
    exists (sorted_states X). split.
    + apply tuplas_ordenadas_elem. by exists X.
    + apply Hf. by rewrite sorted_states_length.
Qed.

Lemma indices_0_1 (g : string → string → string) (t : list string) :
  (p0 ← t !! 0; p1 ← t !! 1; Some (g p0 p1)) = None ↔ length t < 2.
Proof.
  destruct t as [|a [|b t]]; simpl; split; try done; try lia.
Qed.

Lemma _formatar_tabela_marcacao_None estados pairs passo_num :
  _formatar_tabela_marcacao estados pairs passo_num = None
  ↔ ∃ X, X ∈ pairs ∧ size X < 2.
Proof.
  unfold _formatar_tabela_marcacao. cbv zeta.
  destruct (decide (tuplas_ordenadas pairs = [])) as [Hnil|Hnil].
  { apply tuplas_ordenadas_nil in Hnil as ->. simpl. split; [done|].
    intros (X & HX & _). set_solver. }
  pose proof (mapM_tuplas _ pairs
                (indices_0_1 (λ p0 p1, "{" +:+ p0 +:+ "," +:+ p1 +:+ "}")))
    as Hiff.
  cbv beta in Hiff. rewrite <- Hiff.
  by destruct (mapM _ (tuplas_ordenadas pairs)).
Qed.

Lemma _formatar_novos_marcados_None passo_num pairs :
  _formatar_novos_marcados passo_num pairs = None
  ↔ ∃ X, X ∈ pairs ∧ size X < 2.
Proof.
  unfold _formatar_novos_marcados. cbv zeta.
  destruct (decide (pairs = ∅)) as [->|Hne].
  { simpl. split; [done|]. intros (X & HX & _). set_solver. }
  pose proof (mapM_tuplas _ pairs
                (indices_0_1 (λ p0 p1, "  - {" +:+ p0 +:+ "," +:+ p1 +:+ "}")))
    as Hiff.
  cbv beta in Hiff. rewrite <- Hiff.
  by destruct (mapM _ (tuplas_ordenadas pairs)).
Qed.

(** X28: the two formatters fail, with the [IndexError] of [p[0]] or
    [p[1]], exactly when the set of pairs that they are given holds a
    set of fewer than two states; on every other set, also one with
    sets of three states, they return a text. *)
Theorem formatadores_falham (estados : list string)
    (pairs : gset (gset string)) (passo_num : nat) :
  (_formatar_tabela_marcacao estados pairs passo_num = None
   ↔ ∃ X, X ∈ pairs ∧ size X < 2) ∧
  (_formatar_novos_marcados passo_num pairs = None
   ↔ ∃ X, X ∈ pairs ∧ size X < 2).
Proof.
  split.
  - apply _formatar_tabela_marcacao_None.
  - apply _formatar_novos_marcados_None.
Qed.

(** ** The formatters on the tables of a run *)

Lemma sorted_states_par p q :
  p ≠ q → String.le p q → sorted_states (par p q) = [p; q].
Proof.
  intros Hne Hle. apply (StronglySorted_unique String.le).
  - apply sorted_states_ordenado.
  - repeat constructor. done.
  - unfold sorted_states, par. rewrite merge_sort_Permutation.
    apply NoDup_Permutation.
    + apply NoDup_elements.
    + apply NoDup_cons. split; [|apply NoDup_singleton].
      by intros ->%list_elem_of_singleton.
    + intros x. rewrite elem_of_elements, elem_of_union, !elem_of_singleton,
        elem_of_cons, list_elem_of_singleton. done.
Qed.

Lemma StronglySorted_filter {A} (R : relation A) (P : A → Prop)
    `{!∀ x, Decision (P x)} (l : list A) :
  StronglySorted R l → StronglySorted R (filter P l).
Proof.
  induction 1 as [|x l Hl IH Hx]; [constructor|].
  rewrite filter_cons. destruct (decide (P x)); [|done].
  constructor; [done|]. apply Forall_forall. intros y [_ Hy]%list_elem_of_filter.
  rewrite Forall_forall in Hx. by apply Hx.
Qed.

Lemma combinations2_tuplas (l : list string) :
  StronglySorted String.le l → NoDup l →
  StronglySorted (λ a b : string * string, tuple_le [a.1; a.2] [b.1; b.2])
                 (combinations2 l).
Proof.
  induction l as [|x l IH]; [constructor|].
  intros [Hs Hx]%StronglySorted_inv [Hxl Hnd]%NoDup_cons. simpl.
  rewrite Forall_forall in Hx.
  apply StronglySorted_app_2.
  - intros [x1 y1] [p q] (y & [= -> ->] & Hy)%list_elem_of_fmap
      [Hp _]%combinations2_elem. simpl.
    rewrite decide_False by (by intros ->). by apply Hx.
  - apply (StronglySorted_fmap _ String.le); [|done].
    intros y z Hyz. simpl. rewrite decide_True by done.
    by destruct (decide (y = z)).
  - by apply IH.
Qed.

(** The sorted tuples of a set of pairs of [R] are the candidate pairs
    that are in the set, in the order of the candidate pairs. *)
Lemma tuplas_ordenadas_pares R M :
  so_pares R M → tuplas_ordenadas M = pares_marcados R M.
Proof.
  intros Hso. apply (StronglySorted_unique tuple_le).
  - apply StronglySorted_merge_sort; apply _.
  - unfold pares_marcados.
    apply (StronglySorted_fmap _
             (λ a b : string * string, tuple_le [a.1; a.2] [b.1; b.2]));
      [done|].
    apply StronglySorted_filter, combinations2_tuplas.
    + apply sorted_states_ordenado.
    + apply sorted_states_NoDup.
  - apply NoDup_Permutation.
    + unfold tuplas_ordenadas. rewrite merge_sort_Permutation.
      apply NoDup_fmap_2; [|apply NoDup_elements].
      intros X Y. apply sorted_states_inj.
    + unfold pares_marcados. apply NoDup_fmap_2.
      * by intros [p q] [p' q'] [= -> ->].
      * apply NoDup_filter, combinations2_sem_repeticao, sorted_states_NoDup.
    + intros t. rewrite tuplas_ordenadas_elem. unfold pares_marcados.
      rewrite list_elem_of_fmap. split.
      * intros (X & HX & ->).
        destruct (Hso X HX) as (p & q & Hp & Hq & Hne & ->).
        destruct (pares_de_total R p q Hp Hq Hne) as [Hin|Hin].
        -- exists (p, q). split.
           ++ apply sorted_states_par; [done|].
              by apply (combinations2_ordenado String.le) in Hin
                as (_ & _ & _ & ?);
                [|apply sorted_states_ordenado|apply sorted_states_NoDup].
           ++ apply list_elem_of_filter. by split.
        -- exists (q, p). assert (par p q = par q p) as Hsym.
           { unfold par. set_solver. }
           split.
           ++ rewrite Hsym. apply sorted_states_par; [done|].
              by apply (combinations2_ordenado String.le) in Hin
                as (_ & _ & _ & ?);
                [|apply sorted_states_ordenado|apply sorted_states_NoDup].
           ++ apply list_elem_of_filter. split; [|done]. simpl.
              by rewrite <- Hsym.
      * intros ([p q] & -> & [HM Hin]%list_elem_of_filter). simpl in *.
        exists (par p q). split; [done|]. symmetry.
        apply (combinations2_ordenado String.le) in Hin
          as (_ & _ & Hne & Hle);
          [|apply sorted_states_ordenado|apply sorted_states_NoDup].
        by apply sorted_states_par.
Qed.

(** The sets that the step events of a run carry hold only pairs of two
    different reachable states. *)
Lemma eventos_sucesso_so_pares afd R k a e :
  e ∈ eventos_sucesso afd R k (eventos_passos afd R k) a →
  match e with
  | EvStepTable _ M | EvStepUpdate _ M => so_pares R M
  | _ => True
  end.
Proof.
  intros He. destruct e as [| n M | n M | |]; try done.
  - assert (EvStepTable n M ∈ filter (λ e, is_step e = true)
              (eventos_sucesso afd R k (eventos_passos afd R k) a)) as Hf.
    { by apply list_elem_of_filter. }
    rewrite filter_passos_sucesso in Hf.
    apply elem_of_cons in Hf as [[= _ ->]|Hf]; [apply (so_pares_apos afd R 0)|].
    unfold eventos_passos in Hf.
    apply list_elem_of_bind in Hf as (j & Hf & _).
    apply elem_of_cons in Hf as [?|Hf]; [done|].
    apply list_elem_of_singleton in Hf as [= _ ->].
    apply (so_pares_apos afd R (S j)).
  - assert (EvStepUpdate n M ∈ filter (λ e, is_step e = true)
              (eventos_sucesso afd R k (eventos_passos afd R k) a)) as Hf.
    { by apply list_elem_of_filter. }
    rewrite filter_passos_sucesso in Hf.
    apply elem_of_cons in Hf as [?|Hf]; [done|].
    unfold eventos_passos in Hf.
    apply list_elem_of_bind in Hf as (j & Hf & _).
    apply elem_of_cons in Hf as [[= _ ->]|Hf].
    + intros X HX. apply (so_pares_apos afd R (S j)). simpl.
      apply elem_of_union. by right.
    + by apply list_elem_of_singleton in Hf.
Qed.

(** X29: on the tables of a run the formatters never fail: for every
    automaton, each [step_table] and [step_update] event of the run of
    [minimizar_afd] carries a set for which the formatter returns a
    text, and the text lists the pairs of the set with the smaller
    label first, in the order in which the passes go through the
    candidate pairs. *)
Theorem formatadores_de_uma_execucao pick (afd : AFD string) :
  ∃ R evs,
    _encontrar_estados_alcancaveis afd = Some R ∧
    minimizar_afd pick afd = Some evs ∧
    (∀ n M, EvStepTable n M ∈ evs →
       is_Some (_formatar_tabela_marcacao (sorted_states R) M n) ∧
       tuplas_ordenadas M = pares_marcados R M) ∧
    (∀ n N, EvStepUpdate n N ∈ evs →
       is_Some (_formatar_novos_marcados n N) ∧
       tuplas_ordenadas N = pares_marcados R N).
Proof.
  destruct (minimizar_afd_forma pick afd)
    as (R & HR & [(_ & _ & Hrun)
                 |(_ & _ & k & parent & a & _ & _ & Hrun & _)]);
    exists R; eexists; (split; [exact HR|]); (split; [exact Hrun|]).
  { split; intros n M [?|[?|?%elem_of_nil]%elem_of_cons]%elem_of_cons; done. }
  assert (∀ M, so_pares R M → ¬ ∃ X, X ∈ M ∧ size X < 2) as Hsz.
  { intros M Hso (X & HX & Hlt).
    destruct (Hso X HX) as (p & q & _ & _ & Hne & ->).
    unfold par in Hlt. rewrite size_union, !size_singleton in Hlt; [lia|].
    by apply disjoint_singleton_l, not_elem_of_singleton. }
  split; intros n M Hin;
    pose proof (eventos_sucesso_so_pares afd R k a _ Hin) as Hso; simpl in Hso;
    (split; [|by apply tuplas_ordenadas_pares]).
  - destruct (_formatar_tabela_marcacao (sorted_states R) M n) eqn:Hf; [done|].
    exfalso. apply (Hsz M Hso).
    by apply (_formatar_tabela_marcacao_None (sorted_states R) M n).
  - destruct (_formatar_novos_marcados n M) eqn:Hf; [done|].
    exfalso. apply (Hsz M Hso).
    by apply (_formatar_novos_marcados_None n M).
Qed.
